(** * Meget: tour-progress tracking and analytics aggregation

    A shallow embedding of [convex/analytics.ts] (the progress tracker
    [startTour] / [completeStep] / [completeTour] / [abandonTour], the
    aggregator [getTourAnalytics] / [getRecentActivity] /
    [getOwnerAnalyticsSummary]) and of [deleteStep], with the properties
    the design document states about them; and of the handlers of the
    tour configurations, of the navigation of the [Widget] component and
    of the user handlers, with further properties of the code.

    Conventions of the embedding:
    - the document store is explicit state ([Db]); every table is a list
      of documents in creation order (oldest first);
    - a handler is a computation in the state-and-exception monad [M];
      a thrown exception keeps the state reached at the throw, and
      [commit] gives the transactional view (a failed mutation writes
      nothing);
    - what a handler reads from its environment is an argument:
      [Date.now()] is [now], the identifier and creation time the store
      picks on [insert] are [newId] and [created], the caller's identity
      is [identity], and the tables of the store that no handler of the
      embedding writes are [elsewhere] where a handler can read them;
    - JavaScript numbers that hold counts and timestamps are integers
      ([nat], [Z]); the rates, which are computed with [/] and [*], are
      IEEE-754 binary64 values ([float]). *)

From Stdlib Require Import ZArith Ascii String Uint63 PrimFloat.
From stdpp Require Import base option list sorting strings pretty.

Local Open Scope Z_scope.

(** ** JavaScript values *)

Module Js.

(** [ToBoolean] of an optional number: [undefined] and [0] are falsy. *)
Definition truthy (v : option Z) : bool :=
  match v with
  | Some n => negb (n =? 0)
  | None => false
  end.

(** A count (an array length, a counter) as a number. *)
Definition number (n : nat) : float :=
  PrimFloat.of_uint63 (Uint63.of_Z (Z.of_nat n)).

(** [Array.prototype.findIndex]: the first index at which [p] holds,
    [-1] when there is none. *)
Fixpoint findIndex {A} (p : A → bool) (l : list A) : Z :=
  match l with
  | [] => -1
  | x :: l' =>
      if p x then 0
      else let i := findIndex p l' in
           if i <? 0 then -1 else i + 1
  end.

(** [a || b] on strings: the empty string is falsy. *)
Definition or_else (a b : string) : string :=
  if String.eqb a "" then b else a.

End Js.

(** ** Documents *)

Definition Id := string.

Module StepProgress.
Record t := mk {
  stepId : string;
  startedAt : Z;
  completedAt : option Z;
}.

(** [{ ...entry, completedAt: now }] *)
Definition with_completedAt (now : Z) (e : t) : t :=
  mk (stepId e) (startedAt e) (Some now).
End StepProgress.

Module TourAnalytics.
Record t := mk {
  _id : Id;
  _creationTime : Z;
  tourId : string;
  userId : string;
  startedAt : Z;
  completedAt : option Z;
  abandonedAt : option Z;
  stepProgress : list StepProgress.t;
}.

(** The partial documents the handlers pass to [db.patch]. *)
Definition set_stepProgress (sp : list StepProgress.t) (d : t) : t :=
  mk (_id d) (_creationTime d) (tourId d) (userId d) (startedAt d)
     (completedAt d) (abandonedAt d) sp.

Definition set_completedAt (now : Z) (d : t) : t :=
  mk (_id d) (_creationTime d) (tourId d) (userId d) (startedAt d)
     (Some now) (abandonedAt d) (stepProgress d).

Definition set_abandonedAt (now : Z) (d : t) : t :=
  mk (_id d) (_creationTime d) (tourId d) (userId d) (startedAt d)
     (completedAt d) (Some now) (stepProgress d).
End TourAnalytics.

Module Tour.
(** The fields of a tour document the handlers read.  [name] is [None]
    when the field is absent or not a string; [steps] is [None] when
    the field is not an array, and otherwise lists the step ids. *)
Record t := mk {
  _id : Id;
  name : option string;
  ownerId : option string;
  userId : option string;
  steps : option (list string);
}.
End Tour.

Module Step.
Record t := mk {
  _id : Id;
  tourId : Id;
  stepId : string;
  order : Z;
}.

Definition set_order (o : Z) (s : t) : t :=
  mk (_id s) (tourId s) (stepId s) o.
End Step.

(** ** The document store *)

(** The tables the handlers read and write, each in creation order. *)
Record Db := mkDb {
  tourAnalytics : list TourAnalytics.t;
  tours : list Tour.t;
  steps : list Step.t;
}.

Definition emptyDb : Db := mkDb [] [] [].

(** What a handler can throw: its own errors, and those of the store. *)
Inductive Exn :=
| Error (message : string)          (* [throw new Error(message)] *)
| NonexistentDocument (id : Id)     (* [db.patch] / [db.delete] of a missing document *)
| MalformedId (s : string).         (* [db.get] of a string that is no identifier *)

Definition M (A : Type) : Type := Db → (Exn + A) * Db.

Definition ret {A} (a : A) : M A := λ db, (inr a, db).

Definition bind {A B} (m : M A) (k : A → M B) : M B :=
  λ db, match m db with
        | (inr a, db') => k a db'
        | (inl e, db') => (inl e, db')
        end.

Definition throw {A} (e : Exn) : M A := λ db, (inl e, db).

(** [try { m } catch (e) { h }] *)
Definition try_catch {A} (m : M A) (h : Exn → M A) : M A :=
  λ db, match m db with
        | (inr a, db') => (inr a, db')
        | (inl e, db') => h e db'
        end.

Notation "'let*' x ':=' m 'in' k" := (bind m (λ x, k))
  (at level 10, x name, m at level 100, k at level 200).
Notation "m ';;;' k" := (bind m (λ _, k))
  (at level 100, k at level 200, right associativity).

(** The state a mutation leaves behind: a mutation that throws is rolled
    back. *)
Definition commit {A} (m : M A) (db : Db) : Db :=
  match m db with
  | (inr _, db') => db'
  | (inl _, _) => db
  end.

Module Store.

Definition has_id (id : Id) (d : TourAnalytics.t) : bool :=
  String.eqb (TourAnalytics._id d) id.

(** [ctx.db.get(id)] for an identifier of table [tourAnalytics]. *)
Definition get_tourAnalytics (id : Id) : M (option TourAnalytics.t) :=
  λ db, (inr (List.find (has_id id) (tourAnalytics db)), db).

(** [ctx.db.insert('tourAnalytics', doc)]: the new document is the most
    recently created one. *)
Definition insert_tourAnalytics (doc : TourAnalytics.t) : M Id :=
  λ db, (inr (TourAnalytics._id doc),
         mkDb (tourAnalytics db ++ [doc]) (tours db) (steps db)).

(** [ctx.db.patch(id, fields)]: merges [fields] into the document, and
    throws when there is no such document. *)
Definition patch_tourAnalytics (id : Id)
    (fields : TourAnalytics.t → TourAnalytics.t) : M unit :=
  λ db, match List.find (has_id id) (tourAnalytics db) with
        | Some _ =>
            (inr (),
             mkDb (map (λ d, if has_id id d then fields d else d)
                       (tourAnalytics db))
                  (tours db) (steps db))
        | None => (inl (NonexistentDocument id), db)
        end.

(** [.withIndex('by_tour', q => q.eq('tourId', tourId)).collect()] *)
Definition by_tour (tourId : string) : M (list TourAnalytics.t) :=
  λ db, (inr (filter (λ d, TourAnalytics.tourId d = tourId)
                     (tourAnalytics db)), db).

(** [.order('desc').take(n)]: the [n] most recently created documents,
    newest first. *)
Definition recent (n : nat) : M (list TourAnalytics.t) :=
  λ db, (inr (take n (reverse (tourAnalytics db))), db).

End Store.

(** ** Session / progress tracker *)

Definition startTour (tourId userId : string)
    (now : Z) (newId : Id) (created : Z) : M Id :=
  let* analyticsId := Store.insert_tourAnalytics
      (TourAnalytics.mk newId created tourId userId now None None []) in
  ret analyticsId.

(** The entry collection [completeStep] writes back.  [findIndex] only
    returns indices of the array, so the lookup at [stepIndex] succeeds. *)
Definition updateProgress (stepProgress : list StepProgress.t)
    (stepId : string) (now : Z) : list StepProgress.t :=
  let updatedProgress := stepProgress in
  let stepIndex :=
    Js.findIndex (λ step, String.eqb (StepProgress.stepId step) stepId)
                 updatedProgress in
  if 0 <=? stepIndex then
    match updatedProgress !! Z.to_nat stepIndex with
    | Some e =>
        <[Z.to_nat stepIndex := StepProgress.with_completedAt now e]>
          updatedProgress
    | None => updatedProgress
    end
  else
    updatedProgress ++ [StepProgress.mk stepId now (Some now)].

Definition completeStep (analyticsId : Id) (stepId : string) (now : Z) : M Id :=
  let* analyticsRecord := Store.get_tourAnalytics analyticsId in
  match analyticsRecord with
  | None => throw (Error "Analytics record not found")
  | Some analyticsRecord =>
      let updatedProgress :=
        updateProgress (TourAnalytics.stepProgress analyticsRecord) stepId now in
      Store.patch_tourAnalytics analyticsId
        (TourAnalytics.set_stepProgress updatedProgress) ;;;
      ret analyticsId
  end.

Definition completeTour (analyticsId : Id) (now : Z) : M Id :=
  Store.patch_tourAnalytics analyticsId (TourAnalytics.set_completedAt now) ;;;
  ret analyticsId.

Definition abandonTour (analyticsId : Id) (now : Z) : M Id :=
  Store.patch_tourAnalytics analyticsId (TourAnalytics.set_abandonedAt now) ;;;
  ret analyticsId.

(** ** Call sequences *)

Inductive Call :=
| StartTour (tourId userId : string) (now : Z) (newId : Id) (created : Z)
| CompleteStep (analyticsId : Id) (stepId : string) (now : Z)
| CompleteTour (analyticsId : Id) (now : Z)
| AbandonTour (analyticsId : Id) (now : Z).

Definition run (c : Call) : M Id :=
  match c with
  | StartTour tourId userId now newId created =>
      startTour tourId userId now newId created
  | CompleteStep analyticsId stepId now => completeStep analyticsId stepId now
  | CompleteTour analyticsId now => completeTour analyticsId now
  | AbandonTour analyticsId now => abandonTour analyticsId now
  end.

Definition exec (cs : list Call) (db : Db) : Db :=
  foldl (λ db c, commit (run c) db) db cs.

(** The store never hands out an identifier twice. *)
Definition fresh (id : Id) (db : Db) : Prop :=
  id ∉ map TourAnalytics._id (tourAnalytics db).

Fixpoint admissible (cs : list Call) (db : Db) : Prop :=
  match cs with
  | [] => True
  | c :: cs' =>
      match c with
      | StartTour _ _ _ newId _ => fresh newId db
      | _ => True
      end ∧ admissible cs' (commit (run c) db)
  end.

(** The states the tracker can bring an empty store to. *)
Definition reachable (db : Db) : Prop :=
  ∃ cs, admissible cs emptyDb ∧ db = exec cs emptyDb.

(** The record stored under [id], if any. *)
Definition record (id : Id) (db : Db) : option TourAnalytics.t :=
  List.find (Store.has_id id) (tourAnalytics db).

Definition stepIds (r : TourAnalytics.t) : list string :=
  map StepProgress.stepId (TourAnalytics.stepProgress r).

(** ** Plain JavaScript objects used as dictionaries

    [stepCompletion] in [getTourAnalytics] is an object literal [{}] indexed
    by step identifiers.  Two rules of the language show through it:
    - a read [o[k]] that finds no own property continues in
      [Object.prototype], whose members are all truthy;
    - [Object.entries] lists the own properties whose names are array
      indices first, in ascending numeric order, and the others after them
      in the order they were created. *)

Module JsObject.

Definition t (V : Type) := list (string * V).

Definition get_own {V} (o : t V) (k : string) : option V :=
  snd <$> List.find (λ kv, String.eqb kv.1 k) o.

(** [o[k] = v]: an existing property keeps its place, a new one is
    created last. *)
Fixpoint set {V} (o : t V) (k : string) (v : V) : t V :=
  match o with
  | [] => [(k, v)]
  | (k', v') :: o' =>
      if String.eqb k' k then (k', v) :: o' else (k', v') :: set o' k v
  end.

(** The property names of [Object.prototype]. *)
Definition prototype_names : list string :=
  ["constructor"; "__defineGetter__"; "__defineSetter__"; "hasOwnProperty";
   "__lookupGetter__"; "__lookupSetter__"; "isPrototypeOf";
   "propertyIsEnumerable"; "toString"; "valueOf"; "__proto__";
   "toLocaleString"].

Definition inherited (k : string) : bool :=
  existsb (String.eqb k) prototype_names.

Definition digit (a : ascii) : option N :=
  let n := N_of_ascii a in
  if ((48 <=? n) && (n <=? 57))%N then Some (n - 48)%N else None.

Fixpoint digits (acc : N) (s : string) : option N :=
  match s with
  | EmptyString => Some acc
  | String a s' =>
      match digit a with
      | Some d => digits (10 * acc + d)%N s'
      | None => None
      end
  end.

(** A property name is an array index when it is the canonical decimal
    form of an integer below [2^32 - 1]. *)
Definition array_index (k : string) : option N :=
  match k with
  | EmptyString => None
  | _ =>
      match digits 0%N k with
      | Some n =>
          if String.eqb (pretty n) k && (n <? 4294967295)%N then Some n else None
      | None => None
      end
  end.

Fixpoint insert_sorted {V} (n : N) (kv : string * V)
    (l : list (N * (string * V))) : list (N * (string * V)) :=
  match l with
  | [] => [(n, kv)]
  | (m, kv') :: l' =>
      if (n <? m)%N then (n, kv) :: l else (m, kv') :: insert_sorted n kv l'
  end.

Definition indexed {V} (o : t V) : list (N * (string * V)) :=
  omap (λ kv, (λ n, (n, kv)) <$> array_index kv.1) o.

Definition is_index (k : string) : bool :=
  match array_index k with
  | Some _ => true
  | None => false
  end.

Definition named {V} (o : t V) : t V :=
  List.filter (λ kv, negb (is_index kv.1)) o.

Definition sort_indexed {V} (l : list (N * (string * V))) : list (N * (string * V)) :=
  foldr (λ nkv, insert_sorted nkv.1 nkv.2) [] l.

(** [Object.entries(o)] *)
Definition entries {V} (o : t V) : list (string * V) :=
  map snd (sort_indexed (indexed o)) ++ named o.

End JsObject.

(** [Map]: entries are kept in the order their keys were first set. *)
Module JsMap.
Definition t (V : Type) := list (string * V).
Definition get {V} (m : t V) (k : string) : option V := JsObject.get_own m k.
Definition set {V} (m : t V) (k : string) (v : V) : t V := JsObject.set m k v.
Definition entries {V} (m : t V) : list (string * V) := m.
End JsMap.

(** ** Analytics aggregator *)

(** [started > 0 ? (completed / started) * 100 : 0] *)
Definition percentage (completed started : nat) : float :=
  if (0 <? started)%nat
  then PrimFloat.mul (PrimFloat.div (Js.number completed) (Js.number started)) 100%float
  else 0%float.

Module StepCount.
Record t := mk { started : nat; completed : nat }.
End StepCount.

(** The value a read [stepCompletion[k]] yields. *)
Inductive Member :=
| Own (c : StepCount.t)
| Inherited.

Definition member (o : JsObject.t StepCount.t) (k : string) : option Member :=
  match JsObject.get_own o k with
  | Some c => Some (Own c)
  | None => if JsObject.inherited k then Some Inherited else None
  end.

(** One turn of the inner loop of [getTourAnalytics].  When
    [stepCompletion[k]] is a member of [Object.prototype] the two updates
    land on that member and [stepCompletion] gets no property. *)
Definition tally (stepCompletion : JsObject.t StepCount.t)
    (step : StepProgress.t) : JsObject.t StepCount.t :=
  let k := StepProgress.stepId step in
  let o1 :=
    match member stepCompletion k with
    | None => JsObject.set stepCompletion k (StepCount.mk 0 0)
    | Some _ => stepCompletion
    end in
  let o2 :=
    match member o1 k with
    | Some (Own c) =>
        JsObject.set o1 k (StepCount.mk (StepCount.started c + 1) (StepCount.completed c))
    | _ => o1
    end in
  if Js.truthy (StepProgress.completedAt step) then
    match member o2 k with
    | Some (Own c) =>
        JsObject.set o2 k (StepCount.mk (StepCount.started c) (StepCount.completed c + 1))
    | _ => o2
    end
  else o2.

Definition tallyAll (analytics : list TourAnalytics.t) : JsObject.t StepCount.t :=
  foldl (λ o record, foldl tally o (TourAnalytics.stepProgress record)) [] analytics.

Module StepRate.
Record t := mk { stepId : string; completionRate : float }.
End StepRate.

Module TourReport.
Record t := mk {
  totalStarted : nat;
  totalCompleted : nat;
  completionRate : float;
  stepCompletionRates : list StepRate.t;
}.
End TourReport.

Definition getTourAnalytics (tourId : string) : M TourReport.t :=
  let* analytics := Store.by_tour tourId in
  let totalStarted := length analytics in
  let totalCompleted :=
    length (List.filter (λ a, Js.truthy (TourAnalytics.completedAt a)) analytics) in
  let completionRate := percentage totalCompleted totalStarted in
  let stepCompletion := tallyAll analytics in
  let stepCompletionRates :=
    map (λ e, StepRate.mk e.1
           (percentage (StepCount.completed e.2) (StepCount.started e.2)))
        (JsObject.entries stepCompletion) in
  ret (TourReport.mk totalStarted totalCompleted completionRate stepCompletionRates).

(** ** Other tables of the store *)

(** A document of the store.  [OtherDoc] is a document of one of the
    tables the handlers below do not touch ([users], [templates],
    [sessions], ...), given by its [name] field when that is a string. *)
Inductive Doc :=
| TourDoc (t : Tour.t)
| TourAnalyticsDoc (a : TourAnalytics.t)
| StepDoc (s : Step.t)
| OtherDoc (name : option string).

(** [doc.name] when it is a string. *)
Definition doc_name (d : Doc) : option string :=
  match d with
  | TourDoc t => Tour.name t
  | OtherDoc name => name
  | TourAnalyticsDoc _ | StepDoc _ => None
  end.

Module Table.

Definition get_tour (id : Id) : M (option Tour.t) :=
  λ db, (inr (List.find (λ t, String.eqb (Tour._id t) id) (tours db)), db).

Definition get_step (id : Id) : M (option Step.t) :=
  λ db, (inr (List.find (λ s, String.eqb (Step._id s) id) (steps db)), db).

(** The document stored under an identifier, whatever its table.
    [elsewhere] is the rest of the store: [elsewhere id] is the document
    that one of the other tables holds under [id], as its [name] field
    when that is a string. *)
Definition lookup (elsewhere : Id → option (option string)) (s : Id) (db : Db) :
    option Doc :=
  match List.find (λ t, String.eqb (Tour._id t) s) (tours db) with
  | Some t => Some (TourDoc t)
  | None =>
      match List.find (Store.has_id s) (tourAnalytics db) with
      | Some a => Some (TourAnalyticsDoc a)
      | None =>
          match List.find (λ x, String.eqb (Step._id x) s) (steps db) with
          | Some x => Some (StepDoc x)
          | None => OtherDoc <$> elsewhere s
          end
      end
  end.

(** [ctx.db.get(s)] for an arbitrary string [s]: the store rejects a
    string that is not an identifier ([validId] is its syntax check), and
    otherwise answers with the document of that identifier, whatever its
    table, or [null]. *)
Definition get (validId : string → bool) (elsewhere : Id → option (option string))
    (s : string) : M (option Doc) :=
  λ db,
    if validId s then (inr (lookup elsewhere s db), db)
    else (inl (MalformedId s), db).

(** [.withIndex('by_owner', q => q.eq('ownerId', ownerId)).collect()] *)
Definition by_owner (ownerId : string) : M (list Tour.t) :=
  λ db, (inr (filter (λ t, Tour.ownerId t = Some ownerId) (tours db)), db).

(** [ctx.db.delete(id)] on table [steps]. *)
Definition delete_step (id : Id) : M unit :=
  λ db, match List.find (λ s, String.eqb (Step._id s) id) (steps db) with
        | Some _ =>
            (inr (),
             mkDb (tourAnalytics db) (tours db)
                  (List.filter (λ s, negb (String.eqb (Step._id s) id)) (steps db)))
        | None => (inl (NonexistentDocument id), db)
        end.

(** [ctx.db.patch(id, fields)] on table [steps]. *)
Definition patch_step (id : Id) (fields : Step.t → Step.t) : M unit :=
  λ db, match List.find (λ s, String.eqb (Step._id s) id) (steps db) with
        | Some _ =>
            (inr (),
             mkDb (tourAnalytics db) (tours db)
                  (map (λ s, if String.eqb (Step._id s) id then fields s else s)
                       (steps db)))
        | None => (inl (NonexistentDocument id), db)
        end.

(** Index order of [by_tourId_order] within one tour: by [order], and
    by creation among equal orders. *)
Fixpoint insert_by_order (s : Step.t) (l : list Step.t) : list Step.t :=
  match l with
  | [] => [s]
  | s' :: l' =>
      if Step.order s <=? Step.order s' then s :: l
      else s' :: insert_by_order s l'
  end.

Definition sort_by_order (l : list Step.t) : list Step.t :=
  foldr insert_by_order [] l.

(** [.withIndex("by_tourId_order", q => q.eq("tourId", tourId)).collect()] *)
Definition by_tourId_order (tourId : Id) : M (list Step.t) :=
  λ db, (inr (sort_by_order
                (List.filter (λ s, String.eqb (Step.tourId s) tourId) (steps db))),
         db).

End Table.

Fixpoint mapM {A B} (f : A → M B) (l : list A) : M (list B) :=
  match l with
  | [] => ret []
  | x :: l' =>
      let* y := f x in
      let* ys := mapM f l' in
      ret (y :: ys)
  end.

(** ** Recent activity *)

Module Activity.
Record t := mk {
  id : Id;
  user : string;
  action : string;
  target : string;
  timestamp : Z;
}.
End Activity.

Section RecentActivity.

Variable validId : string → bool.
Variable elsewhere : Id → option (option string).

(** The [try] block around the tour lookup; the [catch] only logs. *)
Definition resolveTourName (record : TourAnalytics.t) : M string :=
  try_catch
    (let* tour := Table.get validId elsewhere (TourAnalytics.tourId record) in
     ret match tour with
         | Some d =>
             match doc_name d with
             | Some name => name
             | None => "Unknown Tour"
             end
         | None => "Unknown Tour"
         end)
    (λ _, ret "Unknown Tour").

Definition getRecentActivity : M (list Activity.t) :=
  let* recentAnalytics := Store.recent 10 in
  let* activities :=
    mapM (λ record,
            let* tourName := resolveTourName record in
            ret (Activity.mk
                   (TourAnalytics._id record)
                   (Js.or_else (TourAnalytics.userId record) "Anonymous")
                   (if Js.truthy (TourAnalytics.completedAt record)
                    then "completed" else "started")
                   tourName
                   (TourAnalytics._creationTime record)))
         recentAnalytics in
  ret activities.

End RecentActivity.

(** ** Owner summary *)

Module TourSummary.
Record t := mk {
  tourId : Id;
  name : option string;
  completionRate : float;
  stepsCount : nat;
}.
End TourSummary.

Module DayCount.
Record t := mk { date : string; completions : nat }.
End DayCount.

Module OwnerSummary.
Record t := mk {
  perTour : list TourSummary.t;
  completionsByDay : list DayCount.t;
}.
End OwnerSummary.

Section OwnerSummary.

(** The local calendar fields of [new Date(t)]. *)
Variables getFullYear getMonth getDate : Z → Z.

Definition dayKey (t : Z) : string :=
  pretty (getFullYear t) +:+ "-" +:+ pretty (getMonth t + 1) +:+ "-" +:+
  pretty (getDate t).

Definition countByDay (recent : list TourAnalytics.t) : JsMap.t nat :=
  foldl (λ byDay rec,
           let key := dayKey (TourAnalytics.startedAt rec) in
           JsMap.set byDay key (default 0%nat (JsMap.get byDay key) + 1)%nat)
        [] recent.

Definition summarizeTour (tour : Tour.t) : M TourSummary.t :=
  let* analytics := Store.by_tour (Tour._id tour) in
  let totalStarted := length analytics in
  let totalCompleted :=
    length (List.filter (λ a, Js.truthy (TourAnalytics.completedAt a)) analytics) in
  let completionRate := percentage totalCompleted totalStarted in
  ret (TourSummary.mk (Tour._id tour) (Tour.name tour) completionRate
         (match Tour.steps tour with Some l => length l | None => 0%nat end)).

Definition getOwnerAnalyticsSummary (ownerId : string) : M OwnerSummary.t :=
  let* tours := Table.by_owner ownerId in
  let* perTour := mapM summarizeTour tours in
  let* recent := Store.recent 50 in
  let byDay := countByDay recent in
  let completionsByDay :=
    map (λ e, DayCount.mk e.1 e.2) (reverse (take 7 (JsMap.entries byDay))) in
  ret (OwnerSummary.mk perTour completionsByDay).

End OwnerSummary.

(** ** Deleting a step *)

Module Identity.
Record t := mk { subject : string }.
End Identity.

(** The loop that renumbers [remainingSteps] from position [i]. *)
Fixpoint renumber (i : nat) (remainingSteps : list Step.t) : M unit :=
  match remainingSteps with
  | [] => ret ()
  | s :: rest =>
      Table.patch_step (Step._id s) (Step.set_order (Z.of_nat i + 1)) ;;;
      renumber (S i) rest
  end.

Definition deleteStep (identity : option Identity.t) (id : Id) : M unit :=
  match identity with
  | None => throw (Error "Unauthorized")
  | Some identity =>
      let* step := Table.get_step id in
      match step with
      | None => throw (Error "Not found")
      | Some step =>
          let* tour := Table.get_tour (Step.tourId step) in
          let refused :=
            match tour with
            | None => true
            | Some tour =>
                negb (bool_decide
                        (Tour.userId tour = Some (Identity.subject identity)))
            end in
          if refused then throw (Error "Unauthorized")
          else
            Table.delete_step id ;;;
            let* remainingSteps := Table.by_tourId_order (Step.tourId step) in
            renumber 0 remainingSteps
      end
  end.

(** ** Vocabulary of the statements *)

(** Every record keeps at most one entry per step identifier. *)
Definition entries_unique (db : Db) : Prop :=
  Forall (λ r, NoDup (stepIds r)) (tourAnalytics db).

(** The calls [completeStep(id, s)] for the steps [calls], in order. *)
Definition completeSteps (id : Id) (calls : list (string * Z)) : list Call :=
  map (λ c, CompleteStep id c.1 c.2) calls.

(** Completion timestamps are clock readings: [Date.now()] is never [0]
    after the epoch. *)
Definition stamped (db : Db) : Prop :=
  Forall (λ a, TourAnalytics.completedAt a ≠ Some 0 ∧
               Forall (λ e, StepProgress.completedAt e ≠ Some 0)
                      (TourAnalytics.stepProgress a))
         (tourAnalytics db).

(** The reading of the clock a call works with. *)
Definition call_time (c : Call) : Z :=
  match c with
  | StartTour _ _ now _ _ => now
  | CompleteStep _ _ now => now
  | CompleteTour _ now => now
  | AbandonTour _ now => now
  end.

Definition after_epoch (cs : list Call) : Prop := Forall (λ c, 0 < call_time c) cs.

(** The tour document a record refers to, if there is one. *)
Definition tourOf (db : Db) (r : TourAnalytics.t) : option Tour.t :=
  List.find (λ t, String.eqb (Tour._id t) (TourAnalytics.tourId r)) (tours db).

(** The records of a tour, oldest first, and their entries in scan order. *)
Definition tourRecords (tourId : string) (db : Db) : list TourAnalytics.t :=
  filter (λ d, TourAnalytics.tourId d = tourId) (tourAnalytics db).

Definition tourEntries (tourId : string) (db : Db) : list StepProgress.t :=
  concat (map TourAnalytics.stepProgress (tourRecords tourId db)).

(** The steps of a tour in creation order, and in the order of the index
    [by_tourId_order]. *)
Definition stepsOf (tourId : Id) (db : Db) : list Step.t :=
  List.filter (λ s, String.eqb (Step.tourId s) tourId) (steps db).

Definition indexOrder (tourId : Id) (db : Db) : list Step.t :=
  Table.sort_by_order (stepsOf tourId db).

Definition order_le (a b : Step.t) : Prop := Step.order a ≤ Step.order b.

(** What the renumbering loop, started at [i] on [remainingSteps], makes of
    a step document. *)
Fixpoint renumbered (i : nat) (remainingSteps : list Step.t) (s : Step.t) : Step.t :=
  match remainingSteps with
  | [] => s
  | r :: rest =>
      if String.eqb (Step._id s) (Step._id r)
      then Step.set_order (Z.of_nat i + 1) s
      else renumbered (S i) rest s
  end.

(** The distinct elements of a list, each at its first occurrence. *)
Fixpoint firstSeen (l : list string) : list string :=
  match l with
  | [] => []
  | k :: l' => k :: List.filter (λ k', negb (String.eqb k' k)) (firstSeen l')
  end.

(** The dictionary that holds [f k] under each key of [ks], in that order. *)
Definition tabulate {V} (f : string → V) (ks : list string) : list (string * V) :=
  map (λ k, (k, f k)) ks.

(** Array-index property names compare by their numeric value. *)
Definition index_lt (a b : string) : Prop :=
  match JsObject.array_index a, JsObject.array_index b with
  | Some m, Some n => (m < n)%N
  | _, _ => False
  end.

(** The counters of a step after one more of its entries has been scanned. *)
Definition bump (e : StepProgress.t) (c : StepCount.t) : StepCount.t :=
  StepCount.mk (StepCount.started c + 1)
    (StepCount.completed c + if Js.truthy (StepProgress.completedAt e) then 1 else 0).

Definition truthyCount (k : string) (es : list StepProgress.t) : nat :=
  length (List.filter (λ e, String.eqb (StepProgress.stepId e) k &&
                            Js.truthy (StepProgress.completedAt e)) es).

Definition startedCount (k : string) (es : list StepProgress.t) : nat :=
  length (List.filter (λ e, String.eqb (StepProgress.stepId e) k) es).

Definition completedCount (k : string) (es : list StepProgress.t) : nat :=
  length (List.filter (λ e, String.eqb (StepProgress.stepId e) k &&
                            bool_decide (is_Some (StepProgress.completedAt e))) es).

(** *** Calendar days *)

(** A local calendar day: year, month index (from 0) and day of the month. *)
Definition Day : Type := Z * Z * Z.

Definition day_lt (a b : Day) : Prop :=
  a.1.1 < b.1.1 ∨
  (a.1.1 = b.1.1 ∧ (a.1.2 < b.1.2 ∨ (a.1.2 = b.1.2 ∧ a.2 < b.2))).

Definition day_le (a b : Day) : Prop := day_lt a b ∨ a = b.

#[global] Instance day_lt_dec (a b : Day) : Decision (day_lt a b).
Proof. unfold day_lt. apply _. Defined.

#[global] Instance day_le_dec (a b : Day) : Decision (day_le a b).
Proof. unfold day_le. apply _. Defined.

(** The day key of a calendar day, as the template literal prints it. *)
Definition formatDay (d : Day) : string :=
  pretty d.1.1 +:+ "-" +:+ pretty (d.1.2 + 1) +:+ "-" +:+ pretty d.2.

Fixpoint all_digits (s : string) : bool :=
  match s with
  | EmptyString => true
  | String a s' =>
      match JsObject.digit a with
      | Some _ => all_digits s'
      | None => false
      end
  end.

(** The window [getOwnerAnalyticsSummary] reads: the 50 most recently
    created records of the whole store, newest first. *)
Definition window (db : Db) : list TourAnalytics.t :=
  take 50 (reverse (tourAnalytics db)).

Section Days.

Variables getFullYear getMonth getDate : Z → Z.

Definition localDay (r : TourAnalytics.t) : Day :=
  (getFullYear (TourAnalytics.startedAt r),
   getMonth (TourAnalytics.startedAt r),
   getDate (TourAnalytics.startedAt r)).

Definition keyOf (r : TourAnalytics.t) : string :=
  dayKey getFullYear getMonth getDate (TourAnalytics.startedAt r).

(** The number of records of [recs] whose day key is [k]. *)
Definition startedOn (k : string) (recs : list TourAnalytics.t) : nat :=
  length (List.filter (λ r, String.eqb (keyOf r) k) recs).

(** The number of records of [recs] started on the calendar day [d]. *)
Definition startedOnDay (d : Day) (recs : list TourAnalytics.t) : nat :=
  length (List.filter (λ r, bool_decide (localDay r = d)) recs).

(** The first record of each day key. *)
Fixpoint firstOfDay (recs : list TourAnalytics.t) : list TourAnalytics.t :=
  match recs with
  | [] => []
  | r :: rest =>
      r :: List.filter (λ r', negb (String.eqb (keyOf r') (keyOf r))) (firstOfDay rest)
  end.

(** Records created later were not started on an earlier day. *)
Definition newest_first (recs : list TourAnalytics.t) : Prop :=
  StronglySorted (λ a b, day_le (localDay b) (localDay a)) recs.

(** The local calendar day of an instant. *)
Definition dayAt (t : Z) : Day := (getFullYear t, getMonth t, getDate t).

(** Over the clock readings of the calls the local calendar does not go
    back: a call made at a later reading is not on an earlier day. *)
Definition calendar_follows_clock (cs : list Call) : Prop :=
  Forall (λ c, Forall (λ c', call_time c ≤ call_time c' →
                             day_le (dayAt (call_time c)) (dayAt (call_time c')))
                      cs)
         cs.

End Days.

(** The calendar fields of [Date] in a UTC time zone. *)
Module Utc.

Definition civil (t : Z) : Day :=
  let z := t / 86400000 + 719468 in
  let era := z / 146097 in
  let doe := z - era * 146097 in
  let yoe := (doe - doe / 1460 + doe / 36524 - doe / 146096) / 365 in
  let doy := doe - (365 * yoe + yoe / 4 - yoe / 100) in
  let mp := (5 * doy + 2) / 153 in
  let m := if mp <? 10 then mp + 3 else mp - 9 in
  (yoe + era * 400 + (if m <=? 2 then 1 else 0), m - 1, doy - (153 * mp + 2) / 5 + 1).

Definition getFullYear (t : Z) : Z := (civil t).1.1.
Definition getMonth (t : Z) : Z := (civil t).1.2.
Definition getDate (t : Z) : Z := (civil t).2.

End Utc.

(** ** Vocabulary of the further properties *)

(** The fields of a record no handler writes. *)
Definition same_attempt (r r' : TourAnalytics.t) : Prop :=
  TourAnalytics._id r' = TourAnalytics._id r ∧
  TourAnalytics._creationTime r' = TourAnalytics._creationTime r ∧
  TourAnalytics.tourId r' = TourAnalytics.tourId r ∧
  TourAnalytics.userId r' = TourAnalytics.userId r ∧
  TourAnalytics.startedAt r' = TourAnalytics.startedAt r.

(** [db.patch(id, fields)] on the table itself. *)
Definition patched (id : Id) (fields : TourAnalytics.t → TourAnalytics.t)
    (table : list TourAnalytics.t) : list TourAnalytics.t :=
  map (λ d, if Store.has_id id d then fields d else d) table.

(** What a mutation that patches the record under [id] with fields
    computed from that record leaves behind. *)
Definition applied (id : Id)
    (fields : TourAnalytics.t → TourAnalytics.t → TourAnalytics.t) (db : Db) : Db :=
  match record id db with
  | Some r => mkDb (patched id (fields r) (tourAnalytics db)) (tours db) (steps db)
  | None => db
  end.

(** Every entry of every record counts as completed. *)
Definition entries_truthy (db : Db) : Prop :=
  Forall (λ r, Forall (λ e, Js.truthy (StepProgress.completedAt e) = true)
                      (TourAnalytics.stepProgress r))
         (tourAnalytics db).

(** The entries whose step identifier [Object.prototype] does not shadow. *)
Definition reportable (es : list StepProgress.t) : list StepProgress.t :=
  List.filter (λ e, negb (JsObject.inherited (StepProgress.stepId e))) es.

(** The activity [getRecentActivity] shows for a record. *)
Definition shown (validId : string → bool) (elsewhere : Id → option (option string))
    (db : Db) (r : TourAnalytics.t) (a : Activity.t) : Prop :=
  Activity.id a = TourAnalytics._id r ∧
  Activity.timestamp a = TourAnalytics._creationTime r ∧
  Activity.user a =
    (if decide (TourAnalytics.userId r = "") then "Anonymous" else TourAnalytics.userId r) ∧
  Activity.action a =
    (if Js.truthy (TourAnalytics.completedAt r) then "completed" else "started") ∧
  Activity.target a =
    (if validId (TourAnalytics.tourId r)
     then default "Unknown Tour"
            (Table.lookup elsewhere (TourAnalytics.tourId r) db ≫= doc_name)
     else "Unknown Tour").

(** No timestamp of the record or of its entries lies before the moment
    the thing it belongs to started, and none lies after [t]. *)
Definition timely (t : Z) (r : TourAnalytics.t) : Prop :=
  TourAnalytics.startedAt r ≤ t ∧
  (∀ c, TourAnalytics.completedAt r = Some c → TourAnalytics.startedAt r ≤ c ≤ t) ∧
  (∀ c, TourAnalytics.abandonedAt r = Some c → TourAnalytics.startedAt r ≤ c ≤ t) ∧
  Forall (λ e, ∃ c, StepProgress.completedAt e = Some c ∧
                    StepProgress.startedAt e ≤ c ≤ t)
         (TourAnalytics.stepProgress r).

(** The clock never runs backwards from one call to the next. *)
Definition monotone_clock (cs : list Call) : Prop :=
  StronglySorted Z.le (map call_time cs).

(** Whether [deleteStep] goes through for a caller. *)
Definition may_delete (identity : option Identity.t) (id : Id) (db : Db) : Prop :=
  ∃ i step tour,
    identity = Some i ∧
    List.find (λ s, String.eqb (Step._id s) id) (steps db) = Some step ∧
    List.find (λ t, String.eqb (Tour._id t) (Step.tourId step)) (tours db) = Some tour ∧
    Tour.userId tour = Some (Identity.subject i).

(** ** Tour configurations *)

(** The handlers of the tour configurations ([listTours], [getTour],
    [createTour], [updateTour], [deleteTour]) work on the documents of
    table [tours] in full.  The table is explicit state, in creation
    order; a handler maps it to its result, or the exception it throws,
    and the table it leaves. *)

Inductive TourType := ecommerce | saas | custom_tour.

Inductive TourStatus := draft | active.

Inductive Position := top | bottom | left | right.

Module TourStep.
Record t := mk {
  id : string;
  title : string;
  content : string;
  position : Position;
  targetElement : option string;
}.
End TourStep.

Module TourDoc.
Record t := mk {
  _id : Id;
  _creationTime : Z;
  name : string;
  type : TourType;
  status : TourStatus;
  steps : list TourStep.t;
  ownerId : string;
  createdAt : Z;
  updatedAt : Z;
}.

(** What the analytics handlers read of the document. *)
Definition view (d : t) : Tour.t :=
  Tour.mk (_id d) (Some (name d)) (Some (ownerId d)) None
          (Some (map TourStep.id (steps d))).
End TourDoc.

Module Tours.

Definition Table := list TourDoc.t.

Definition T (A : Type) : Type := Table → (Exn + A) * Table.

Definition find (id : Id) (ts : Table) : option TourDoc.t :=
  List.find (λ d, String.eqb (TourDoc._id d) id) ts.

Definition listTours (ownerId : string) : T (list TourDoc.t) :=
  λ ts, (inr (List.filter (λ d, String.eqb (TourDoc.ownerId d) ownerId) ts), ts).

Definition getTour (id : Id) : T (option TourDoc.t) :=
  λ ts, (inr (find id ts), ts).

Definition createTour (name : string) (type : TourType) (status : TourStatus)
    (steps : list TourStep.t) (ownerId : string)
    (now : Z) (newId : Id) (created : Z) : T Id :=
  λ ts,
    (inr newId,
     ts ++ [TourDoc.mk newId created name type status steps ownerId now now]).

(** [ctx.db.patch] of the five fields [updateTour] writes. *)
Definition patch (name : string) (type : TourType) (status : TourStatus)
    (steps : list TourStep.t) (now : Z) (d : TourDoc.t) : TourDoc.t :=
  TourDoc.mk (TourDoc._id d) (TourDoc._creationTime d) name type status steps
             (TourDoc.ownerId d) (TourDoc.createdAt d) now.

Definition updateTour (id : Id) (name : string) (type : TourType)
    (status : TourStatus) (steps : list TourStep.t) (now : Z) : T Id :=
  λ ts,
    match find id ts with
    | Some _ =>
        (inr id,
         map (λ d, if String.eqb (TourDoc._id d) id
                   then patch name type status steps now d else d) ts)
    | None => (inl (NonexistentDocument id), ts)
    end.

Definition deleteTour (id : Id) : T Id :=
  λ ts,
    match find id ts with
    | Some _ =>
        (inr id, List.filter (λ d, negb (String.eqb (TourDoc._id d) id)) ts)
    | None => (inl (NonexistentDocument id), ts)
    end.

(** The store whose table [tours] is [ts]. *)
Definition install (ts : Table) (db : Db) : Db :=
  mkDb (tourAnalytics db) (map TourDoc.view ts) (steps db).

End Tours.

(** ** The tour widget *)

(** The navigation of the [Widget] component: its state, the click
    handlers [handleNext], [handleBack], [handleSkip], [handleComplete],
    and the callbacks they invoke.  The component is a function of its
    props and state; a click runs the handler of the render it was made
    on, and the next click is made on the next render.  What the
    component keeps in [localStorage] is not part of the model: the step
    restored on mount is the [currentStepIndex] of the state the clicks
    start from. *)

Module WidgetStep.
Record t := mk {
  id : string;
  title : string;
  content : string;
  targetElement : option string;
  position : option Position;
}.
End WidgetStep.

Module Widget.

(** An invocation of one of the callback props. *)
Inductive Callback :=
| onStepComplete (stepId : string)
| onComplete
| onAbandon.

(** The props: [tours] is [None] when the prop is not given; a callback
    field tells whether that callback is given. *)
Record Props := mkProps {
  tours : option (list WidgetStep.t);
  has_onStepComplete : bool;
  has_onComplete : bool;
  has_onAbandon : bool;
}.

Record State := mkState {
  isOpen : bool;
  currentStepIndex : Z;
  isVisible : bool;
}.

Definition initial : State := mkState true 0 true.

Definition defaultSteps : list WidgetStep.t :=
  [WidgetStep.mk "1" "Welcome" "Welcome to our platform! Le me show you around." None None;
   WidgetStep.mk "2" "Features" "Here are the key features you can use." None None;
   WidgetStep.mk "3" "Dashboard" "Track your progress in the dashboard." None None;
   WidgetStep.mk "4" "Settings" "Configure your account settings here." None None;
   WidgetStep.mk "5" "Get Started" "You are all set! Click here to begin." None None].

(** [tours?.steps || defaultSteps]: an array, even an empty one, is truthy. *)
Definition steps (props : Props) : list WidgetStep.t :=
  match tours props with
  | Some steps => steps
  | None => defaultSteps
  end.

(** [steps[currentStepIndex]], [undefined] out of range. *)
Definition currentStep (props : Props) (st : State) : option WidgetStep.t :=
  if currentStepIndex st <? 0 then None
  else steps props !! Z.to_nat (currentStepIndex st).

(** [callback?.(...)]: the invocation, if the callback is given. *)
Definition optional_call (given : bool) (c : Callback) : list Callback :=
  if given then [c] else [].

Definition handleComplete (props : Props) (st : State) : State * list Callback :=
  (mkState (isOpen st) (currentStepIndex st) false,
   optional_call (has_onComplete props) onComplete).

Definition handleSkip (props : Props) (st : State) : State * list Callback :=
  (mkState (isOpen st) (currentStepIndex st) false,
   optional_call (has_onAbandon props) onAbandon).

(** [step] is the [currentStep] of the render the handler belongs to. *)
Definition handleNext (props : Props) (st : State) (step : WidgetStep.t) :
    State * list Callback :=
  if currentStepIndex st <? Z.of_nat (length (steps props)) - 1 then
    (mkState (isOpen st) (currentStepIndex st + 1) (isVisible st),
     optional_call (has_onStepComplete props) (onStepComplete (WidgetStep.id step)))
  else handleComplete props st.

Definition handleBack (st : State) : State * list Callback :=
  if 0 <? currentStepIndex st then
    (mkState (isOpen st) (currentStepIndex st - 1) (isVisible st), [])
  else (st, []).

(** What can be clicked: the avatar, and in the popover card the close
    button and the three navigation buttons. *)
Inductive Button := Avatar | Close | Skip | Back | Next.

(** A click on a button of the current render: [None] when the render
    does not show the button.  An invisible widget renders nothing; the
    card is rendered when the widget is open, and rendering it reads
    [currentStep.title], which throws when there is no current step. *)
Definition click (props : Props) (b : Button) (st : State) :
    option (State * list Callback) :=
  if negb (isVisible st) then None
  else
    match currentStep props st, isOpen st, b with
    | None, true, _ => None
    | _, _, Avatar =>
        Some (mkState (negb (isOpen st)) (currentStepIndex st) (isVisible st), [])
    | Some step, true, Close =>
        Some (mkState false (currentStepIndex st) (isVisible st), [])
    | Some step, true, Skip => Some (handleSkip props st)
    | Some step, true, Back => Some (handleBack st)
    | Some step, true, Next => Some (handleNext props st step)
    | _, false, _ => None
    end.

(** A sequence of clicks; a click on a button that is not shown does
    nothing.  The result is the final state and the callback
    invocations, in order. *)
Fixpoint play (props : Props) (bs : list Button) (st : State) :
    State * list Callback :=
  match bs with
  | [] => (st, [])
  | b :: bs' =>
      match click props b st with
      | Some (st', calls) =>
          let (st'', calls') := play props bs' st' in (st'', calls ++ calls')
      | None => play props bs' st
      end
  end.

(** The index points at a step. *)
Definition in_range (props : Props) (st : State) : Prop :=
  0 ≤ currentStepIndex st < Z.of_nat (length (steps props)).

Definition terminal (c : Callback) : bool :=
  match c with
  | onStepComplete _ => false
  | onComplete | onAbandon => true
  end.

(** The steps reported as completed by a trace. *)
Definition reported (calls : list Callback) : list string :=
  omap (λ c, match c with onStepComplete s => Some s | _ => None end) calls.

End Widget.

(** ** Users and their activity log *)

(** The handlers of [users.ts] and [signIn] of [auth.ts] work on the
    tables [users] and [activityLog], in the shape the schema gives them.
    A handler that reads the clock more than once takes [now], the
    successive readings of [Date.now()] in evaluation order; [nano] is
    the string [nanoid(32)] returns. *)

Inductive Plan := free | pro | enterprise.

Module UserDoc.
Record t := mk {
  _id : Id;
  _creationTime : Z;
  email : string;
  name : string;
  authId : string;
  avatarUrl : option string;
  plan : Plan;
  apiKey : string;
  createdAt : Z;
  updatedAt : Z;
}.
End UserDoc.

Module LogEntry.
Record t := mk {
  _id : Id;
  _creationTime : Z;
  userId : Id;
  action : string;
  entityType : string;
  entityId : option string;
  timestamp : Z;
}.
End LogEntry.

Record UsersDb := mkUsersDb {
  users : list UserDoc.t;
  activityLog : list LogEntry.t;
}.

Module Users.

Definition U (A : Type) : Type := UsersDb → (Exn + A) * UsersDb.

(** [ctx.db.get(id)] on table [users]. *)
Definition find (id : Id) (db : UsersDb) : option UserDoc.t :=
  List.find (λ u, String.eqb (UserDoc._id u) id) (users db).

(** [.withIndex("by_authId", q => q.eq("authId", authId)).first()] *)
Definition first_by_authId (authId : string) (db : UsersDb) : option UserDoc.t :=
  List.find (λ u, String.eqb (UserDoc.authId u) authId) (users db).

(** [.withIndex("by_apiKey", q => q.eq("apiKey", apiKey)).first()] *)
Definition first_by_apiKey (apiKey : string) (db : UsersDb) : option UserDoc.t :=
  List.find (λ u, String.eqb (UserDoc.apiKey u) apiKey) (users db).

(** [.withIndex('by_email', q => q.eq('email', email)).collect()] *)
Definition by_email (email : string) (db : UsersDb) : list UserDoc.t :=
  List.filter (λ u, String.eqb (UserDoc.email u) email) (users db).

(** [ctx.db.patch(id, fields)] on table [users]; it throws when there is
    no document [id]. *)
Definition patch (id : Id) (fields : UserDoc.t → UserDoc.t) : U unit :=
  λ db,
    match find id db with
    | Some _ =>
        (inr (),
         mkUsersDb (map (λ u, if String.eqb (UserDoc._id u) id then fields u else u)
                        (users db))
                   (activityLog db))
    | None => (inl (NonexistentDocument id), db)
    end.

Definition insert_user (u : UserDoc.t) (db : UsersDb) : UsersDb :=
  mkUsersDb (users db ++ [u]) (activityLog db).

Definition insert_log (e : LogEntry.t) (db : UsersDb) : UsersDb :=
  mkUsersDb (users db) (activityLog db ++ [e]).

(** Identifiers and creation times the store picks for the documents a
    handler inserts. *)
Record Fresh := mkFresh {
  userId : Id;
  userCreated : Z;
  logId : Id;
  logCreated : Z;
}.

Definition upsertUser (authId email name : string) (avatarUrl : option string)
    (now : nat → Z) (nano : string) (fresh : Fresh) : U Id :=
  λ db,
    match first_by_authId authId db with
    | Some existingUser =>
        match
          patch (UserDoc._id existingUser)
            (λ u, UserDoc.mk (UserDoc._id u) (UserDoc._creationTime u) email name
                    (UserDoc.authId u) avatarUrl (UserDoc.plan u) (UserDoc.apiKey u)
                    (UserDoc.createdAt u) (now 0%nat)) db
        with
        | (inr _, db') => (inr (UserDoc._id existingUser), db')
        | (inl e, db') => (inl e, db')
        end
    | None =>
        let apiKey := ("pk_live_" ++ nano)%string in
        let db1 :=
          insert_user
            (UserDoc.mk (userId fresh) (userCreated fresh) email name authId avatarUrl
               free apiKey (now 0%nat) (now 1%nat)) db in
        let db2 :=
          insert_log
            (LogEntry.mk (logId fresh) (logCreated fresh) (userId fresh)
               "user_created" "user" (Some (userId fresh)) (now 2%nat)) db1 in
        (inr (userId fresh), db2)
    end.

Definition getUserByAuthId (authId : string) : U (option UserDoc.t) :=
  λ db, (inr (first_by_authId authId db), db).

Definition getUserByApiKey (apiKey : string) : U (option UserDoc.t) :=
  λ db, (inr (first_by_apiKey apiKey db), db).

(** [name] and [avatarUrl] are [None] when the argument is not given:
    the rest object [updates] then has no such key, and the patch leaves
    the field alone. *)
Definition updateUserProfile (userId : Id) (name avatarUrl : option string)
    (now : nat → Z) (logId : Id) (logCreated : Z) : U Id :=
  λ db,
    match
      patch userId
        (λ u, UserDoc.mk (UserDoc._id u) (UserDoc._creationTime u) (UserDoc.email u)
                (default (UserDoc.name u) name) (UserDoc.authId u)
                (match avatarUrl with
                 | Some a => Some a
                 | None => UserDoc.avatarUrl u
                 end)
                (UserDoc.plan u) (UserDoc.apiKey u) (UserDoc.createdAt u) (now 0%nat)) db
    with
    | (inr _, db1) =>
        (inr userId,
         insert_log
           (LogEntry.mk logId logCreated userId "profile_updated" "user" (Some userId)
              (now 1%nat)) db1)
    | (inl e, db1) => (inl e, db1)
    end.

Definition regenerateApiKey (userId : Id) (now : nat → Z) (nano : string)
    (logId : Id) (logCreated : Z) : U string :=
  λ db,
    let newApiKey := ("pk_live_" ++ nano)%string in
    match
      patch userId
        (λ u, UserDoc.mk (UserDoc._id u) (UserDoc._creationTime u) (UserDoc.email u)
                (UserDoc.name u) (UserDoc.authId u) (UserDoc.avatarUrl u)
                (UserDoc.plan u) newApiKey (UserDoc.createdAt u) (now 0%nat)) db
    with
    | (inr _, db1) =>
        (inr newApiKey,
         insert_log
           (LogEntry.mk logId logCreated userId "api_key_regenerated" "user"
              (Some userId) (now 1%nat)) db1)
    | (inl e, db1) => (inl e, db1)
    end.


(** [signIn] of [auth.ts]. *)
Definition signIn (email : string) : U Id :=
  λ db,
    match by_email email db with
    | [] => (inl (Error "Invalid email or password"), db)
    | user :: _ => (inr (UserDoc._id user), db)
    end.

End Users.

(** ** Sample stores *)

(** Two attempts at tour ["T"]: the first resumed at step ["3"] and went
    back to step ["2"]; the second left step ["3"] uncompleted. *)
Definition resumed_tour : Db :=
  mkDb [TourAnalytics.mk "a1" 1000 "T" "u1" 1000 None None
          [StepProgress.mk "3" 1010 (Some 1010); StepProgress.mk "2" 1020 (Some 1020)];
        TourAnalytics.mk "a2" 2000 "T" "u2" 2000 None None
          [StepProgress.mk "3" 2010 None; StepProgress.mk "intro" 2020 (Some 2020)]]
       [] [].


(** Nine days of traffic, one attempt every twelve hours from
    2024-10-28T00:00Z on. *)
Definition two_a_day : Db :=
  mkDb (map (λ n, TourAnalytics.mk (pretty n) (1730073600000 + Z.of_nat n * 43200000)
                    "T" "u" (1730073600000 + Z.of_nat n * 43200000) None None [])
            (seq 0 18))
       [] [].


(** The calls that build [two_a_day]. *)
Definition two_a_day_calls : list Call :=
  map (λ n, StartTour "T" "u" (1730073600000 + Z.of_nat n * 43200000) (pretty n)
              (1730073600000 + Z.of_nat n * 43200000))
      (seq 0 18).

(** A tour of five steps owned by ["alice"]. *)
Definition five_steps : Db :=
  mkDb []
       [Tour.mk "t1" (Some "Onboarding") None (Some "alice") None]
       (map (λ n, Step.mk ("s" +:+ pretty n) "t1" ("step-" +:+ pretty n) (Z.of_nat n))
            (seq 1 5)).


Definition demo_calls : list Call :=
  [StartTour "demo_tour" "u1" 1000 "a1" 1000; CompleteStep "a1" "1" 1010].

Definition demo_db : Db := exec demo_calls emptyDb.

Definition demo_record : TourAnalytics.t :=
  TourAnalytics.mk "a1" 1000 "demo_tour" "u1" 1000 None None
    [StepProgress.mk "1" 1010 (Some 1010)].

(** Ten attempts at tour ["T"], four of them completed. *)
Definition attempt (n : nat) (completedAt : option Z) : TourAnalytics.t :=
  TourAnalytics.mk (pretty n) (Z.of_nat n) "T" "u" (Z.of_nat n) completedAt None [].

Definition ten_attempts : Db :=
  mkDb (map (λ n, attempt n (if (n <? 4)%nat then Some 5000 else None)) (seq 0 10))
       [] [].

(** * Properties *)

(** ** First occurrences *)

Lemma firstSeen_elem (l : list string) (k : string) : k ∈ firstSeen l ↔ k ∈ l.
Proof.
  induction l as [|x l IH]; simpl; [done|].
  rewrite !elem_of_cons, <- IH. split.
  - intros [?|Hk]; [by left|]. apply list_elem_of_In, filter_In in Hk as [Hk _].
    right. by apply list_elem_of_In.
  - intros [?|Hk]; [by left|].
    destruct (decide (k = x)) as [?|Hne]; [by left|right].
    apply list_elem_of_In, filter_In. split; [by apply list_elem_of_In|].
    apply negb_true_iff. by apply String.eqb_neq.
Qed.

Lemma NoDup_List_filter {A} (p : A → bool) (l : list A) :
  NoDup l → NoDup (List.filter p l).
Proof.
  induction 1 as [|x l Hx Hl IH]; simpl; [constructor|].
  destruct (p x); [|done]. constructor; [|done].
  intros Hin. apply Hx. apply list_elem_of_In, filter_In in Hin as [Hin _].
  by apply list_elem_of_In.
Qed.

Lemma firstSeen_NoDup (l : list string) : NoDup (firstSeen l).
Proof.
  induction l as [|x l IH]; simpl; constructor.
  - intros Hin. apply list_elem_of_In, filter_In in Hin as [_ Hx].
    by rewrite String.eqb_refl in Hx.
  - by apply NoDup_List_filter.
Qed.

Lemma filter_snoc {A} (p : A → bool) (l : list A) (x : A) :
  List.filter p (l ++ [x]) = List.filter p l ++ (if p x then [x] else []).
Proof. by rewrite List.filter_app. Qed.

Lemma firstSeen_snoc (l : list string) (k : string) :
  firstSeen (l ++ [k]) = if decide (k ∈ l) then firstSeen l else firstSeen l ++ [k].
Proof.
  induction l as [|x l IH]; simpl.
  - destruct (decide (k ∈ [])) as [Hin|]; [by apply elem_of_nil in Hin|done].
  - rewrite IH. destruct (decide (k ∈ l)) as [Hin|Hnot].
    + rewrite decide_True by by right. done.
    + destruct (decide (k = x)) as [->|Hne].
      * rewrite decide_True by by left. rewrite filter_snoc, String.eqb_refl. simpl.
        by rewrite app_nil_r.
      * rewrite decide_False by (intros [?|?]%elem_of_cons; done).
        rewrite filter_snoc. rewrite (proj2 (String.eqb_neq k x) Hne). done.
Qed.

Lemma firstSeen_id (l : list string) : NoDup l → firstSeen l = l.
Proof.
  induction 1 as [|k l Hk Hl IH]; simpl; [done|]. rewrite IH. f_equal.
  clear IH Hl. induction l as [|x l IH]; simpl; [done|].
  destruct (String.eqb_spec x k) as [->|Hne]; simpl.
  - exfalso. apply Hk. by left.
  - f_equal. apply IH. intros Hin. apply Hk. by right.
Qed.

(** ** [findIndex] *)

Lemma findIndex_range {A} (p : A → bool) (l : list A) :
  Js.findIndex p l = -1 ∨ 0 ≤ Js.findIndex p l < Z.of_nat (length l).
Proof.
  induction l as [|x l IH]; simpl; [by left|].
  destruct (p x); [right; lia|].
  destruct (Z.ltb_spec (Js.findIndex p l) 0); [by left|right; lia].
Qed.

Lemma findIndex_none {A} (p : A → bool) (l : list A) :
  Js.findIndex p l < 0 ↔ ∀ x, x ∈ l → p x = false.
Proof.
  induction l as [|x l IH]; simpl.
  - split; [intros _ y Hy; by apply elem_of_nil in Hy|lia].
  - destruct (p x) eqn:Hx.
    + split; [lia|]. intros Hall. specialize (Hall x (list_elem_of_here _ _)). congruence.
    + destruct (Z.ltb_spec (Js.findIndex p l) 0) as [Hlt|Hge].
      * split; [|lia]. intros _ y Hy. apply elem_of_cons in Hy as [->|Hy]; [done|].
        by apply IH.
      * pose proof (findIndex_range p l). split; [lia|].
        intros Hall. exfalso.
        assert (Js.findIndex p l < 0) as Hneg; [|lia].
        apply IH. intros y Hy. apply Hall. by right.
Qed.

Lemma findIndex_found {A} (p : A → bool) (l : list A) :
  0 ≤ Js.findIndex p l →
  ∃ e, l !! Z.to_nat (Js.findIndex p l) = Some e ∧ p e = true ∧
       ∀ j e', (j < Z.to_nat (Js.findIndex p l))%nat → l !! j = Some e' → p e' = false.
Proof.
  induction l as [|x l IH]; simpl; [lia|].
  destruct (p x) eqn:Hx.
  - intros _. exists x. repeat split; [done|]. intros j e' Hj. simpl in Hj. lia.
  - destruct (Z.ltb_spec (Js.findIndex p l) 0) as [Hlt|Hge]; [lia|].
    intros _. destruct (IH Hge) as (e & Hl & He & Hbefore).
    exists e. replace (Z.to_nat (Js.findIndex p l + 1)) with (S (Z.to_nat (Js.findIndex p l))) by lia.
    repeat split; [done..|].
    intros [|j] e' Hj Hl'; simpl in Hl'; [congruence|].
    apply (Hbefore j); [lia|done].
Qed.

(** ** [updateProgress] *)

Lemma stepId_eqb_false (sp : list StepProgress.t) (s : string) :
  s ∉ map StepProgress.stepId sp →
  ∀ x, x ∈ sp → String.eqb (StepProgress.stepId x) s = false.
Proof.
  intros Hnot x Hx. apply String.eqb_neq. intros <-.
  apply Hnot, list_elem_of_fmap. by exists x.
Qed.

Lemma updateProgress_new (sp : list StepProgress.t) (s : string) (now : Z) :
  s ∉ map StepProgress.stepId sp →
  updateProgress sp s now = sp ++ [StepProgress.mk s now (Some now)].
Proof.
  intros Hnot. unfold updateProgress.
  assert (Js.findIndex (λ step, String.eqb (StepProgress.stepId step) s) sp < 0) as Hneg.
  { apply findIndex_none. by apply stepId_eqb_false. }
  destruct (Z.leb_spec 0 (Js.findIndex (λ step, String.eqb (StepProgress.stepId step) s) sp));
    [lia|done].
Qed.

Lemma updateProgress_found (sp : list StepProgress.t) (s : string) (now : Z) :
  s ∈ map StepProgress.stepId sp →
  ∃ i e, sp !! i = Some e ∧ StepProgress.stepId e = s ∧
         (∀ j e', (j < i)%nat → sp !! j = Some e' → StepProgress.stepId e' ≠ s) ∧
         updateProgress sp s now = <[i := StepProgress.with_completedAt now e]> sp.
Proof.
  intros Hin. unfold updateProgress.
  set (p := λ step, String.eqb (StepProgress.stepId step) s).
  assert (0 ≤ Js.findIndex p sp) as Hge.
  { destruct (Z.lt_ge_cases (Js.findIndex p sp) 0) as [Hlt|]; [|done].
    exfalso. apply list_elem_of_fmap in Hin as (x & -> & Hx).
    pose proof (proj1 (findIndex_none p sp) Hlt x Hx) as Hf.
    unfold p in Hf. by rewrite String.eqb_refl in Hf. }
  destruct (findIndex_found p sp Hge) as (e & Hl & He & Hbefore).
  exists (Z.to_nat (Js.findIndex p sp)), e.
  destruct (Z.leb_spec 0 (Js.findIndex p sp)); [|lia].
  rewrite Hl. split; [done|]. split; [by apply String.eqb_eq|]. split; [|done].
  intros j e' Hj Hl'. specialize (Hbefore j e' Hj Hl').
  by apply String.eqb_neq.
Qed.

Lemma stepIds_updateProgress (sp : list StepProgress.t) (s : string) (now : Z) :
  map StepProgress.stepId (updateProgress sp s now) =
  if decide (s ∈ map StepProgress.stepId sp)
  then map StepProgress.stepId sp
  else map StepProgress.stepId sp ++ [s].
Proof.
  destruct (decide _) as [Hin|Hnot].
  - destruct (updateProgress_found sp s now Hin) as (i & e & Hl & He & _ & ->).
    rewrite list_fmap_insert. apply list_insert_id.
    rewrite list_lookup_fmap, Hl. done.
  - rewrite updateProgress_new by done. by rewrite map_app.
Qed.

Lemma NoDup_updateProgress (sp : list StepProgress.t) (s : string) (now : Z) :
  NoDup (map StepProgress.stepId sp) →
  NoDup (map StepProgress.stepId (updateProgress sp s now)).
Proof.
  intros Hnd. rewrite stepIds_updateProgress.
  destruct (decide _) as [Hin|Hnot]; [done|].
  apply NoDup_app. split; [done|]. split; [|apply NoDup_singleton].
  intros x Hx Hx'. apply list_elem_of_singleton in Hx'. by subst.
Qed.

(** ** The store *)

Lemma find_patch_same (id : Id) (f : TourAnalytics.t → TourAnalytics.t)
    (l : list TourAnalytics.t) :
  (∀ d, TourAnalytics._id (f d) = TourAnalytics._id d) →
  List.find (Store.has_id id) (map (λ d, if Store.has_id id d then f d else d) l) =
  f <$> List.find (Store.has_id id) l.
Proof.
  intros Hf. induction l as [|d l IH]; simpl; [done|].
  destruct (Store.has_id id d) eqn:Hd.
  - unfold Store.has_id in *. by rewrite Hf, Hd.
  - by rewrite Hd.
Qed.

Lemma find_patch_other (id id' : Id) (f : TourAnalytics.t → TourAnalytics.t)
    (l : list TourAnalytics.t) :
  id' ≠ id →
  (∀ d, TourAnalytics._id (f d) = TourAnalytics._id d) →
  List.find (Store.has_id id') (map (λ d, if Store.has_id id d then f d else d) l) =
  List.find (Store.has_id id') l.
Proof.
  intros Hne Hf. induction l as [|d l IH]; simpl; [done|].
  destruct (Store.has_id id d) eqn:Hd.
  - unfold Store.has_id in *. rewrite Hf.
    apply String.eqb_eq in Hd. rewrite Hd.
    destruct (String.eqb_spec id id'); [congruence|done].
  - destruct (Store.has_id id' d); [done|apply IH].
Qed.

(** ** The tracker's handlers, as equations *)

Lemma completeStep_found (db : Db) (id : Id) (s : string) (now : Z)
    (r : TourAnalytics.t) :
  record id db = Some r →
  completeStep id s now db =
  (inr id,
   mkDb (map (λ d, if Store.has_id id d
                   then TourAnalytics.set_stepProgress
                          (updateProgress (TourAnalytics.stepProgress r) s now) d
                   else d) (tourAnalytics db))
        (tours db) (steps db)).
Proof.
  unfold record. intros Hr.
  unfold completeStep, bind, Store.get_tourAnalytics, Store.patch_tourAnalytics, ret.
  by rewrite Hr, Hr.
Qed.

Lemma completeStep_missing (db : Db) (id : Id) (s : string) (now : Z) :
  record id db = None →
  completeStep id s now db = (inl (Error "Analytics record not found"), db).
Proof.
  unfold record. intros Hr.
  unfold completeStep, bind, Store.get_tourAnalytics, throw. by rewrite Hr.
Qed.

Lemma patch_found (db : Db) (id : Id) (f : TourAnalytics.t → TourAnalytics.t)
    (r : TourAnalytics.t) :
  record id db = Some r →
  (Store.patch_tourAnalytics id f ;;; ret id) db =
  (inr id,
   mkDb (map (λ d, if Store.has_id id d then f d else d) (tourAnalytics db))
        (tours db) (steps db)).
Proof.
  unfold record. intros Hr. unfold bind, Store.patch_tourAnalytics, ret.
  by rewrite Hr.
Qed.

Lemma patch_missing (db : Db) (id : Id) (f : TourAnalytics.t → TourAnalytics.t) :
  record id db = None →
  (Store.patch_tourAnalytics id f ;;; ret id) db = (inl (NonexistentDocument id), db).
Proof.
  unfold record. intros Hr. unfold bind, Store.patch_tourAnalytics.
  by rewrite Hr.
Qed.

Lemma record_elem (db : Db) (id : Id) (r : TourAnalytics.t) :
  record id db = Some r → r ∈ tourAnalytics db ∧ TourAnalytics._id r = id.
Proof.
  unfold record. intros Hr. apply find_some in Hr as [Hin Hid].
  split; [by apply list_elem_of_In|]. by apply String.eqb_eq.
Qed.

Lemma record_completeStep (db : Db) (id : Id) (s : string) (now : Z)
    (r : TourAnalytics.t) :
  record id db = Some r →
  record id (commit (completeStep id s now) db) =
  Some (TourAnalytics.set_stepProgress
          (updateProgress (TourAnalytics.stepProgress r) s now) r).
Proof.
  intros Hr. unfold commit. rewrite (completeStep_found _ _ _ _ _ Hr).
  unfold record; simpl. rewrite find_patch_same by done.
  unfold record in Hr. by rewrite Hr.
Qed.

Lemma entries_unique_patch (db : Db) (id : Id)
    (f : TourAnalytics.t → TourAnalytics.t) :
  (∀ d, d ∈ tourAnalytics db → NoDup (stepIds d) → NoDup (stepIds (f d))) →
  entries_unique db →
  entries_unique
    (mkDb (map (λ d, if Store.has_id id d then f d else d) (tourAnalytics db))
          (tours db) (steps db)).
Proof.
  unfold entries_unique; simpl. intros Hf Hall.
  apply Forall_forall. intros d' Hd'.
  apply list_elem_of_fmap in Hd' as (d & -> & Hd).
  pose proof (proj1 (Forall_forall _ _) Hall d Hd) as Hnd.
  destruct (Store.has_id id d); [by apply Hf|done].
Qed.

Lemma entries_unique_run (c : Call) (db : Db) :
  entries_unique db → entries_unique (commit (run c) db).
Proof.
  intros Hinv. destruct c as [t u now newId created|id s now|id now|id now]; simpl.
  - unfold commit, startTour, bind, Store.insert_tourAnalytics, ret; simpl.
    unfold entries_unique; simpl. apply Forall_app. split; [done|].
    apply Forall_singleton. unfold stepIds; simpl. apply NoDup_nil_2.
  - destruct (record id db) as [r|] eqn:Hr.
    + unfold commit. rewrite (completeStep_found _ _ _ _ _ Hr).
      apply entries_unique_patch; [|done]. intros d _ _.
      unfold stepIds; simpl. apply NoDup_updateProgress.
      destruct (record_elem _ _ _ Hr) as [Hin _].
      exact (proj1 (Forall_forall _ _) Hinv r Hin).
    + unfold commit. by rewrite completeStep_missing.
  - unfold commit, completeTour. destruct (record id db) as [r|] eqn:Hr.
    + rewrite (patch_found _ _ _ _ Hr). by apply entries_unique_patch.
    + by rewrite patch_missing.
  - unfold commit, abandonTour. destruct (record id db) as [r|] eqn:Hr.
    + rewrite (patch_found _ _ _ _ Hr). by apply entries_unique_patch.
    + by rewrite patch_missing.
Qed.

Lemma entries_unique_exec (cs : list Call) (db : Db) :
  entries_unique db → entries_unique (exec cs db).
Proof.
  revert db. induction cs as [|c cs IH]; intros db Hinv; [done|].
  apply IH. by apply entries_unique_run.
Qed.

Lemma reachable_entries_unique (db : Db) :
  reachable db → entries_unique db.
Proof.
  intros (cs & _ & ->). apply entries_unique_exec.
  unfold entries_unique; simpl. apply Forall_nil_2.
Qed.

Lemma exec_snoc (cs : list Call) (c : Call) (db : Db) :
  exec (cs ++ [c]) db = commit (run c) (exec cs db).
Proof. unfold exec. by rewrite foldl_snoc. Qed.

Lemma completeSteps_entries (calls : list (string * Z)) (db : Db) (id : Id)
    (r : TourAnalytics.t) :
  record id db = Some r →
  NoDup (stepIds r) →
  ∃ r', record id (exec (completeSteps id calls) db) = Some r' ∧
        stepIds r' = firstSeen (stepIds r ++ calls.*1).
Proof.
  intros Hr Hnd. induction calls as [|[s now] calls IH] using rev_ind.
  - exists r. split; [done|]. by rewrite app_nil_r, firstSeen_id.
  - destruct IH as (r1 & Hr1 & Hids).
    unfold completeSteps. rewrite map_app. cbn [map]. rewrite exec_snoc.
    fold (completeSteps id calls). simpl.
    eexists. split; [by apply record_completeStep|].
    unfold stepIds at 1. simpl. rewrite stepIds_updateProgress.
    fold (stepIds r1). rewrite Hids, fmap_app, app_assoc. simpl.
    rewrite firstSeen_snoc.
    destruct (decide (s ∈ stepIds r ++ calls.*1)) as [Hin|Hnot].
    + by rewrite decide_True by by apply firstSeen_elem.
    + by rewrite decide_False by by rewrite firstSeen_elem.
Qed.

(** C1.  On every record of a reachable store, any finite sequence of
    [completeStep] calls (any step identifiers, any order, repetitions
    allowed) leaves a [stepProgress] collection with exactly one entry per
    distinct step identifier completed so far: the identifiers of the
    entries are those the record had followed by those of the calls, each
    at its first occurrence; so they are pairwise distinct, and an
    identifier has an entry exactly when the record had one or a call
    named it. *)
Theorem completeStep_one_entry_per_step (db : Db) (id : Id)
    (r : TourAnalytics.t) (calls : list (string * Z)) :
  reachable db →
  record id db = Some r →
  ∃ r', record id (exec (completeSteps id calls) db) = Some r' ∧
        stepIds r' = firstSeen (stepIds r ++ calls.*1) ∧
        NoDup (stepIds r') ∧
        ∀ s, s ∈ stepIds r' ↔ s ∈ stepIds r ∨ s ∈ calls.*1.
Proof.
  intros Hreach Hr.
  destruct (completeSteps_entries calls db id r Hr) as (r' & Hr' & Hids).
  { destruct (record_elem _ _ _ Hr) as [Hin _].
    exact (proj1 (Forall_forall _ _) (reachable_entries_unique db Hreach) r Hin). }
  exists r'. split; [done|]. split; [done|]. rewrite Hids.
  split; [apply firstSeen_NoDup|].
  intros s. by rewrite firstSeen_elem, elem_of_app.
Qed.

Lemma completeStep_one_entry_per_step_witness :
  reachable demo_db ∧ record "a1" demo_db = Some demo_record ∧
  ∃ r', record "a1" (exec (completeSteps "a1" [("2", 1020); ("1", 1030); ("2", 1040)])
                          demo_db) = Some r' ∧
        stepIds r' = ["1"; "2"] ∧
        NoDup (stepIds r').
Proof.
  assert (reachable demo_db) as Hreach.
  { exists demo_calls. split; [|reflexivity].
    simpl. split; [apply not_elem_of_nil|done]. }
  assert (record "a1" demo_db = Some demo_record) as Hr by reflexivity.
  split; [exact Hreach|]. split; [exact Hr|].
  destruct (completeStep_one_entry_per_step demo_db "a1" demo_record
              [("2", 1020); ("1", 1030); ("2", 1040)] Hreach Hr)
    as (r' & Hr' & Hids & Hnd & _).
  exists r'. split; [exact Hr'|]. split; [exact Hids|exact Hnd].
Defined.


(** C4.  When the record already has an entry for step [s], calling
    [completeStep] for [s] again succeeds and rewrites the record's
    collection at that entry only: the entry keeps its step identifier and
    its original start timestamp and gets the call time as completion
    timestamp; the collection keeps its length (no duplicate is added) and
    every other entry, and the record keeps its other fields. *)
Theorem completeStep_again_updates_completion_only (db : Db) (id : Id)
    (r : TourAnalytics.t) (s : string) (now : Z) :
  record id db = Some r →
  s ∈ stepIds r →
  ∃ i e sp',
    TourAnalytics.stepProgress r !! i = Some e ∧
    StepProgress.stepId e = s ∧
    completeStep id s now db = (inr id, commit (completeStep id s now) db) ∧
    record id (commit (completeStep id s now) db) =
      Some (TourAnalytics.set_stepProgress sp' r) ∧
    length sp' = length (TourAnalytics.stepProgress r) ∧
    sp' !! i = Some (StepProgress.mk s (StepProgress.startedAt e) (Some now)) ∧
    ∀ j, j ≠ i → sp' !! j = TourAnalytics.stepProgress r !! j.
Proof.
  intros Hr Hs.
  destruct (updateProgress_found _ s now Hs) as (i & e & Hl & He & _ & Hupd).
  exists i, e, (updateProgress (TourAnalytics.stepProgress r) s now).
  split; [done|]. split; [done|].
  split. { unfold commit. by rewrite (completeStep_found _ _ _ _ _ Hr). }
  split; [by apply record_completeStep|].
  rewrite Hupd. split; [apply length_insert|].
  split.
  - rewrite list_lookup_insert_eq by (by eapply lookup_lt_Some).
    unfold StepProgress.with_completedAt. by rewrite He.
  - intros j Hj. by apply list_lookup_insert_ne.
Qed.

Lemma completeStep_again_updates_completion_only_witness :
  record "a1" demo_db = Some demo_record ∧ "1" ∈ stepIds demo_record ∧
  ∃ i e sp',
    TourAnalytics.stepProgress demo_record !! i = Some e ∧
    StepProgress.stepId e = "1" ∧
    completeStep "a1" "1" 1050 demo_db =
      (inr "a1", commit (completeStep "a1" "1" 1050) demo_db) ∧
    record "a1" (commit (completeStep "a1" "1" 1050) demo_db) =
      Some (TourAnalytics.set_stepProgress sp' demo_record) ∧
    length sp' = length (TourAnalytics.stepProgress demo_record) ∧
    sp' !! i = Some (StepProgress.mk "1" (StepProgress.startedAt e) (Some 1050)) ∧
    ∀ j, j ≠ i → sp' !! j = TourAnalytics.stepProgress demo_record !! j.
Proof.
  assert (record "a1" demo_db = Some demo_record) as Hr by reflexivity.
  assert ("1" ∈ stepIds demo_record) as Hs by apply list_elem_of_here.
  split; [exact Hr|]. split; [exact Hs|].
  exact (completeStep_again_updates_completion_only demo_db "a1" demo_record "1" 1050 Hr Hs).
Defined.


(** C6.  When no record is stored under the identifier, each of
    [completeStep], [completeTour] and [abandonTour] ends in an exception
    that reaches the caller (a not-found error), in the unchanged store. *)
Theorem missing_record_is_fatal (db : Db) (id : Id) (s : string) (now : Z) :
  record id db = None →
  completeStep id s now db = (inl (Error "Analytics record not found"), db) ∧
  completeTour id now db = (inl (NonexistentDocument id), db) ∧
  abandonTour id now db = (inl (NonexistentDocument id), db).
Proof.
  intros Hr. split; [by apply completeStep_missing|].
  split; by apply patch_missing.
Qed.

Lemma missing_record_is_fatal_witness :
  record "a2" demo_db = None ∧
  completeStep "a2" "1" 1050 demo_db =
    (inl (Error "Analytics record not found"), demo_db) ∧
  completeTour "a2" 1050 demo_db = (inl (NonexistentDocument "a2"), demo_db) ∧
  abandonTour "a2" 1050 demo_db = (inl (NonexistentDocument "a2"), demo_db).
Proof.
  assert (record "a2" demo_db = None) as Hr by reflexivity.
  split; [exact Hr|].
  exact (missing_record_is_fatal demo_db "a2" "1" 1050 Hr).
Defined.


(** C10.  On a stored record, [completeTour] writes [completedAt] and
    [abandonTour] writes [abandonedAt], each with the call time, and
    nothing else: the record's other fields (the other terminal timestamp
    included), the other records and the other tables are as before. *)
Theorem terminal_calls_write_one_field (db : Db) (id : Id)
    (r : TourAnalytics.t) (now : Z) :
  record id db = Some r →
  (∃ db', completeTour id now db = (inr id, db') ∧
     record id db' =
       Some (TourAnalytics.mk (TourAnalytics._id r) (TourAnalytics._creationTime r)
               (TourAnalytics.tourId r) (TourAnalytics.userId r)
               (TourAnalytics.startedAt r) (Some now)
               (TourAnalytics.abandonedAt r) (TourAnalytics.stepProgress r)) ∧
     (∀ id', id' ≠ id → record id' db' = record id' db) ∧
     tours db' = tours db ∧ steps db' = steps db) ∧
  (∃ db', abandonTour id now db = (inr id, db') ∧
     record id db' =
       Some (TourAnalytics.mk (TourAnalytics._id r) (TourAnalytics._creationTime r)
               (TourAnalytics.tourId r) (TourAnalytics.userId r)
               (TourAnalytics.startedAt r) (TourAnalytics.completedAt r)
               (Some now) (TourAnalytics.stepProgress r)) ∧
     (∀ id', id' ≠ id → record id' db' = record id' db) ∧
     tours db' = tours db ∧ steps db' = steps db).
Proof.
  intros Hr. split; eexists; (split; [by apply (patch_found _ _ _ _ Hr)|]).
  - split; [|split; [|done]].
    + unfold record; simpl. rewrite find_patch_same by done.
      unfold record in Hr. by rewrite Hr.
    + intros id' Hne. unfold record; simpl. by apply find_patch_other.
  - split; [|split; [|done]].
    + unfold record; simpl. rewrite find_patch_same by done.
      unfold record in Hr. by rewrite Hr.
    + intros id' Hne. unfold record; simpl. by apply find_patch_other.
Qed.

Lemma terminal_calls_write_one_field_witness :
  record "a1" (commit (abandonTour "a1" 1060) demo_db) =
    Some (TourAnalytics.set_abandonedAt 1060 demo_record) ∧
  ∃ db', completeTour "a1" 1070 (commit (abandonTour "a1" 1060) demo_db) = (inr "a1", db') ∧
         record "a1" db' =
           Some (TourAnalytics.mk "a1" 1000 "demo_tour" "u1" 1000 (Some 1070) (Some 1060)
                   [StepProgress.mk "1" 1010 (Some 1010)]).
Proof.
  assert (record "a1" (commit (abandonTour "a1" 1060) demo_db) =
          Some (TourAnalytics.set_abandonedAt 1060 demo_record)) as Hr by reflexivity.
  split; [exact Hr|].
  destruct (terminal_calls_write_one_field _ "a1" _ 1070 Hr)
    as [(db' & Hrun & Hrec & _) _].
  exists db'. split; [exact Hrun|exact Hrec].
Defined.


(** ** Lifecycle *)

Lemma find_app_found {A} (p : A → bool) (l l' : list A) (x : A) :
  List.find p l = Some x → List.find p (l ++ l') = Some x.
Proof.
  induction l as [|y l IH]; simpl; [done|]. destruct (p y); [done|apply IH].
Qed.

Lemma record_run_terminal (c : Call) (db : Db) (id : Id) (r : TourAnalytics.t) :
  record id db = Some r →
  ∃ r', record id (commit (run c) db) = Some r' ∧
        (is_Some (TourAnalytics.completedAt r') ↔
         is_Some (TourAnalytics.completedAt r) ∨ ∃ t, c = CompleteTour id t) ∧
        (is_Some (TourAnalytics.abandonedAt r') ↔
         is_Some (TourAnalytics.abandonedAt r) ∨ ∃ t, c = AbandonTour id t).
Proof.
  intros Hr.
  destruct c as [tid uid now newId created|id' s now|id' now|id' now]; simpl.
  - exists r. split.
    + unfold commit, startTour, bind, Store.insert_tourAnalytics, ret, record; simpl.
      by apply find_app_found.
    + split; (split; [by left|intros [?|[t Ht]]; [done|discriminate Ht]]).
  - destruct (record id' db) as [r0|] eqn:Hr0.
    + unfold commit. rewrite (completeStep_found _ _ _ _ _ Hr0).
      destruct (decide (id = id')) as [<-|Hne].
      * eexists. split.
        { unfold record; simpl. rewrite find_patch_same by done.
          unfold record in Hr. by rewrite Hr. }
        simpl. split; (split; [by left|intros [?|[t Ht]]; [done|discriminate Ht]]).
      * exists r. split.
        { unfold record; simpl. by rewrite find_patch_other. }
        split; (split; [by left|intros [?|[t Ht]]; [done|discriminate Ht]]).
    + unfold commit. rewrite completeStep_missing by done.
      exists r. split; [done|].
      split; (split; [by left|intros [?|[t Ht]]; [done|discriminate Ht]]).
  - unfold commit, completeTour. destruct (record id' db) as [r0|] eqn:Hr0.
    + rewrite (patch_found _ _ _ _ Hr0).
      destruct (decide (id = id')) as [<-|Hne].
      * eexists. split.
        { unfold record; simpl. rewrite find_patch_same by done.
          unfold record in Hr. by rewrite Hr. }
        simpl. split.
        -- split; [intros _; right; by exists now|by eexists].
        -- split; [by left|intros [?|[t Ht]]; [done|discriminate Ht]].
      * exists r. split.
        { unfold record; simpl. by rewrite find_patch_other. }
        split; (split; [by left|intros [?|[t Ht]]; [done|congruence]]).
    + rewrite patch_missing by done. exists r. split; [done|].
      split; (split; [by left|intros [?|[t Ht]]; [done|congruence]]).
  - unfold commit, abandonTour. destruct (record id' db) as [r0|] eqn:Hr0.
    + rewrite (patch_found _ _ _ _ Hr0).
      destruct (decide (id = id')) as [<-|Hne].
      * eexists. split.
        { unfold record; simpl. rewrite find_patch_same by done.
          unfold record in Hr. by rewrite Hr. }
        simpl. split.
        -- split; [by left|intros [?|[t Ht]]; [done|discriminate Ht]].
        -- split; [intros _; right; by exists now|by eexists].
      * exists r. split.
        { unfold record; simpl. by rewrite find_patch_other. }
        split; (split; [by left|intros [?|[t Ht]]; [done|congruence]]).
    + rewrite patch_missing by done. exists r. split; [done|].
      split; (split; [by left|intros [?|[t Ht]]; [done|congruence]]).
Qed.

Lemma record_exec_terminal (cs : list Call) (db : Db) (id : Id)
    (r : TourAnalytics.t) :
  record id db = Some r →
  ∃ r', record id (exec cs db) = Some r' ∧
        (is_Some (TourAnalytics.completedAt r') ↔
         is_Some (TourAnalytics.completedAt r) ∨ ∃ t, CompleteTour id t ∈ cs) ∧
        (is_Some (TourAnalytics.abandonedAt r') ↔
         is_Some (TourAnalytics.abandonedAt r) ∨ ∃ t, AbandonTour id t ∈ cs).
Proof.
  revert db r. induction cs as [|c cs IH]; intros db r Hr.
  - exists r. split; [done|].
    split; (split; [by left|intros [?|[t Ht]]; [done|by apply elem_of_nil in Ht]]).
  - destruct (record_run_terminal c db id r Hr) as (r1 & Hr1 & Hc1 & Ha1).
    destruct (IH _ r1 Hr1) as (r' & Hr' & Hc & Ha).
    exists r'. split; [done|]. rewrite Hc, Ha, Hc1, Ha1. split.
    + split.
      * intros [[?|[t ->]]|[t Ht]]; [by left|right; exists t; by left|right; exists t; by right].
      * intros [?|[t Ht]]; [by left; left|].
        apply elem_of_cons in Ht as [<-|Ht]; [left; right; by exists t|right; by exists t].
    + split.
      * intros [[?|[t ->]]|[t Ht]]; [by left|right; exists t; by left|right; exists t; by right].
      * intros [?|[t Ht]]; [by left; left|].
        apply elem_of_cons in Ht as [<-|Ht]; [left; right; by exists t|right; by exists t].
Qed.

(** C2, as the code has it.  A record opened by [startTour] stays in the
    store under any later calls, its completion timestamp is set exactly
    when [completeTour] was called on it and its abandonment timestamp
    exactly when [abandonTour] was called on it; so both are set exactly
    when both calls were made, and never otherwise. *)
Theorem terminal_timestamps_follow_calls (db : Db) (tourId userId : string)
    (now : Z) (id : Id) (created : Z) (cs : list Call) :
  fresh id db →
  ∃ r, record id (exec cs (commit (startTour tourId userId now id created) db)) = Some r ∧
       (is_Some (TourAnalytics.completedAt r) ↔ ∃ t, CompleteTour id t ∈ cs) ∧
       (is_Some (TourAnalytics.abandonedAt r) ↔ ∃ t, AbandonTour id t ∈ cs) ∧
       (is_Some (TourAnalytics.completedAt r) ∧ is_Some (TourAnalytics.abandonedAt r) ↔
        (∃ t, CompleteTour id t ∈ cs) ∧ (∃ t, AbandonTour id t ∈ cs)).
Proof.
  intros Hfresh.
  set (r0 := TourAnalytics.mk id created tourId userId now None None []).
  assert (record id (commit (startTour tourId userId now id created) db) = Some r0) as Hr0.
  { unfold commit, startTour, bind, Store.insert_tourAnalytics, ret, record; simpl.
    unfold fresh in Hfresh. induction (tourAnalytics db) as [|d l IH]; simpl.
    - unfold Store.has_id; simpl. by rewrite String.eqb_refl.
    - destruct (Store.has_id id d) eqn:Hd.
      + exfalso. apply Hfresh. simpl. apply String.eqb_eq in Hd. rewrite Hd. by left.
      + apply IH. intros Hin. apply Hfresh. simpl. by right. }
  destruct (record_exec_terminal cs _ id r0 Hr0) as (r & Hr & Hc & Ha).
  exists r. split; [done|].
  assert (∀ P : Prop, is_Some (@None Z) ∨ P ↔ P) as Hnone.
  { intros P. split; [intros [[x Hx]|?]; [discriminate Hx|done]|by right]. }
  simpl in Hc, Ha. rewrite Hnone in Hc, Ha. rewrite Hc, Ha. done.
Qed.

Lemma terminal_timestamps_follow_calls_witness :
  fresh "a2" demo_db ∧
  ∃ r, record "a2" (exec [CompleteStep "a2" "1" 2010; AbandonTour "a2" 2020]
                         (commit (startTour "demo_tour" "u2" 2000 "a2" 2000) demo_db))
         = Some r ∧
       ¬ is_Some (TourAnalytics.completedAt r) ∧
       is_Some (TourAnalytics.abandonedAt r).
Proof.
  assert (fresh "a2" demo_db) as Hfresh.
  { unfold fresh. simpl. intros Hin. apply list_elem_of_singleton in Hin. discriminate Hin. }
  split; [exact Hfresh|].
  destruct (terminal_timestamps_follow_calls demo_db "demo_tour" "u2" 2000 "a2" 2000
              [CompleteStep "a2" "1" 2010; AbandonTour "a2" 2020] Hfresh)
    as (r & Hr & Hc & Ha & _).
  exists r. split; [exact Hr|]. split.
  - intros Hset. apply Hc in Hset as [t Ht].
    apply elem_of_cons in Ht as [Ht|Ht]; [discriminate Ht|].
    apply list_elem_of_singleton in Ht. discriminate Ht.
  - apply Ha. exists 2020. apply list_elem_of_further, list_elem_of_here.
Defined.

(** C2, as stated, fails: nothing stops [abandonTour] on a completed
    record, and the record then carries both terminal timestamps. *)
Lemma completed_and_abandoned_record :
  reachable (exec [CompleteTour "a1" 2000; AbandonTour "a1" 3000] demo_db) ∧
  ∃ r, record "a1" (exec [CompleteTour "a1" 2000; AbandonTour "a1" 3000] demo_db) = Some r ∧
       TourAnalytics.completedAt r = Some 2000 ∧
       TourAnalytics.abandonedAt r = Some 3000.
Proof.
  split.
  - exists (demo_calls ++ [CompleteTour "a1" 2000; AbandonTour "a1" 3000]).
    split; [|reflexivity]. simpl. split; [apply not_elem_of_nil|done].
  - eexists. split; [reflexivity|]. done.
Qed.


(** ** Timestamps are clock readings *)

Lemma updateProgress_stamped (sp : list StepProgress.t) (s : string) (now : Z) :
  now ≠ 0 →
  Forall (λ e, StepProgress.completedAt e ≠ Some 0) sp →
  Forall (λ e, StepProgress.completedAt e ≠ Some 0) (updateProgress sp s now).
Proof.
  intros Hnow Hsp. destruct (decide (s ∈ map StepProgress.stepId sp)) as [Hin|Hnot].
  - destruct (updateProgress_found sp s now Hin) as (i & e & _ & _ & _ & ->).
    apply Forall_insert; [done|]. simpl. congruence.
  - rewrite updateProgress_new by done. apply Forall_app. split; [done|].
    apply Forall_singleton. simpl. congruence.
Qed.

Lemma stamped_patch (db : Db) (id : Id) (f : TourAnalytics.t → TourAnalytics.t) :
  (∀ d, d ∈ tourAnalytics db →
        TourAnalytics.completedAt (f d) ≠ Some 0 ∧
        Forall (λ e, StepProgress.completedAt e ≠ Some 0)
               (TourAnalytics.stepProgress (f d))) →
  stamped db →
  stamped (mkDb (map (λ d, if Store.has_id id d then f d else d) (tourAnalytics db))
                (tours db) (steps db)).
Proof.
  unfold stamped; simpl. intros Hf Hall. apply Forall_forall. intros d' Hd'.
  apply list_elem_of_fmap in Hd' as (d & -> & Hd).
  destruct (Store.has_id id d); [by apply Hf|].
  exact (proj1 (Forall_forall _ _) Hall d Hd).
Qed.

Lemma stamped_run (c : Call) (db : Db) :
  0 < call_time c → stamped db → stamped (commit (run c) db).
Proof.
  intros Hnow Hst. destruct c as [t u now newId created|id s now|id now|id now];
    simpl in Hnow |- *.
  - unfold commit, startTour, bind, Store.insert_tourAnalytics, ret; simpl.
    unfold stamped; simpl. apply Forall_app. split; [done|].
    apply Forall_singleton. simpl. split; [done|constructor].
  - destruct (record id db) as [r|] eqn:Hr.
    + unfold commit. rewrite (completeStep_found _ _ _ _ _ Hr).
      apply stamped_patch; [|done]. intros d Hd. simpl.
      pose proof (proj1 (Forall_forall _ _) Hst d Hd) as [Hd1 _].
      destruct (record_elem _ _ _ Hr) as [Hin _].
      pose proof (proj1 (Forall_forall _ _) Hst r Hin) as [_ Hr2].
      split; [done|]. apply updateProgress_stamped; [lia|done].
    + unfold commit. by rewrite completeStep_missing.
  - unfold commit, completeTour. destruct (record id db) as [r|] eqn:Hr.
    + rewrite (patch_found _ _ _ _ Hr). apply stamped_patch; [|done].
      intros d Hd. simpl. pose proof (proj1 (Forall_forall _ _) Hst d Hd) as [_ Hd2].
      split; [intros [= ?]; lia|done].
    + by rewrite patch_missing.
  - unfold commit, abandonTour. destruct (record id db) as [r|] eqn:Hr.
    + rewrite (patch_found _ _ _ _ Hr). apply stamped_patch; [|done].
      intros d Hd. simpl. exact (proj1 (Forall_forall _ _) Hst d Hd).
    + by rewrite patch_missing.
Qed.

(** Every store the tracker builds after the epoch is [stamped]. *)
Lemma stamped_exec (cs : list Call) (db : Db) :
  after_epoch cs → stamped db → stamped (exec cs db).
Proof.
  revert db. induction cs as [|c cs IH]; intros db Hcs Hst; [done|].
  apply Forall_cons in Hcs as [Hc Hcs]. apply IH; [done|]. by apply stamped_run.
Qed.

(** ** Tour-level totals *)

Lemma truthy_is_Some (v : option Z) :
  v ≠ Some 0 → Js.truthy v = bool_decide (is_Some v).
Proof.
  intros Hv. case_bool_decide as Hs.
  - destruct Hs as [n ->]. unfold Js.truthy.
    destruct (Z.eqb_spec n 0) as [->|]; done.
  - destruct v as [n|]; [|done]. exfalso. apply Hs. by eexists.
Qed.

Lemma filter_ext_in {A} (p q : A → bool) (l : list A) :
  (∀ x, x ∈ l → p x = q x) → List.filter p l = List.filter q l.
Proof.
  induction l as [|x l IH]; simpl; intros Hpq; [done|].
  rewrite (Hpq x) by by left. rewrite IH; [done|].
  intros y Hy. apply Hpq. by right.
Qed.

Lemma stamped_tourRecords (tourId : string) (db : Db) (a : TourAnalytics.t) :
  stamped db → a ∈ tourRecords tourId db →
  TourAnalytics.completedAt a ≠ Some 0 ∧
  Forall (λ e, StepProgress.completedAt e ≠ Some 0) (TourAnalytics.stepProgress a).
Proof.
  intros Hst Ha. unfold tourRecords in Ha. apply list_elem_of_filter in Ha as [_ Ha].
  exact (proj1 (Forall_forall _ _) Hst a Ha).
Qed.

Lemma filter_truthy_records (l : list TourAnalytics.t) :
  Forall (λ a, TourAnalytics.completedAt a ≠ Some 0) l →
  List.filter (λ a, Js.truthy (TourAnalytics.completedAt a)) l =
  filter (λ a, is_Some (TourAnalytics.completedAt a)) l.
Proof.
  induction 1 as [|a l Ha _ IH]; [done|].
  simpl. rewrite filter_cons, (truthy_is_Some _ Ha), IH.
  by case_bool_decide; case_decide.
Qed.

Lemma percentage_pos (completed started : nat) :
  started ≠ 0%nat →
  percentage completed started =
  PrimFloat.mul (PrimFloat.div (Js.number completed) (Js.number started)) 100%float.
Proof.
  intros Hs. unfold percentage.
  destruct (Nat.ltb_spec 0 started); [done|lia].
Qed.

(** C3.  [getTourAnalytics] returns [totalStarted], the number of
    records of the tour; [totalCompleted], the number of those with a
    completion timestamp; and [completionRate], which is
    [totalCompleted / totalStarted * 100] in the arithmetic of numbers,
    and [0] (not NaN, no exception) when there is no record.  With 10
    records of which 4 are completed the rate is 40. *)
Theorem getTourAnalytics_totals (db : Db) (tourId : string) :
  stamped db →
  ∃ rep, getTourAnalytics tourId db = (inr rep, db) ∧
    TourReport.totalStarted rep = length (tourRecords tourId db) ∧
    TourReport.totalCompleted rep =
      length (filter (λ a, is_Some (TourAnalytics.completedAt a))
                     (tourRecords tourId db)) ∧
    (TourReport.totalStarted rep ≠ 0%nat →
     TourReport.completionRate rep =
       PrimFloat.mul
         (PrimFloat.div (Js.number (TourReport.totalCompleted rep))
                        (Js.number (TourReport.totalStarted rep)))
         100%float) ∧
    (TourReport.totalStarted rep = 0%nat →
     TourReport.completionRate rep = 0%float ∧
     PrimFloat.is_nan (TourReport.completionRate rep) = false) ∧
    (TourReport.totalStarted rep = 10%nat → TourReport.totalCompleted rep = 4%nat →
     TourReport.completionRate rep = 40%float).
Proof.
  intros Hst. eexists. split; [reflexivity|]. simpl.
  fold (tourRecords tourId db).
  split; [done|]. split.
  { f_equal. apply filter_truthy_records. apply Forall_forall. intros a Ha.
    by destruct (stamped_tourRecords tourId db a Hst Ha). }
  split; [apply percentage_pos|]. split.
  - intros ->. done.
  - intros -> ->. vm_compute. reflexivity.
Qed.

Lemma getTourAnalytics_totals_witness :
  stamped ten_attempts ∧
  ∃ rep, getTourAnalytics "T" ten_attempts = (inr rep, ten_attempts) ∧
         TourReport.totalStarted rep = 10%nat ∧
         TourReport.totalCompleted rep = 4%nat ∧
         TourReport.completionRate rep = 40%float.
Proof.
  assert (stamped ten_attempts) as Hst.
  { unfold stamped, ten_attempts. simpl. repeat constructor; discriminate. }
  split; [exact Hst|].
  destruct (getTourAnalytics_totals ten_attempts "T" Hst)
    as (rep & Hrun & Hstarted & Hcompleted & _ & _ & Hrate).
  exists rep. split; [exact Hrun|].
  assert (TourReport.totalStarted rep = 10%nat) as H10 by (rewrite Hstarted; reflexivity).
  assert (TourReport.totalCompleted rep = 4%nat) as H4 by (rewrite Hcompleted; reflexivity).
  split; [exact H10|]. split; [exact H4|]. exact (Hrate H10 H4).
Defined.


(** ** Recent activity *)

Lemma mapM_pure {A B} (f : A → M B) (P : A → B → Prop) (l : list A) (db : Db) :
  (∀ x, x ∈ l → ∃ y, f x db = (inr y, db) ∧ P x y) →
  ∃ ys, mapM f l db = (inr ys, db) ∧ Forall2 P l ys.
Proof.
  induction l as [|x l IH]; intros Hf.
  - exists []. split; [done|constructor].
  - destruct (Hf x (list_elem_of_here _ _)) as (y & Hy & HP).
    destruct IH as (ys & Hys & HPs).
    { intros x' Hx'. apply Hf. by right. }
    exists (y :: ys). split; [|by constructor].
    simpl. unfold bind at 1. rewrite Hy. unfold bind at 1. by rewrite Hys.
Qed.

Lemma lookup_tour (elsewhere : Id → option (option string)) (db : Db)
    (r : TourAnalytics.t) (t : Tour.t) :
  tourOf db r = Some t →
  Table.lookup elsewhere (TourAnalytics.tourId r) db = Some (TourDoc t).
Proof. unfold tourOf, Table.lookup. by intros ->. Qed.

Lemma lookup_no_tour (elsewhere : Id → option (option string)) (db : Db)
    (r : TourAnalytics.t) :
  tourOf db r = None →
  (∀ n, elsewhere (TourAnalytics.tourId r) ≠ Some (Some n)) →
  default "Unknown Tour" (Table.lookup elsewhere (TourAnalytics.tourId r) db ≫= doc_name) =
  "Unknown Tour".
Proof.
  unfold tourOf, Table.lookup. intros -> Hnone.
  destruct (List.find _ (tourAnalytics db)); [done|].
  destruct (List.find _ (steps db)); [done|].
  destruct (elsewhere (TourAnalytics.tourId r)) as [[n|]|] eqn:Helse; [|done..].
  by destruct (Hnone n).
Qed.

Lemma resolveTourName_lookup (validId : string → bool)
    (elsewhere : Id → option (option string)) (db : Db) (r : TourAnalytics.t) :
  resolveTourName validId elsewhere r db =
  (inr (if validId (TourAnalytics.tourId r)
        then default "Unknown Tour"
               (Table.lookup elsewhere (TourAnalytics.tourId r) db ≫= doc_name)
        else "Unknown Tour"), db).
Proof.
  unfold resolveTourName, try_catch, bind, Table.get, ret.
  destruct (validId (TourAnalytics.tourId r)); [|done].
  destruct (Table.lookup elsewhere (TourAnalytics.tourId r) db) as [d|]; [|done].
  simpl. by destruct (doc_name d).
Qed.




(** ** Index order of the steps *)

Lemma insert_by_order_perm (s : Step.t) (l : list Step.t) :
  Table.insert_by_order s l ≡ₚ s :: l.
Proof.
  induction l as [|s' l IH]; simpl; [done|].
  destruct (Step.order s <=? Step.order s'); [done|].
  rewrite IH. apply Permutation_swap.
Qed.

Lemma sort_by_order_perm (l : list Step.t) : Table.sort_by_order l ≡ₚ l.
Proof.
  induction l as [|s l IH]; simpl; [done|].
  by rewrite insert_by_order_perm, IH.
Qed.

Lemma insert_by_order_sorted (s : Step.t) (l : list Step.t) :
  StronglySorted order_le l → StronglySorted order_le (Table.insert_by_order s l).
Proof.
  induction 1 as [|s' l Hl IH Hs']; simpl.
  - constructor; constructor.
  - destruct (Z.leb_spec (Step.order s) (Step.order s')) as [Hle|Hgt].
    + constructor; [by constructor|]. constructor; [done|].
      eapply Forall_impl; [exact Hs'|]. unfold order_le. intros x Hx. lia.
    + constructor; [done|].
      rewrite insert_by_order_perm. constructor; [|done].
      unfold order_le. lia.
Qed.

Lemma sort_by_order_sorted (l : list Step.t) :
  StronglySorted order_le (Table.sort_by_order l).
Proof.
  induction l as [|s l IH]; simpl; [constructor|by apply insert_by_order_sorted].
Qed.

(** ** The renumbering loop *)

Lemma renumbered_fields (i : nat) (rem : list Step.t) (s : Step.t) :
  Step._id (renumbered i rem s) = Step._id s ∧
  Step.tourId (renumbered i rem s) = Step.tourId s ∧
  Step.stepId (renumbered i rem s) = Step.stepId s.
Proof.
  revert i. induction rem as [|r rem IH]; intros i; simpl; [done|].
  destruct (String.eqb (Step._id s) (Step._id r)); [done|apply IH].
Qed.

Lemma renumbered_other (i : nat) (rem : list Step.t) (s : Step.t) :
  Step._id s ∉ map Step._id rem → renumbered i rem s = s.
Proof.
  revert i. induction rem as [|r rem IH]; intros i Hnot; simpl; [done|].
  destruct (String.eqb_spec (Step._id s) (Step._id r)) as [Heq|Hne].
  - exfalso. apply Hnot. simpl. rewrite Heq. by left.
  - apply IH. intros Hin. apply Hnot. simpl. by right.
Qed.

Lemma find_step_elem (id : Id) (l : list Step.t) :
  id ∈ map Step._id l →
  is_Some (List.find (λ s, String.eqb (Step._id s) id) l).
Proof.
  induction l as [|s l IH]; simpl; intros Hin; [by apply elem_of_nil in Hin|].
  destruct (String.eqb_spec (Step._id s) id) as [Heq|Hne]; [by eexists|].
  apply IH. apply elem_of_cons in Hin as [Hin|Hin]; [congruence|done].
Qed.

Lemma renumber_spec (rem : list Step.t) (i : nat) (db : Db) :
  NoDup (map Step._id rem) →
  (∀ r, r ∈ rem → Step._id r ∈ map Step._id (steps db)) →
  renumber i rem db =
  (inr (), mkDb (tourAnalytics db) (tours db) (map (renumbered i rem) (steps db))).
Proof.
  revert i db. induction rem as [|r rem IH]; intros i db Hnd Hin; simpl.
  - unfold ret. destruct db; simpl. by rewrite map_id.
  - apply NoDup_cons in Hnd as [Hr Hnd].
    destruct (find_step_elem (Step._id r) (steps db)) as [x Hx].
    { apply Hin. by left. }
    unfold bind, Table.patch_step. rewrite Hx.
    rewrite IH; simpl; [|done|].
    + f_equal. f_equal. rewrite map_map. apply map_ext. intros s.
      destruct (String.eqb (Step._id s) (Step._id r)) eqn:Hs; [|done].
      apply renumbered_other. simpl. apply String.eqb_eq in Hs. by rewrite Hs.
    + intros r' Hr'. rewrite map_map.
      assert (map (λ s, Step._id (if String.eqb (Step._id s) (Step._id r)
                                  then Step.set_order (Z.of_nat i + 1) s else s))
                  (steps db) = map Step._id (steps db)) as ->.
      { apply map_ext. intros s. by destruct (String.eqb _ _). }
      apply Hin. by right.
Qed.

Lemma renumbered_tail (i : nat) (r : Step.t) (rem l : list Step.t) :
  Step._id r ∉ map Step._id l →
  map (renumbered i (r :: rem)) l = map (renumbered (S i) rem) l.
Proof.
  induction l as [|x l IH]; simpl; intros Hnot; [done|].
  destruct (String.eqb_spec (Step._id x) (Step._id r)) as [Heq|Hne].
  - exfalso. apply Hnot. rewrite Heq. by left.
  - f_equal. apply IH. intros Hin. apply Hnot. by right.
Qed.

Lemma renumbered_orders (rem : list Step.t) (i : nat) :
  NoDup (map Step._id rem) →
  map Step.order (map (renumbered i rem) rem) =
  map (λ j, Z.of_nat j + 1) (seq i (length rem)).
Proof.
  revert i. induction rem as [|r rem IH]; intros i Hnd; [done|].
  apply NoDup_cons in Hnd as [Hr Hnd].
  cbn [map length seq]. rewrite (renumbered_tail i r rem rem Hr), IH by done.
  f_equal. simpl. by rewrite String.eqb_refl.
Qed.

Lemma renumbered_ids (i : nat) (rem l : list Step.t) :
  map Step._id (map (renumbered i rem) l) = map Step._id l.
Proof.
  rewrite map_map. apply map_ext. intros s. apply renumbered_fields.
Qed.

Lemma filter_renumbered (t : Id) (i : nat) (rem l : list Step.t) :
  List.filter (λ s, String.eqb (Step.tourId s) t) (map (renumbered i rem) l) =
  map (renumbered i rem) (List.filter (λ s, String.eqb (Step.tourId s) t) l).
Proof.
  induction l as [|s l IH]; simpl; [done|].
  destruct (renumbered_fields i rem s) as (_ & -> & _).
  destruct (String.eqb (Step.tourId s) t); simpl; by rewrite IH.
Qed.

Lemma seq_orders_sorted (i n : nat) :
  StronglySorted Z.le (map (λ j, Z.of_nat j + 1) (seq i n)).
Proof.
  revert i. induction n as [|n IH]; intros i; simpl; constructor; [apply IH|].
  apply Forall_forall. intros x Hx. apply list_elem_of_fmap in Hx as (j & -> & Hj).
  apply elem_of_seq in Hj. lia.
Qed.

Lemma seq_orders_NoDup (i n : nat) :
  NoDup (map (λ j, Z.of_nat j + 1) (seq i n)).
Proof.
  apply NoDup_fmap_2; [|apply NoDup_seq]. intros a b Hab. lia.
Qed.

Lemma NoDup_fmap_eq {A B} (f : A → B) (l : list A) (x y : A) :
  NoDup (map f l) → x ∈ l → y ∈ l → f x = f y → x = y.
Proof.
  induction l as [|a l IH]; simpl; intros Hnd Hx Hy Hxy; [by apply elem_of_nil in Hx|].
  apply NoDup_cons in Hnd as [Ha Hnd].
  apply elem_of_cons in Hx as [->|Hx]; apply elem_of_cons in Hy as [->|Hy].
  - done.
  - exfalso. apply Ha. rewrite Hxy. apply list_elem_of_fmap. by exists y.
  - exfalso. apply Ha. rewrite <- Hxy. apply list_elem_of_fmap. by exists x.
  - by apply IH.
Qed.

Lemma sorted_by_orders (l : list Step.t) :
  StronglySorted Z.le (map Step.order l) → StronglySorted order_le l.
Proof.
  induction l as [|s l IH]; simpl; intros Hs; [constructor|].
  apply StronglySorted_inv in Hs as [Hl Hs].
  constructor; [by apply IH|].
  apply Forall_forall. intros x Hx.
  apply (proj1 (Forall_forall _ _) Hs). apply list_elem_of_fmap. by exists x.
Qed.

(** Once renumbered, the remaining steps come back from the index in the
    same order. *)
Lemma sort_renumbered (i : nat) (rem l : list Step.t) :
  NoDup (map Step._id rem) →
  l ≡ₚ rem →
  Table.sort_by_order (map (renumbered i rem) l) = map (renumbered i rem) rem.
Proof.
  intros Hnd Hperm.
  assert (StronglySorted order_le (map (renumbered i rem) rem)) as Hsorted.
  { pose proof (seq_orders_sorted i (length rem)) as Hs.
    rewrite <- (renumbered_orders rem i Hnd) in Hs.
    by apply sorted_by_orders. }
  assert (NoDup (map Step.order (map (renumbered i rem) rem))) as Hnd'.
  { rewrite renumbered_orders by done. apply seq_orders_NoDup. }
  assert (Table.sort_by_order (map (renumbered i rem) l) ≡ₚ map (renumbered i rem) rem)
    as Hp.
  { rewrite sort_by_order_perm. by apply Permutation_map. }
  apply (StronglySorted_unique_strong order_le); [|apply sort_by_order_sorted|done..].
  intros x1 x2 Hx1 Hx2 H12 H21. unfold order_le in *.
  apply (NoDup_fmap_eq Step.order (map (renumbered i rem) rem)); [done| |done|lia].
  by rewrite <- Hp.
Qed.

(** ** [deleteStep] *)

Lemma deleteStep_authorized (db : Db) (identity : Identity.t) (id : Id)
    (step : Step.t) (tour : Tour.t) :
  List.find (λ s, String.eqb (Step._id s) id) (steps db) = Some step →
  List.find (λ t, String.eqb (Tour._id t) (Step.tourId step)) (tours db) = Some tour →
  Tour.userId tour = Some (Identity.subject identity) →
  deleteStep (Some identity) id db =
  renumber 0
    (Table.sort_by_order
       (List.filter (λ s, String.eqb (Step.tourId s) (Step.tourId step))
          (List.filter (λ s, negb (String.eqb (Step._id s) id)) (steps db))))
    (mkDb (tourAnalytics db) (tours db)
          (List.filter (λ s, negb (String.eqb (Step._id s) id)) (steps db))).
Proof.
  intros Hstep Htour Howner.
  unfold deleteStep, bind, Table.get_step, Table.get_tour, Table.delete_step,
    Table.by_tourId_order.
  rewrite Hstep, Htour, Howner. rewrite bool_decide_eq_true_2 by done. simpl.
  by rewrite Hstep.
Qed.

Lemma filter_comm {A} (p q : A → bool) (l : list A) :
  List.filter p (List.filter q l) = List.filter q (List.filter p l).
Proof.
  induction l as [|x l IH]; simpl; [done|].
  destruct (p x) eqn:Hp, (q x) eqn:Hq; simpl; rewrite ?Hp, ?Hq, IH; done.
Qed.

Lemma length_filter_out (id : Id) (l : list Step.t) :
  NoDup (map Step._id l) → id ∈ map Step._id l →
  length (List.filter (λ s, negb (String.eqb (Step._id s) id)) l) = (length l - 1)%nat.
Proof.
  induction l as [|s l IH]; simpl; intros Hnd Hin; [by apply elem_of_nil in Hin|].
  apply NoDup_cons in Hnd as [Hs Hnd].
  destruct (String.eqb_spec (Step._id s) id) as [Heq|Hne]; simpl.
  - rewrite Nat.sub_0_r. f_equal. rewrite <- Heq.
    clear IH Hin Hnd. induction l as [|x l IH]; simpl; [done|].
    destruct (String.eqb_spec (Step._id x) (Step._id s)) as [Hx|Hx]; simpl.
    + exfalso. apply Hs. simpl. rewrite Hx. by left.
    + f_equal. apply IH. intros Hin. apply Hs. by right.
  - apply elem_of_cons in Hin as [Hin|Hin]; [congruence|].
    rewrite IH by done. destruct l; [by apply elem_of_nil in Hin|simpl; lia].
Qed.

Lemma filter_ids_sublist (p : Step.t → bool) (l : list Step.t) :
  map Step._id (List.filter p l) `sublist_of` map Step._id l.
Proof.
  induction l as [|s l IH]; simpl; [done|].
  destruct (p s); simpl; [by apply sublist_skip|by apply sublist_cons].
Qed.

Lemma NoDup_filter_ids (p : Step.t → bool) (l : list Step.t) :
  NoDup (map Step._id l) → NoDup (map Step._id (List.filter p l)).
Proof.
  induction l as [|s l IH]; simpl; intros Hnd; [done|].
  apply NoDup_cons in Hnd as [Hs Hnd].
  destruct (p s); simpl; [|by apply IH].
  apply NoDup_cons. split; [|by apply IH].
  intros Hin. apply Hs. eapply elem_of_sublist; [done|apply filter_ids_sublist].
Qed.

Lemma filter_all {A} (p : A → bool) (l : list A) :
  (∀ x, x ∈ l → p x = true) → List.filter p l = l.
Proof.
  induction l as [|x l IH]; simpl; intros Hp; [done|].
  rewrite (Hp x) by by left. f_equal. apply IH. intros y Hy. apply Hp. by right.
Qed.

Lemma shifted_orders (i n : nat) :
  map (λ j, Z.of_nat j + 1) (seq i n) = map Z.of_nat (seq (S i) n).
Proof.
  revert i. induction n as [|n IH]; intros i; simpl; [done|].
  rewrite IH. f_equal. lia.
Qed.

(** C9.  When the caller owns the tour, [deleteStep] succeeds, and for a
    tour that had [n] steps the [n - 1] remaining ones are afterwards
    numbered [1, 2, ..., n - 1] in index order, which is the order they had
    before; whichever step was deleted.  Steps of other tours are not
    touched. *)
Theorem deleteStep_resequences (db : Db) (identity : Identity.t) (id : Id)
    (step : Step.t) (tour : Tour.t) :
  NoDup (map Step._id (steps db)) →
  List.find (λ s, String.eqb (Step._id s) id) (steps db) = Some step →
  List.find (λ t, String.eqb (Tour._id t) (Step.tourId step)) (tours db) = Some tour →
  Tour.userId tour = Some (Identity.subject identity) →
  ∃ db', deleteStep (Some identity) id db = (inr (), db') ∧
    let t := Step.tourId step in
    let n := length (stepsOf t db) in
    let remaining :=
      Table.sort_by_order
        (List.filter (λ s, negb (String.eqb (Step._id s) id)) (stepsOf t db)) in
    length (indexOrder t db') = (n - 1)%nat ∧
    map Step._id (indexOrder t db') = map Step._id remaining ∧
    map Step.order (indexOrder t db') = map Z.of_nat (seq 1 (n - 1)) ∧
    ∀ t', t' ≠ t → stepsOf t' db' = stepsOf t' db.
Proof.
  intros Hnd Hstep Htour Howner.
  rewrite (deleteStep_authorized db identity id step tour Hstep Htour Howner).
  set (t := Step.tourId step).
  set (S1 := List.filter (λ s, negb (String.eqb (Step._id s) id)) (steps db)).
  set (rem := Table.sort_by_order
                (List.filter (λ s, String.eqb (Step.tourId s) t) S1)).
  assert (NoDup (map Step._id S1)) as Hnd1.
  { by apply NoDup_filter_ids. }
  assert (rem ≡ₚ List.filter (λ s, String.eqb (Step.tourId s) t) S1) as Hrem
    by apply sort_by_order_perm.
  assert (NoDup (map Step._id rem)) as Hndrem.
  { rewrite Hrem. by apply NoDup_filter_ids. }
  assert (∀ r, r ∈ rem → r ∈ S1 ∧ Step.tourId r = t) as Hin.
  { intros r Hr. rewrite Hrem in Hr. apply list_elem_of_In, filter_In in Hr as [Hr Ht].
    split; [by apply list_elem_of_In|by apply String.eqb_eq]. }
  eexists. split.
  { apply renumber_spec; [done|]. simpl. intros r Hr.
    apply list_elem_of_fmap. exists r. split; [done|]. by apply Hin. }
  apply find_some in Hstep as [Hstep_in Hstep_id].
  apply String.eqb_eq in Hstep_id. apply list_elem_of_In in Hstep_in.
  assert (length rem = (length (stepsOf t db) - 1)%nat) as Hlen.
  { rewrite Hrem. unfold S1. rewrite filter_comm. fold (stepsOf t db).
    apply length_filter_out.
    - by apply NoDup_filter_ids.
    - apply list_elem_of_fmap. exists step. split; [done|].
      apply list_elem_of_In, filter_In. split; [by apply list_elem_of_In|].
      apply String.eqb_refl. }
  assert (indexOrder t
            (mkDb (tourAnalytics db) (tours db) (map (renumbered 0 rem) S1)) =
          map (renumbered 0 rem) rem) as Hidx.
  { unfold indexOrder, stepsOf. simpl. rewrite filter_renumbered.
    apply sort_renumbered; [done|by symmetry]. }
  cbv zeta. cbn [tourAnalytics tours steps]. fold t. rewrite Hidx. split; [by rewrite length_map|]. split.
  { rewrite renumbered_ids. unfold rem, S1. by rewrite filter_comm. }
  split.
  { rewrite renumbered_orders by done. by rewrite shifted_orders, Hlen. }
  intros t' Ht'. unfold stepsOf. simpl. rewrite filter_renumbered.
  assert (List.filter (λ s, String.eqb (Step.tourId s) t') S1 =
          List.filter (λ s, String.eqb (Step.tourId s) t') (steps db)) as Hsame.
  { unfold S1. rewrite filter_comm. apply filter_all. intros x Hx.
    apply list_elem_of_In, filter_In in Hx as [Hx Hxt].
    apply String.eqb_eq in Hxt. apply list_elem_of_In in Hx.
    destruct (String.eqb_spec (Step._id x) id) as [Hxid|]; [|done].
    exfalso. apply Ht'. rewrite <- Hxt. unfold t. f_equal.
    apply (NoDup_fmap_eq Step._id (steps db)); [done..|congruence]. }
  rewrite Hsame. rewrite <- (map_id (List.filter _ (steps db))) at 2.
  apply map_ext_in. intros x Hx. apply renumbered_other. intros Hxrem.
  apply filter_In in Hx as [Hx Hxt]. apply String.eqb_eq in Hxt.
  apply list_elem_of_In in Hx.
  apply list_elem_of_fmap in Hxrem as (r & Hid & Hr).
  destruct (Hin r Hr) as [Hr1 Hrt].
  assert (r ∈ steps db) as Hr0.
  { unfold S1 in Hr1. apply list_elem_of_In, filter_In in Hr1 as [Hr1 _].
    by apply list_elem_of_In. }
  apply Ht'. rewrite <- Hxt, <- Hrt. f_equal.
  by apply (NoDup_fmap_eq Step._id (steps db)).
Qed.

Lemma deleteStep_resequences_witness :
  NoDup (map Step._id (steps five_steps)) ∧
  ∃ db', deleteStep (Some (Identity.mk "alice")) "s3" five_steps = (inr (), db') ∧
         length (indexOrder "t1" db') = 4%nat ∧
         map Step._id (indexOrder "t1" db') = ["s1"; "s2"; "s4"; "s5"] ∧
         map Step.order (indexOrder "t1" db') = [1; 2; 3; 4].
Proof.
  assert (NoDup (map Step._id (steps five_steps))) as Hnd.
  { apply (bool_decide_unpack _). vm_compute. exact I. }
  split; [exact Hnd|].
  destruct (deleteStep_resequences five_steps (Identity.mk "alice") "s3"
              (Step.mk "s3" "t1" "step-3" 3)
              (Tour.mk "t1" (Some "Onboarding") None (Some "alice") None)
              Hnd eq_refl eq_refl eq_refl)
    as (db' & Hrun & Hlen & Hids & Horders & _).
  exists db'. split; [exact Hrun|]. split; [exact Hlen|].
  split; [exact Hids|exact Horders].
Defined.

(** ** Dictionaries *)

Lemma get_own_tabulate {V} (f : string → V) (ks : list string) (k : string) :
  JsObject.get_own (tabulate f ks) k = if decide (k ∈ ks) then Some (f k) else None.
Proof.
  unfold JsObject.get_own, tabulate. induction ks as [|x ks IH]; simpl.
  - destruct (decide (k ∈ [])) as [Hin|]; [by apply elem_of_nil in Hin|done].
  - destruct (String.eqb_spec x k) as [->|Hne]; simpl.
    + by rewrite decide_True by by left.
    + rewrite IH. destruct (decide (k ∈ ks)).
      * by rewrite decide_True by by right.
      * by rewrite decide_False by (intros [?|?]%elem_of_cons; done).
Qed.

Lemma set_tabulate_old {V} (f g : string → V) (ks : list string) (k : string) (v : V) :
  NoDup ks → k ∈ ks → g k = v → (∀ k', k' ≠ k → g k' = f k') →
  JsObject.set (tabulate f ks) k v = tabulate g ks.
Proof.
  unfold tabulate. intros Hnd Hin Hk Hother.
  induction Hnd as [|x ks Hx Hnd IH]; simpl; [by apply elem_of_nil in Hin|].
  destruct (String.eqb_spec x k) as [->|Hne].
  - rewrite Hk. f_equal. apply map_ext_in. intros k' Hk'. f_equal. symmetry.
    apply Hother. intros ->. by apply Hx, list_elem_of_In.
  - rewrite (Hother x Hne). f_equal. apply IH.
    apply elem_of_cons in Hin as [?|?]; [congruence|done].
Qed.

Lemma set_tabulate_new {V} (f g : string → V) (ks : list string) (k : string) (v : V) :
  k ∉ ks → g k = v → (∀ k', k' ≠ k → g k' = f k') →
  JsObject.set (tabulate f ks) k v = tabulate g (ks ++ [k]).
Proof.
  unfold tabulate. intros Hnot Hk Hother.
  induction ks as [|x ks IH]; simpl; [by rewrite Hk|].
  destruct (String.eqb_spec x k) as [->|Hne].
  - exfalso. apply Hnot. by left.
  - rewrite (Hother x Hne). f_equal. apply IH. intros Hin. apply Hnot. by right.
Qed.

(** ** Day keys *)

Lemma pretty_N_char_digit (x : N) :
  is_Some (JsObject.digit (pretty_N_char x)).
Proof. unfold pretty_N_char. repeat case_match; by eexists. Qed.

Lemma pretty_N_go_digits (x : N) (s : string) :
  all_digits s = true → all_digits (pretty_N_go x s) = true.
Proof.
  revert s. induction (N.lt_wf_0 x) as [x _ IH]; intros s Hs.
  assert (x = 0 ∨ 0 < x)%N as [->|Hx] by lia; [by rewrite pretty_N_go_0|].
  rewrite pretty_N_go_step by done. apply IH; [by apply N.div_lt|].
  simpl. by destruct (pretty_N_char_digit (x `mod` 10)) as [d ->].
Qed.

Lemma pretty_N_go_nonempty (x : N) (s : string) :
  s ≠ "" → pretty_N_go x s ≠ "".
Proof.
  revert s. induction (N.lt_wf_0 x) as [x _ IH]; intros s Hs.
  assert (x = 0 ∨ 0 < x)%N as [->|Hx] by lia; [by rewrite pretty_N_go_0|].
  rewrite pretty_N_go_step by done. apply IH; [by apply N.div_lt|done].
Qed.

Lemma pretty_N_digits (n : N) : all_digits (pretty n) = true ∧ pretty n ≠ "".
Proof.
  unfold pretty, pretty_N. case_decide as Hn; [done|].
  split; [by apply pretty_N_go_digits|].
  rewrite pretty_N_go_step by lia. by apply pretty_N_go_nonempty.
Qed.

(** A printed integer is a non-empty run of digits, after a sign if it is
    negative. *)
Lemma pretty_Z_form (z : Z) :
  ∃ d, all_digits d = true ∧ d ≠ "" ∧ (pretty z = d ∨ pretty z = "-" +:+ d).
Proof.
  destruct z as [|p|p]; unfold pretty, pretty_Z.
  - exists "0". by split; [|split; [|left]].
  - exists (pretty (N.pos p)). destruct (pretty_N_digits (N.pos p)) as [Hd Hne].
    by split; [|split; [|left]].
  - exists (pretty (N.pos p)). destruct (pretty_N_digits (N.pos p)) as [Hd Hne].
    by split; [|split; [|right]].
Qed.

Lemma digits_then_dash (d d' r r' : string) :
  all_digits d = true → all_digits d' = true →
  d +:+ "-" +:+ r = d' +:+ "-" +:+ r' → d = d' ∧ r = r'.
Proof.
  revert d'. induction d as [|a d IH]; intros [|a' d'] Hd Hd' Heq; simpl in *.
  - by injection Heq.
  - injection Heq as <- _. done.
  - injection Heq as -> _. done.
  - injection Heq as <- Heq.
    destruct (JsObject.digit a); [|done].
    destruct (IH d' Hd Hd' Heq) as [-> ->]. done.
Qed.

Lemma number_then_dash (y y' : Z) (r r' : string) :
  pretty y +:+ "-" +:+ r = pretty y' +:+ "-" +:+ r' → y = y' ∧ r = r'.
Proof.
  intros Heq.
  destruct (pretty_Z_form y) as (d & Hd & Hne & Hy).
  destruct (pretty_Z_form y') as (d' & Hd' & Hne' & Hy').
  assert (pretty y = pretty y' ∧ r = r') as [Hp Hr];
    [|split; [by apply (inj pretty)|done]].
  destruct Hy as [Hy|Hy], Hy' as [Hy'|Hy']; rewrite Hy, Hy' in Heq |- *.
  - by destruct (digits_then_dash d d' r r' Hd Hd' Heq) as [-> ->].
  - exfalso. destruct d as [|a d]; [done|]. simpl in Heq, Hd.
    injection Heq as -> _. done.
  - exfalso. destruct d' as [|a d']; [done|]. simpl in Heq, Hd'.
    injection Heq as <- _. done.
  - simpl in Heq. injection Heq as Heq.
    by destruct (digits_then_dash d d' r r' Hd Hd' Heq) as [-> ->].
Qed.

(** Distinct calendar days have distinct day keys. *)
Lemma formatDay_inj (d d' : Day) : formatDay d = formatDay d' → d = d'.
Proof.
  destruct d as [[y m] dd], d' as [[y' m'] dd']. unfold formatDay. simpl.
  intros Heq. apply number_then_dash in Heq as [-> Heq].
  apply number_then_dash in Heq as [Hm Heq].
  apply (inj pretty) in Heq as ->. f_equal. f_equal. lia.
Qed.

(** ** Completions by day *)

Lemma day_lt_trans (a b c : Day) : day_lt a b → day_lt b c → day_lt a c.
Proof. unfold day_lt. lia. Qed.

Lemma day_le_lt_trans (a b c : Day) : day_le a b → day_lt b c → day_lt a c.
Proof. intros [Hab| ->] Hbc; [by eapply day_lt_trans|done]. Qed.

(** *** Start timestamps follow the calls *)

Lemma started_patch (id : Id) (f : TourAnalytics.t → TourAnalytics.t)
    (l : list TourAnalytics.t) :
  (∀ d, TourAnalytics.startedAt (f d) = TourAnalytics.startedAt d) →
  map TourAnalytics.startedAt (map (λ d, if Store.has_id id d then f d else d) l) =
  map TourAnalytics.startedAt l.
Proof.
  intros Hf. rewrite map_map. apply map_ext. intros d.
  by destruct (Store.has_id id d).
Qed.

Lemma started_run (c : Call) (db : Db) :
  map TourAnalytics.startedAt (tourAnalytics (commit (run c) db)) =
  map TourAnalytics.startedAt (tourAnalytics db) ++
  match c with
  | StartTour _ _ now _ _ => [now]
  | _ => []
  end.
Proof.
  destruct c as [t u now newId created|id s now|id now|id now]; cbn [run].
  - unfold commit, startTour, bind, Store.insert_tourAnalytics, ret; simpl.
    by rewrite map_app.
  - rewrite app_nil_r. unfold commit. destruct (record id db) as [r|] eqn:Hr.
    + rewrite (completeStep_found _ _ _ _ _ Hr). cbn [snd tourAnalytics].
      by apply started_patch.
    + by rewrite completeStep_missing.
  - rewrite app_nil_r. unfold commit, completeTour.
    destruct (record id db) as [r|] eqn:Hr.
    + rewrite (patch_found _ _ _ _ Hr). cbn [snd tourAnalytics].
      by apply started_patch.
    + by rewrite patch_missing.
  - rewrite app_nil_r. unfold commit, abandonTour.
    destruct (record id db) as [r|] eqn:Hr.
    + rewrite (patch_found _ _ _ _ Hr). cbn [snd tourAnalytics].
      by apply started_patch.
    + by rewrite patch_missing.
Qed.

(** The start timestamps of the records, in creation order, are the clock
    readings of the [startTour] calls, in call order. *)
Lemma started_exec (cs : list Call) (db : Db) :
  map TourAnalytics.startedAt (tourAnalytics (exec cs db)) =
  map TourAnalytics.startedAt (tourAnalytics db) ++
  omap (λ c, match c with StartTour _ _ now _ _ => Some now | _ => None end) cs.
Proof.
  induction cs as [|c cs IH] using rev_ind; [by rewrite app_nil_r|].
  rewrite exec_snoc, started_run, IH, omap_app, <- app_assoc. do 2 f_equal.
  by destruct c.
Qed.

Lemma start_times_sorted (cs : list Call) :
  StronglySorted Z.le (map call_time cs) →
  StronglySorted Z.le
    (omap (λ c, match c with StartTour _ _ now _ _ => Some now | _ => None end) cs).
Proof.
  induction cs as [|c cs IH]; intros Hs; [constructor|].
  cbn [map] in Hs. apply StronglySorted_inv in Hs as [Hs Hc].
  specialize (IH Hs).
  destruct c as [t u now newId created|id s now|id now|id now]; cbn [omap]; try done.
  change (StronglySorted Z.le
            (now :: omap (λ c, match c with
                               | StartTour _ _ now _ _ => Some now
                               | _ => None
                               end) cs)).
  constructor; [done|]. apply Forall_forall. intros x Hx.
  apply list_elem_of_omap in Hx as (c' & Hc' & Hx).
  destruct c'; try discriminate. injection Hx as <-.
  apply (proj1 (Forall_forall _ _) Hc). apply list_elem_of_fmap.
  eexists. split; [|exact Hc']. done.
Qed.

Lemma StronglySorted_map_inv {A B} (R : relation B) (f : A → B) (l : list A) :
  StronglySorted R (map f l) → StronglySorted (λ a b, R (f a) (f b)) l.
Proof.
  induction l as [|x l IH]; intros Hs; [constructor|].
  cbn [map] in Hs. apply StronglySorted_inv in Hs as [Hs Hx].
  constructor; [by apply IH|]. apply Forall_forall. intros y Hy.
  apply (proj1 (Forall_forall _ _) Hx). apply list_elem_of_fmap. by exists y.
Qed.

Lemma StronglySorted_weaken {A} (R R' : relation A) (l : list A) :
  (∀ a b, a ∈ l → b ∈ l → R a b → R' a b) →
  StronglySorted R l → StronglySorted R' l.
Proof.
  intros HR Hs. induction Hs as [|x l Hs IH Hx]; constructor.
  - apply IH. intros a b Ha Hb. apply HR; by right.
  - apply Forall_forall. intros y Hy. apply HR; [by left|by right|].
    exact (proj1 (Forall_forall _ _) Hx y Hy).
Qed.

Lemma start_times_called (cs : list Call) (t : Z) :
  t ∈ omap (λ c, match c with StartTour _ _ now _ _ => Some now | _ => None end) cs →
  ∃ c, c ∈ cs ∧ call_time c = t.
Proof.
  intros Ht. apply list_elem_of_omap in Ht as (c & Hc & Ht).
  exists c. split; [done|]. destruct c; try discriminate. by injection Ht.
Qed.

Section CompletionsByDay.

Variables getFullYear getMonth getDate : Z → Z.

Local Abbreviation keyOf := (keyOf getFullYear getMonth getDate).
Local Abbreviation localDay := (localDay getFullYear getMonth getDate).
Local Abbreviation startedOn := (startedOn getFullYear getMonth getDate).
Local Abbreviation startedOnDay := (startedOnDay getFullYear getMonth getDate).
Local Abbreviation firstOfDay := (firstOfDay getFullYear getMonth getDate).
Local Abbreviation countByDay := (countByDay getFullYear getMonth getDate).
Local Abbreviation newest_first := (newest_first getFullYear getMonth getDate).

Lemma keyOf_formatDay (r : TourAnalytics.t) : keyOf r = formatDay (localDay r).
Proof. reflexivity. Qed.

Lemma startedOn_eq (k : string) (recs : list TourAnalytics.t) :
  startedOn k recs = length (List.filter (λ r, String.eqb (keyOf r) k) recs).
Proof. reflexivity. Qed.

Lemma startedOn_snoc (k : string) (recs : list TourAnalytics.t) (r : TourAnalytics.t) :
  startedOn k (recs ++ [r]) =
  (startedOn k recs + if String.eqb (keyOf r) k then 1 else 0)%nat.
Proof.
  rewrite !startedOn_eq, filter_snoc, length_app.
  by destruct (String.eqb (keyOf r) k).
Qed.

Lemma startedOn_absent (k : string) (recs : list TourAnalytics.t) :
  k ∉ map keyOf recs → startedOn k recs = 0%nat.
Proof.
  rewrite startedOn_eq. induction recs as [|r recs IH]; simpl; intros Hnot; [done|].
  destruct (String.eqb_spec (keyOf r) k) as [Heq|Hne].
  - exfalso. apply Hnot. rewrite Heq. by left.
  - apply IH. intros Hin. apply Hnot. by right.
Qed.

Lemma countByDay_snoc (recs : list TourAnalytics.t) (r : TourAnalytics.t) :
  countByDay (recs ++ [r]) =
  JsMap.set (countByDay recs) (keyOf r)
    (default 0%nat (JsMap.get (countByDay recs) (keyOf r)) + 1)%nat.
Proof.
  exact (foldl_snoc
           (λ byDay rec,
              JsMap.set byDay (keyOf rec)
                (default 0%nat (JsMap.get byDay (keyOf rec)) + 1)%nat)
           [] recs r).
Qed.

Lemma countByDay_spec (recs : list TourAnalytics.t) :
  countByDay recs =
  tabulate (λ k, startedOn k recs) (firstSeen (map keyOf recs)).
Proof.
  induction recs as [|r recs IH] using rev_ind; [done|].
  rewrite countByDay_snoc, IH. clear IH. unfold JsMap.set, JsMap.get.
  rewrite get_own_tabulate, map_app. cbn [map]. rewrite firstSeen_snoc.
  destruct (decide (keyOf r ∈ map keyOf recs)) as [Hin|Hnot].
  - rewrite decide_True by by apply firstSeen_elem. simpl.
    apply set_tabulate_old; [apply firstSeen_NoDup|by apply firstSeen_elem|..].
    + by rewrite startedOn_snoc, String.eqb_refl.
    + intros k' Hk'. rewrite startedOn_snoc.
      rewrite (proj2 (String.eqb_neq (keyOf r) k')) by done. lia.
  - rewrite decide_False by by rewrite firstSeen_elem. simpl.
    apply set_tabulate_new; [by rewrite firstSeen_elem|..].
    + by rewrite startedOn_snoc, String.eqb_refl, startedOn_absent.
    + intros k' Hk'. rewrite startedOn_snoc.
      rewrite (proj2 (String.eqb_neq (keyOf r) k')) by done. lia.
Qed.

Lemma filter_keys (k : string) (l : list TourAnalytics.t) :
  map keyOf (List.filter (λ r', negb (String.eqb (keyOf r') k)) l) =
  List.filter (λ k', negb (String.eqb k' k)) (map keyOf l).
Proof.
  induction l as [|r l IH]; simpl; [done|].
  destruct (String.eqb (keyOf r) k); simpl; by rewrite IH.
Qed.

Lemma firstOfDay_keys (recs : list TourAnalytics.t) :
  map keyOf (firstOfDay recs) = firstSeen (map keyOf recs).
Proof.
  induction recs as [|r recs IH]; simpl; [done|]. by rewrite filter_keys, IH.
Qed.

Lemma List_filter_sublist {A} (p : A → bool) (l : list A) :
  List.filter p l `sublist_of` l.
Proof.
  induction l as [|x l IH]; simpl; [done|].
  destruct (p x); [by apply sublist_skip|by apply sublist_cons].
Qed.

Lemma firstOfDay_sublist (recs : list TourAnalytics.t) :
  firstOfDay recs `sublist_of` recs.
Proof.
  induction recs as [|r recs IH]; simpl; [done|].
  apply sublist_skip. etrans; [apply List_filter_sublist|done].
Qed.

Lemma StronglySorted_sublist {A} (R : relation A) (l l' : list A) :
  l' `sublist_of` l → StronglySorted R l → StronglySorted R l'.
Proof.
  induction 1 as [|x l1 l2 Hsub IH|x l1 l2 Hsub IH]; intros Hs; [done|..].
  - apply StronglySorted_inv in Hs as [Hs Hx]. constructor; [by apply IH|].
    apply Forall_forall. intros y Hy.
    apply (proj1 (Forall_forall _ _) Hx). by eapply elem_of_sublist.
  - apply StronglySorted_inv in Hs as [Hs _]. by apply IH.
Qed.

Lemma StronglySorted_reverse {A} (R : relation A) (l : list A) :
  StronglySorted R l → StronglySorted (flip R) (reverse l).
Proof.
  induction 1 as [|x l Hs IH Hx]; [constructor|].
  rewrite reverse_cons. apply StronglySorted_app_2; [|done|repeat constructor].
  intros a b Ha Hb. apply list_elem_of_singleton in Hb as ->.
  rewrite elem_of_reverse in Ha. exact (proj1 (Forall_forall _ _) Hx a Ha).
Qed.

Lemma firstOfDay_strict (recs : list TourAnalytics.t) :
  newest_first recs →
  StronglySorted (λ a b, day_lt (localDay b) (localDay a)) (firstOfDay recs).
Proof.
  intros Hs.
  apply (StronglySorted_sublist _ _ _ (firstOfDay_sublist recs)) in Hs.
  pose proof (firstSeen_NoDup (map keyOf recs)) as Hnd.
  rewrite <- firstOfDay_keys in Hnd.
  induction Hs as [|r l Hs IH Hr]; [constructor|].
  simpl in Hnd. apply NoDup_cons in Hnd as [Hnot Hnd].
  constructor; [by apply IH|].
  apply Forall_forall. intros x Hx.
  destruct (proj1 (Forall_forall _ _) Hr x Hx) as [Hlt|Heq]; [done|].
  exfalso. apply Hnot. apply list_elem_of_fmap. exists x. split; [|done].
  by rewrite !keyOf_formatDay, Heq.
Qed.

Lemma firstOfDay_first (R : relation TourAnalytics.t)
    (recs : list TourAnalytics.t) (r : TourAnalytics.t) :
  StronglySorted R recs → r ∈ recs →
  ∃ r0, r0 ∈ firstOfDay recs ∧ keyOf r0 = keyOf r ∧ (r0 = r ∨ R r0 r).
Proof.
  induction 1 as [|a l Hs IH Ha]; intros Hr; [by apply elem_of_nil in Hr|].
  simpl. apply elem_of_cons in Hr as [->|Hr].
  - exists a. split; [by left|]. split; [done|by left].
  - destruct (String.eqb_spec (keyOf r) (keyOf a)) as [Heq|Hne].
    + exists a. split; [by left|]. split; [done|right].
      exact (proj1 (Forall_forall _ _) Ha r Hr).
    + destruct (IH Hr) as (r0 & Hr0 & Hk & Hrel).
      exists r0. split; [|done]. right.
      apply list_elem_of_In, filter_In. split; [by apply list_elem_of_In|].
      apply negb_true_iff, String.eqb_neq. congruence.
Qed.

Lemma map_reverse {A B} (f : A → B) (l : list A) :
  map f (reverse l) = reverse (map f l).
Proof. exact (fmap_reverse f l). Qed.

Lemma map_take {A B} (f : A → B) (n : nat) (l : list A) :
  map f (take n l) = take n (map f l).
Proof. exact (fmap_take f n l). Qed.

Lemma summarizeTour_pure (tour : Tour.t) (db : Db) :
  ∃ y, summarizeTour tour db = (inr y, db) ∧ True.
Proof. by eexists. Qed.

Lemma startedOn_day (r : TourAnalytics.t) (recs : list TourAnalytics.t) :
  startedOn (keyOf r) recs = startedOnDay (localDay r) recs.
Proof.
  rewrite startedOn_eq. change (startedOnDay (localDay r) recs) with
    (length (List.filter (λ r', bool_decide (localDay r' = localDay r)) recs)).
  f_equal. apply filter_ext_in. intros r' _.
  destruct (String.eqb_spec (keyOf r') (keyOf r)) as [Heq|Hne]; symmetry.
  - apply bool_decide_eq_true. by apply formatDay_inj.
  - apply bool_decide_eq_false. intros Hday. apply Hne.
    by rewrite !keyOf_formatDay, Hday.
Qed.

(** The buckets of [completionsByDay], for any store. *)
Lemma completionsByDay_buckets (db : Db) (ownerId : string) :
  ∃ summary (days : list Day),
    getOwnerAnalyticsSummary getFullYear getMonth getDate ownerId db =
      (inr summary, db) ∧
    OwnerSummary.completionsByDay summary =
      map (λ d, DayCount.mk (formatDay d) (startedOnDay d (window db))) days ∧
    (length days ≤ 7)%nat ∧
    NoDup days ∧
    map formatDay days = reverse (take 7 (firstSeen (map keyOf (window db)))) ∧
    (∀ d, d ∈ days → ∃ r, r ∈ window db ∧ localDay r = d) ∧
    (newest_first (window db) →
     StronglySorted day_lt days ∧
     ∀ r, r ∈ window db → localDay r ∉ days → Forall (day_lt (localDay r)) days).
Proof.
  unfold getOwnerAnalyticsSummary, Table.by_owner, Store.recent.
  destruct (mapM_pure (summarizeTour) (λ _ _, True)
              (filter (λ t, Tour.ownerId t = Some ownerId) (tours db)) db)
    as (perTour & HperTour & _).
  { intros tour _. apply summarizeTour_pure. }
  set (recent := window db).
  set (F := firstOfDay recent).
  eexists. exists (map localDay (reverse (take 7 F))). split.
  { unfold bind at 1. unfold bind at 1. rewrite HperTour.
    unfold bind at 1. reflexivity. }
  cbn [OwnerSummary.completionsByDay]. fold (window db). fold recent.
  rewrite countByDay_spec. unfold JsMap.entries.
  assert (map formatDay (map localDay (reverse (take 7 F))) =
          reverse (take 7 (firstSeen (map keyOf recent)))) as Hkeys.
  { unfold F. rewrite <- firstOfDay_keys, <- map_take, <- map_reverse.
    by rewrite map_map. }
  split.
  { rewrite <- firstOfDay_keys. fold F. unfold tabulate.
    rewrite map_map, <- map_take, <- map_reverse, !map_map. simpl.
    apply map_ext. intros r. f_equal. apply startedOn_day. }
  split.
  { rewrite length_map, length_reverse, length_take. lia. }
  split.
  { apply (NoDup_fmap_1 formatDay). change (NoDup (map formatDay (map localDay (reverse (take 7 F))))).
    rewrite Hkeys, reverse_Permutation.
    eapply sublist_NoDup; [apply firstSeen_NoDup|apply sublist_take]. }
  split; [exact Hkeys|].
  split.
  { intros d Hd. apply list_elem_of_fmap in Hd as (r & -> & Hr). exists r. split; [|done].
    rewrite elem_of_reverse in Hr. apply elem_of_take in Hr as (i & Hr & _).
    apply list_elem_of_lookup_2 in Hr.
    eapply elem_of_sublist; [done|apply firstOfDay_sublist]. }
  intros Hnewest.
  pose proof (firstOfDay_strict recent Hnewest) as Hstrict. fold F in Hstrict.
  assert (StronglySorted (λ a b, day_lt (localDay b) (localDay a)) (take 7 F)) as Htake.
  { rewrite <- (take_drop 7 F) in Hstrict.
    by apply StronglySorted_app_1_l in Hstrict. }
  split.
  { apply StronglySorted_reverse in Htake.
    eapply (StronglySorted_fmap localDay); [|exact Htake]. done. }
  intros r Hr Hout. apply Forall_forall. intros d Hd.
  apply list_elem_of_fmap in Hd as (x & -> & Hx). rewrite elem_of_reverse in Hx.
  destruct (firstOfDay_first _ recent r Hnewest Hr) as (r0 & Hr0 & Hkey & Hrel).
  fold F in Hr0.
  assert (r0 ∉ take 7 F) as Hnot.
  { intros Hin. apply Hout.
    rewrite !keyOf_formatDay in Hkey. apply formatDay_inj in Hkey. rewrite <- Hkey.
    apply list_elem_of_fmap. exists r0. split; [done|]. by rewrite elem_of_reverse. }
  rewrite <- (take_drop 7 F) in Hr0, Hstrict.
  apply elem_of_app in Hr0 as [Hr0|Hr0]; [done|].
  pose proof (StronglySorted_app_1_elem_of _ _ _ _ _ Hstrict Hx Hr0) as Hlt.
  simpl in Hlt. destruct Hrel as [->|Hle]; [done|].
  by eapply day_le_lt_trans.
Qed.

(** In a store the tracker has built with a clock that does not run
    backwards, records created later were not started on an earlier
    day. *)
Lemma newest_first_exec (cs : list Call) :
  monotone_clock cs →
  calendar_follows_clock getFullYear getMonth getDate cs →
  newest_first (window (exec cs emptyDb)).
Proof.
  intros Hclock Hcal.
  change (StronglySorted (λ a b, day_le (localDay b) (localDay a))
            (take 50 (reverse (tourAnalytics (exec cs emptyDb))))).
  apply (StronglySorted_sublist _ (reverse (tourAnalytics (exec cs emptyDb))));
    [apply sublist_take|].
  apply (StronglySorted_reverse (λ a b, day_le (localDay a) (localDay b))).
  apply (StronglySorted_map_inv
           (λ t t', day_le (dayAt getFullYear getMonth getDate t)
                           (dayAt getFullYear getMonth getDate t'))
           TourAnalytics.startedAt).
  rewrite started_exec. cbn [tourAnalytics emptyDb map app].
  apply (StronglySorted_weaken Z.le); [|by apply start_times_sorted].
  intros t t' Ht Ht' Hle.
  apply start_times_called in Ht as (c & Hc & <-).
  apply start_times_called in Ht' as (c' & Hc' & <-).
  exact (proj1 (Forall_forall _ _) (proj1 (Forall_forall _ _) Hcal c Hc) c' Hc' Hle).
Qed.

(** C7.  Whatever the owner, [getOwnerAnalyticsSummary] computes
    [completionsByDay] from the 50 most recently created records of the
    whole store, grouped by the local calendar day of their start
    timestamp.  The result has one bucket for each of at most 7 distinct
    days of the window, under the day's key and with the number of
    records of the window started on that day; the days are the first 7
    distinct ones met from the newest record on, listed in reverse.  In
    every store the tracker has built with a clock that does not run
    backwards (the local calendar day not going back over its readings
    either), these are the 7 most recent days of the window in
    chronological order, oldest first: the days strictly increase, and
    every record of another day was started before all of them.  The same
    holds of any store in which records created later were not started on
    an earlier day. *)
Theorem completionsByDay_recent_week (db : Db) (ownerId : string) :
  ∃ summary (days : list Day),
    getOwnerAnalyticsSummary getFullYear getMonth getDate ownerId db =
      (inr summary, db) ∧
    OwnerSummary.completionsByDay summary =
      map (λ d, DayCount.mk (formatDay d) (startedOnDay d (window db))) days ∧
    (length days ≤ 7)%nat ∧
    NoDup days ∧
    map formatDay days = reverse (take 7 (firstSeen (map keyOf (window db)))) ∧
    (∀ d, d ∈ days → ∃ r, r ∈ window db ∧ localDay r = d) ∧
    (∀ cs, db = exec cs emptyDb →
           monotone_clock cs →
           calendar_follows_clock getFullYear getMonth getDate cs →
           StronglySorted day_lt days ∧
           ∀ r, r ∈ window db → localDay r ∉ days → Forall (day_lt (localDay r)) days) ∧
    (newest_first (window db) →
     StronglySorted day_lt days ∧
     ∀ r, r ∈ window db → localDay r ∉ days → Forall (day_lt (localDay r)) days).
Proof.
  destruct (completionsByDay_buckets db ownerId)
    as (summary & days & Hrun & Hbuckets & Hlen & Hnd & Hkeys & Hdays & Hchron).
  exists summary, days. split; [exact Hrun|]. split; [exact Hbuckets|].
  split; [exact Hlen|]. split; [exact Hnd|]. split; [exact Hkeys|].
  split; [exact Hdays|]. split; [|exact Hchron].
  intros cs -> Hclock Hcal. apply Hchron. by apply newest_first_exec.
Qed.

End CompletionsByDay.

Lemma completionsByDay_recent_week_witness :
  two_a_day = exec two_a_day_calls emptyDb ∧
  monotone_clock two_a_day_calls ∧
  calendar_follows_clock Utc.getFullYear Utc.getMonth Utc.getDate two_a_day_calls ∧
  ∃ summary (days : list Day),
    getOwnerAnalyticsSummary Utc.getFullYear Utc.getMonth Utc.getDate "alice" two_a_day =
      (inr summary, two_a_day) ∧
    map DayCount.date (OwnerSummary.completionsByDay summary) =
      ["2024-10-30"; "2024-10-31"; "2024-11-1"; "2024-11-2"; "2024-11-3";
       "2024-11-4"; "2024-11-5"] ∧
    map DayCount.completions (OwnerSummary.completionsByDay summary) =
      [2; 2; 2; 2; 2; 2; 2]%nat ∧
    map DayCount.date (OwnerSummary.completionsByDay summary) = map formatDay days ∧
    StronglySorted day_lt days.
Proof.
  assert (two_a_day = exec two_a_day_calls emptyDb) as Hbuilt.
  { vm_compute. reflexivity. }
  assert (monotone_clock two_a_day_calls) as Hclock.
  { unfold monotone_clock. apply (bool_decide_unpack _). vm_compute. exact I. }
  assert (calendar_follows_clock Utc.getFullYear Utc.getMonth Utc.getDate
            two_a_day_calls) as Hcal.
  { unfold calendar_follows_clock. apply (bool_decide_unpack _). vm_compute. exact I. }
  split; [exact Hbuilt|]. split; [exact Hclock|]. split; [exact Hcal|].
  destruct (completionsByDay_recent_week Utc.getFullYear Utc.getMonth Utc.getDate
              two_a_day "alice")
    as (summary & days & Hrun & Hbuckets & _ & _ & _ & _ & Hchron & _).
  exists summary, days. split; [exact Hrun|].
  assert (summary = OwnerSummary.mk []
            (map (λ k, DayCount.mk k 2)
               ["2024-10-30"; "2024-10-31"; "2024-11-1"; "2024-11-2"; "2024-11-3";
                "2024-11-4"; "2024-11-5"])) as Hsummary.
  { vm_compute in Hrun. by injection Hrun as <-. }
  split; [by rewrite Hsummary|]. split; [by rewrite Hsummary|].
  split.
  - rewrite Hbuckets, map_map. done.
  - exact (proj1 (Hchron two_a_day_calls Hbuilt Hclock Hcal)).
Defined.

(** ** Step-level tallies *)

Lemma tabulate_ext {V} (f g : string → V) (ks : list string) :
  (∀ k, k ∈ ks → f k = g k) → tabulate f ks = tabulate g ks.
Proof.
  intros Hfg. unfold tabulate. apply map_ext_in. intros k Hk.
  f_equal. by apply Hfg, list_elem_of_In.
Qed.

Lemma member_tabulate (f : string → StepCount.t) (ks : list string) (k : string) :
  JsObject.inherited k = false →
  member (tabulate f ks) k = if decide (k ∈ ks) then Some (Own (f k)) else None.
Proof.
  intros Hk. unfold member. rewrite get_own_tabulate, Hk. by destruct (decide _).
Qed.

Lemma tally_present (f g : string → StepCount.t) (ks : list string)
    (e : StepProgress.t) :
  let k := StepProgress.stepId e in
  NoDup ks →
  JsObject.inherited k = false →
  k ∈ ks →
  g k = bump e (f k) →
  (∀ k', k' ≠ k → g k' = f k') →
  tally (tabulate f ks) e = tabulate g ks.
Proof.
  intros k Hnd Hk Hin Hg Hother. unfold tally. cbv zeta. fold k.
  rewrite member_tabulate, decide_True by done.
  rewrite member_tabulate, decide_True by done.
  set (c1 := StepCount.mk (StepCount.started (f k) + 1) (StepCount.completed (f k))).
  set (f2 := λ k', if String.eqb k' k then c1 else f k').
  assert (JsObject.set (tabulate f ks) k c1 = tabulate f2 ks) as ->.
  { apply set_tabulate_old; [done..|by unfold f2; rewrite String.eqb_refl|].
    intros k' Hk'. unfold f2. by rewrite (proj2 (String.eqb_neq k' k)). }
  unfold bump in Hg. destruct (Js.truthy (StepProgress.completedAt e)).
  - rewrite member_tabulate, decide_True by done.
    apply set_tabulate_old; [done..| |].
    + rewrite Hg. unfold f2. rewrite String.eqb_refl. done.
    + intros k' Hk'. unfold f2. rewrite (proj2 (String.eqb_neq k' k)) by done.
      by apply Hother.
  - apply tabulate_ext. intros k' _. unfold f2.
    destruct (String.eqb_spec k' k) as [->|Hne]; [|symmetry; by apply Hother].
    rewrite Hg. unfold c1. f_equal; lia.
Qed.

Lemma tally_absent (f : string → StepCount.t) (ks : list string)
    (e : StepProgress.t) :
  let k := StepProgress.stepId e in
  JsObject.inherited k = false →
  k ∉ ks →
  tally (tabulate f ks) e =
  tally (tabulate (λ k', if String.eqb k' k then StepCount.mk 0 0 else f k')
                  (ks ++ [k])) e.
Proof.
  intros k Hk Hnot.
  assert (JsObject.set (tabulate f ks) k (StepCount.mk 0 0) =
          tabulate (λ k', if String.eqb k' k then StepCount.mk 0 0 else f k')
                   (ks ++ [k])) as Hset.
  { apply set_tabulate_new; [done|by rewrite String.eqb_refl|].
    intros k' Hk'. by rewrite (proj2 (String.eqb_neq k' k)). }
  unfold tally. cbv zeta. fold k.
  rewrite (member_tabulate f ks k Hk), decide_False by done.
  rewrite (member_tabulate _ (ks ++ [k]) k Hk), decide_True
    by (apply elem_of_app; right; by left).
  by rewrite Hset.
Qed.

Lemma tally_tabulate (f g : string → StepCount.t) (ks : list string)
    (e : StepProgress.t) :
  let k := StepProgress.stepId e in
  NoDup ks →
  JsObject.inherited k = false →
  g k = bump e (if decide (k ∈ ks) then f k else StepCount.mk 0 0) →
  (∀ k', k' ≠ k → g k' = f k') →
  tally (tabulate f ks) e = tabulate g (if decide (k ∈ ks) then ks else ks ++ [k]).
Proof.
  intros k Hnd Hk Hg Hother. destruct (decide (k ∈ ks)) as [Hin|Hnot].
  - by apply tally_present.
  - rewrite tally_absent by done. fold k. apply tally_present.
    + apply NoDup_app. split; [done|]. split; [|apply NoDup_singleton].
      intros x Hx ->%list_elem_of_singleton. done.
    + done.
    + apply elem_of_app. right. by left.
    + fold k. by rewrite String.eqb_refl.
    + fold k. intros k' Hk'. rewrite (proj2 (String.eqb_neq k' k)) by done.
      by apply Hother.
Qed.

Lemma startedCount_snoc (k : string) (es : list StepProgress.t) (e : StepProgress.t) :
  startedCount k (es ++ [e]) =
  (startedCount k es + if String.eqb (StepProgress.stepId e) k then 1 else 0)%nat.
Proof.
  unfold startedCount. rewrite filter_snoc, length_app.
  by destruct (String.eqb (StepProgress.stepId e) k).
Qed.

Lemma truthyCount_snoc (k : string) (es : list StepProgress.t) (e : StepProgress.t) :
  truthyCount k (es ++ [e]) =
  (truthyCount k es +
   if String.eqb (StepProgress.stepId e) k && Js.truthy (StepProgress.completedAt e)
   then 1 else 0)%nat.
Proof.
  unfold truthyCount. rewrite filter_snoc, length_app.
  by destruct (String.eqb (StepProgress.stepId e) k && _).
Qed.

Lemma counts_absent (k : string) (es : list StepProgress.t) :
  k ∉ map StepProgress.stepId es → startedCount k es = 0%nat ∧ truthyCount k es = 0%nat.
Proof.
  unfold startedCount, truthyCount.
  induction es as [|e es IH]; simpl; intros Hnot; [done|].
  destruct (String.eqb_spec (StepProgress.stepId e) k) as [Heq|Hne].
  - exfalso. apply Hnot. rewrite Heq. by left.
  - simpl. apply IH. intros Hin. apply Hnot. by right.
Qed.

Lemma tally_spec (es : list StepProgress.t) :
  (∀ e, e ∈ es → JsObject.inherited (StepProgress.stepId e) = false) →
  foldl tally [] es =
  tabulate (λ k, StepCount.mk (startedCount k es) (truthyCount k es))
           (firstSeen (map StepProgress.stepId es)).
Proof.
  induction es as [|e es IH] using rev_ind; intros Hes; [done|].
  rewrite foldl_snoc, IH by (intros e' He'; apply Hes, elem_of_app; by left).
  rewrite map_app. cbn [map]. rewrite firstSeen_snoc.
  assert (JsObject.inherited (StepProgress.stepId e) = false) as He.
  { apply Hes, elem_of_app. right. by left. }
  rewrite (tally_tabulate _
             (λ k, StepCount.mk (startedCount k (es ++ [e])) (truthyCount k (es ++ [e])))
             _ e (firstSeen_NoDup _) He).
  - destruct (decide (StepProgress.stepId e ∈ map StepProgress.stepId es)) as [Hin|Hnot].
    + by rewrite decide_True by by apply firstSeen_elem.
    + by rewrite decide_False by by rewrite firstSeen_elem.
  - rewrite startedCount_snoc, truthyCount_snoc, String.eqb_refl. unfold bump. simpl.
    destruct (decide (StepProgress.stepId e ∈ firstSeen _)) as [Hin|Hnot]; [done|].
    rewrite firstSeen_elem in Hnot.
    destruct (counts_absent _ _ Hnot) as [-> ->]. done.
  - intros k' Hk'. rewrite startedCount_snoc, truthyCount_snoc.
    rewrite (proj2 (String.eqb_neq (StepProgress.stepId e) k')) by done.
    simpl. f_equal; lia.
Qed.

Lemma tallyAll_flat (analytics : list TourAnalytics.t) (o : JsObject.t StepCount.t) :
  foldl (λ o record, foldl tally o (TourAnalytics.stepProgress record)) o analytics =
  foldl tally o (concat (map TourAnalytics.stepProgress analytics)).
Proof.
  revert o. induction analytics as [|a l IH]; intros o; simpl; [done|].
  by rewrite foldl_app, IH.
Qed.

(** ** [Object.entries] *)

Section Entries.

Context {V : Type}.
Implicit Types (o : JsObject.t V) (l : list (N * (string * V))).

Lemma array_index_canonical (k : string) (n : N) :
  JsObject.array_index k = Some n → pretty n = k.
Proof.
  unfold JsObject.array_index. destruct k as [|a k]; [done|].
  destruct (JsObject.digits 0 (String a k)) as [m|]; [|done].
  destruct (String.eqb_spec (pretty m) (String a k)) as [Heq|]; [|done].
  simpl. destruct (m <? 4294967295)%N; [|done]. by intros [= <-].
Qed.

Lemma indexed_cons (k : string) (v : V) o :
  JsObject.indexed ((k, v) :: o) =
  match JsObject.array_index k with
  | Some n => (n, (k, v)) :: JsObject.indexed o
  | None => JsObject.indexed o
  end.
Proof. unfold JsObject.indexed. simpl. by destruct (JsObject.array_index k). Qed.

Lemma indexed_keys o :
  Forall (λ x, JsObject.array_index x.2.1 = Some x.1) (JsObject.indexed o).
Proof.
  induction o as [|[k v] o IH]; [constructor|]. rewrite indexed_cons.
  destruct (JsObject.array_index k) eqn:Hk; [|done]. by constructor.
Qed.

Lemma indexed_entries o :
  map snd (JsObject.indexed o) = List.filter (λ kv, JsObject.is_index kv.1) o.
Proof.
  induction o as [|[k v] o IH]; [done|]. rewrite indexed_cons. simpl.
  unfold JsObject.is_index at 1. destruct (JsObject.array_index k); simpl; by rewrite IH.
Qed.

Lemma insert_sorted_perm (n : N) (kv : string * V) l :
  JsObject.insert_sorted n kv l ≡ₚ (n, kv) :: l.
Proof.
  induction l as [|[m kv'] l IH]; simpl; [done|].
  destruct (n <? m)%N; [done|]. rewrite IH. apply Permutation_swap.
Qed.

Lemma sort_indexed_perm l : JsObject.sort_indexed l ≡ₚ l.
Proof.
  unfold JsObject.sort_indexed. induction l as [|[n kv] l IH]; simpl; [done|].
  by rewrite insert_sorted_perm, IH.
Qed.

Lemma insert_sorted_sorted (n : N) (kv : string * V) l :
  StronglySorted (λ a b, (a.1 ≤ b.1)%N) l →
  StronglySorted (λ a b, (a.1 ≤ b.1)%N) (JsObject.insert_sorted n kv l).
Proof.
  induction 1 as [|[m kv'] l Hl IH Hm]; simpl.
  - constructor; constructor.
  - destruct (N.ltb_spec n m) as [Hlt|Hge].
    + constructor; [by constructor|]. constructor; [simpl; lia|].
      eapply Forall_impl; [exact Hm|]. simpl. intros x Hx. lia.
    + constructor; [done|]. rewrite insert_sorted_perm. by constructor.
Qed.

Lemma sort_indexed_sorted l :
  StronglySorted (λ a b, (a.1 ≤ b.1)%N) (JsObject.sort_indexed l).
Proof.
  unfold JsObject.sort_indexed.
  induction l as [|[n kv] l IH]; simpl; [constructor|by apply insert_sorted_sorted].
Qed.

Lemma filter_partition {A} (p : A → bool) (l : list A) :
  List.filter p l ++ List.filter (λ x, negb (p x)) l ≡ₚ l.
Proof.
  induction l as [|x l IH]; simpl; [done|].
  destruct (p x); simpl; [by rewrite IH|].
  by rewrite <- Permutation_middle, IH.
Qed.

Lemma entries_perm o : JsObject.entries o ≡ₚ o.
Proof.
  unfold JsObject.entries, JsObject.named.
  rewrite (Permutation_map snd (sort_indexed_perm _)), indexed_entries.
  apply (filter_partition (λ kv, JsObject.is_index kv.1)).
Qed.

Lemma named_keys o :
  map fst (JsObject.named o) =
  List.filter (λ k, negb (JsObject.is_index k)) (map fst o).
Proof.
  unfold JsObject.named. induction o as [|[k v] o IH]; simpl; [done|].
  destruct (JsObject.is_index k); simpl; by rewrite IH.
Qed.

Lemma sorted_index_lt l :
  Forall (λ x, JsObject.array_index x.2.1 = Some x.1) l →
  NoDup (map (λ x, x.2.1) l) →
  StronglySorted (λ a b, (a.1 ≤ b.1)%N) l →
  StronglySorted index_lt (map (λ x, x.2.1) l).
Proof.
  intros Hkeys Hnd Hs. induction Hs as [|a l Hs IH Ha]; simpl; [constructor|].
  apply Forall_cons in Hkeys as [Hka Hkeys].
  simpl in Hnd. apply NoDup_cons in Hnd as [Hnot Hnd].
  constructor; [by apply IH|].
  apply Forall_forall. intros k Hk. apply list_elem_of_fmap in Hk as (b & -> & Hb).
  pose proof (proj1 (Forall_forall _ _) Hkeys b Hb) as Hkb.
  pose proof (proj1 (Forall_forall _ _) Ha b Hb) as Hle. simpl in Hkb, Hle.
  unfold index_lt. rewrite Hka, Hkb.
  destruct (decide (a.1 = b.1)) as [Heq|Hne]; [|lia].
  exfalso. apply Hnot. apply list_elem_of_fmap. exists b. split; [|done].
  apply array_index_canonical in Hka, Hkb. by rewrite <- Hka, <- Hkb, Heq.
Qed.

(** The order of [Object.entries]: array indices ascending, then the other
    property names as they were created. *)
Lemma entries_order o :
  NoDup (map fst o) →
  ∃ idx, map fst (JsObject.entries o) =
           idx ++ List.filter (λ k, negb (JsObject.is_index k)) (map fst o) ∧
         Forall (λ k, JsObject.is_index k = true) idx ∧
         StronglySorted index_lt idx ∧
         ((∀ k, k ∈ map fst o → JsObject.is_index k = false) → idx = []).
Proof.
  intros Hnd.
  exists (map (λ x, x.2.1) (JsObject.sort_indexed (JsObject.indexed o))).
  assert (map (λ x : N * (string * V), x.2.1) (JsObject.indexed o) =
          List.filter JsObject.is_index (map fst o)) as Hidx.
  { rewrite <- (map_map snd fst), indexed_entries.
    clear Hnd. induction o as [|[k v] o IH]; simpl; [done|].
    destruct (JsObject.is_index k); simpl; by rewrite IH. }
  split.
  { unfold JsObject.entries. by rewrite map_app, map_map, named_keys. }
  split.
  { apply Forall_forall. intros k Hk. apply list_elem_of_fmap in Hk as (x & -> & Hx).
    rewrite sort_indexed_perm in Hx.
    pose proof (proj1 (Forall_forall _ _) (indexed_keys o) x Hx) as Hkx.
    unfold JsObject.is_index. by rewrite Hkx. }
  split.
  { apply sorted_index_lt; [| |apply sort_indexed_sorted].
    - rewrite sort_indexed_perm. apply indexed_keys.
    - rewrite (Permutation_map _ (sort_indexed_perm _)), Hidx.
      by apply NoDup_List_filter. }
  intros Hnone.
  assert (JsObject.indexed o = []) as ->; [|done].
  apply (f_equal length) in Hidx. rewrite length_map in Hidx.
  rewrite (filter_ext_in JsObject.is_index (λ _, false)) in Hidx by done.
  assert (∀ l : list string, List.filter (λ _, false) l = []) as Hnil
    by (intros l; induction l; done).
  rewrite Hnil in Hidx. by destruct (JsObject.indexed o).
Qed.

End Entries.

(** ** Step-level rates *)

Lemma tabulate_keys {V} (f : string → V) (ks : list string) :
  map fst (tabulate f ks) = ks.
Proof. unfold tabulate. rewrite map_map. simpl. apply map_id. Qed.

Lemma tabulate_elem {V} (f : string → V) (ks : list string) (k : string) (v : V) :
  (k, v) ∈ tabulate f ks → k ∈ ks ∧ v = f k.
Proof.
  unfold tabulate. intros Hin. apply list_elem_of_fmap in Hin as (k' & [= -> ->] & Hk').
  done.
Qed.

Lemma tourEntries_stamped (tourId : string) (db : Db) (e : StepProgress.t) :
  stamped db → e ∈ tourEntries tourId db → StepProgress.completedAt e ≠ Some 0.
Proof.
  intros Hst He. unfold tourEntries in He.
  apply list_elem_of_In, in_concat in He as (sp & Hsp & He).
  apply list_elem_of_In, list_elem_of_fmap in Hsp as (a & -> & Ha).
  destruct (stamped_tourRecords tourId db a Hst Ha) as [_ Hes].
  apply (proj1 (Forall_forall _ _) Hes). by apply list_elem_of_In.
Qed.

Lemma truthyCount_completedCount (k : string) (es : list StepProgress.t) :
  (∀ e, e ∈ es → StepProgress.completedAt e ≠ Some 0) →
  truthyCount k es = completedCount k es.
Proof.
  intros Hes. unfold truthyCount, completedCount. f_equal.
  apply filter_ext_in. intros e He. by rewrite truthy_is_Some by by apply Hes.
Qed.

Lemma startedCount_pos (k : string) (es : list StepProgress.t) :
  k ∈ map StepProgress.stepId es → (1 ≤ startedCount k es)%nat.
Proof.
  unfold startedCount. induction es as [|e es IH]; simpl; intros Hin;
    [by apply elem_of_nil in Hin|].
  destruct (String.eqb_spec (StepProgress.stepId e) k) as [Heq|Hne]; simpl; [lia|].
  apply IH. apply elem_of_cons in Hin as [?|?]; [congruence|done].
Qed.

(** C5, as the code has it.  When no step identifier is a property name
    of [Object.prototype], [getTourAnalytics] emits exactly one pair per
    distinct step identifier found in the entries of the tour's records.
    The pairs whose identifier is an array index come first, in ascending
    numeric order, and the others follow in first-seen order; when no
    identifier is an array index, all are in first-seen order.  The rate of
    a step is [completed / started * 100], where [started] counts its
    entries (at least one) and [completed] those with a completion
    timestamp; one completed entry out of two gives 50. *)
Theorem stepCompletionRates_per_step (db : Db) (tourId : string) :
  stamped db →
  (∀ e, e ∈ tourEntries tourId db →
        JsObject.inherited (StepProgress.stepId e) = false) →
  ∃ rep, getTourAnalytics tourId db = (inr rep, db) ∧
    let es := tourEntries tourId db in
    let ids := map StepProgress.stepId es in
    let rates := TourReport.stepCompletionRates rep in
    let out := map StepRate.stepId rates in
    NoDup out ∧
    (∀ k, k ∈ out ↔ k ∈ ids) ∧
    (∃ idx, out = idx ++ List.filter (λ k, negb (JsObject.is_index k)) (firstSeen ids) ∧
            Forall (λ k, JsObject.is_index k = true) idx ∧
            StronglySorted index_lt idx) ∧
    ((∀ k, k ∈ ids → JsObject.is_index k = false) → out = firstSeen ids) ∧
    Forall (λ p,
              (1 ≤ startedCount (StepRate.stepId p) es)%nat ∧
              StepRate.completionRate p =
                percentage (completedCount (StepRate.stepId p) es)
                           (startedCount (StepRate.stepId p) es) ∧
              (startedCount (StepRate.stepId p) es = 2%nat →
               completedCount (StepRate.stepId p) es = 1%nat →
               StepRate.completionRate p = 50%float))
           rates.
Proof.
  intros Hst Hnames. eexists. split; [reflexivity|].
  cbv zeta. cbn [TourReport.stepCompletionRates].
  fold (tourRecords tourId db). unfold tallyAll.
  rewrite tallyAll_flat. fold (tourEntries tourId db).
  rewrite (tally_spec _ Hnames).
  set (es := tourEntries tourId db) in *.
  set (ids := map StepProgress.stepId es).
  set (F := λ k, StepCount.mk (startedCount k es) (truthyCount k es)).
  set (o := tabulate F (firstSeen ids)).
  assert (map StepRate.stepId
            (map (λ e : string * StepCount.t,
                    StepRate.mk e.1
                      (percentage (StepCount.completed e.2) (StepCount.started e.2)))
                 (JsObject.entries o)) = map fst (JsObject.entries o)) as ->.
  { rewrite map_map. done. }
  assert (map fst o = firstSeen ids) as Hkeys by apply tabulate_keys.
  assert (map fst (JsObject.entries o) ≡ₚ firstSeen ids) as Hperm.
  { rewrite <- Hkeys. apply Permutation_map, entries_perm. }
  destruct (entries_order o) as (idx & Hout & Hidx & Hsorted & Hnone).
  { rewrite Hkeys. apply firstSeen_NoDup. }
  rewrite Hkeys in Hout, Hnone.
  split. { rewrite Hperm. apply firstSeen_NoDup. }
  split. { intros k. rewrite Hperm. apply firstSeen_elem. }
  split. { by exists idx. }
  split.
  { intros Hall. rewrite Hout, Hnone.
    - simpl. apply filter_all. intros k Hk. rewrite firstSeen_elem in Hk.
      by rewrite (Hall k Hk).
    - intros k Hk. apply Hall. by apply firstSeen_elem. }
  apply Forall_forall. intros p Hp.
  apply list_elem_of_fmap in Hp as ([k c] & -> & Hkc). simpl.
  rewrite entries_perm in Hkc. apply tabulate_elem in Hkc as [Hk ->].
  rewrite firstSeen_elem in Hk. unfold F. simpl.
  rewrite (truthyCount_completedCount k es) by (intros e He; by eapply tourEntries_stamped).
  split; [by apply startedCount_pos|]. split; [done|].
  intros -> ->. vm_compute. reflexivity.
Qed.

Lemma stepCompletionRates_per_step_witness :
  stamped resumed_tour ∧
  (∀ e, e ∈ tourEntries "T" resumed_tour →
        JsObject.inherited (StepProgress.stepId e) = false) ∧
  ∃ rep, getTourAnalytics "T" resumed_tour = (inr rep, resumed_tour) ∧
         NoDup (map StepRate.stepId (TourReport.stepCompletionRates rep)) ∧
         TourReport.stepCompletionRates rep =
           [StepRate.mk "2" 100%float; StepRate.mk "3" 50%float;
            StepRate.mk "intro" 100%float].
Proof.
  assert (stamped resumed_tour) as Hst.
  { unfold stamped, resumed_tour. simpl. repeat constructor; discriminate. }
  assert (∀ e, e ∈ tourEntries "T" resumed_tour →
               JsObject.inherited (StepProgress.stepId e) = false) as Hnames.
  { apply Forall_forall. unfold tourEntries, resumed_tour. simpl.
    repeat constructor. }
  split; [exact Hst|]. split; [exact Hnames|].
  destruct (stepCompletionRates_per_step resumed_tour "T" Hst Hnames)
    as (rep & Hrun & Hnd & _).
  exists rep. split; [exact Hrun|]. split; [exact Hnd|].
  injection Hrun as <-. reflexivity.
Defined.

(** C5, as stated, fails on the order: a record resumed at step ["3"] that
    later completes step ["2"] is scanned in the order 3, 2, and the rates
    come out in the order 2, 3. *)
Lemma stepCompletionRates_not_first_seen :
  ∃ rep, getTourAnalytics "T" resumed_tour = (inr rep, resumed_tour) ∧
         firstSeen (map StepProgress.stepId (tourEntries "T" resumed_tour)) =
           ["3"; "2"; "intro"] ∧
         map StepRate.stepId (TourReport.stepCompletionRates rep) =
           ["2"; "3"; "intro"] ∧
         map StepRate.stepId (TourReport.stepCompletionRates rep) ≠
           firstSeen (map StepProgress.stepId (tourEntries "T" resumed_tour)).
Proof. eexists. split; [reflexivity|]. split; [reflexivity|]. split; [reflexivity|done]. Qed.

(** * Further properties of the tracker *)

(** ** Mutations as table updates *)

Lemma commit_patch (db : Db) (id : Id) (f : TourAnalytics.t → TourAnalytics.t) :
  commit (Store.patch_tourAnalytics id f ;;; ret id) db =
  match record id db with
  | Some _ => mkDb (patched id f (tourAnalytics db)) (tours db) (steps db)
  | None => db
  end.
Proof.
  unfold commit. destruct (record id db) as [r|] eqn:Hr.
  - by rewrite (patch_found _ _ _ _ Hr).
  - by rewrite patch_missing.
Qed.

Lemma commit_completeStep (db : Db) (id : Id) (s : string) (now : Z) :
  commit (completeStep id s now) db =
  match record id db with
  | Some r =>
      mkDb (patched id (TourAnalytics.set_stepProgress
                          (updateProgress (TourAnalytics.stepProgress r) s now))
                    (tourAnalytics db))
           (tours db) (steps db)
  | None => db
  end.
Proof.
  unfold commit. destruct (record id db) as [r|] eqn:Hr.
  - by rewrite (completeStep_found _ _ _ _ _ Hr).
  - by rewrite completeStep_missing.
Qed.

Lemma commit_startTour (db : Db) (tourId userId : string) (now : Z) (newId : Id)
    (created : Z) :
  commit (startTour tourId userId now newId created) db =
  mkDb (tourAnalytics db ++ [TourAnalytics.mk newId created tourId userId now None None []])
       (tours db) (steps db).
Proof. reflexivity. Qed.

Lemma record_patched (id id' : Id) (f : TourAnalytics.t → TourAnalytics.t)
    (db : Db) :
  (∀ d, TourAnalytics._id (f d) = TourAnalytics._id d) →
  record id' (mkDb (patched id f (tourAnalytics db)) (tours db) (steps db)) =
  if decide (id' = id) then f <$> record id db else record id' db.
Proof.
  intros Hf. unfold record, patched. simpl. destruct (decide (id' = id)) as [->|Hne].
  - by apply find_patch_same.
  - by apply find_patch_other.
Qed.

Lemma record_fresh (id : Id) (db : Db) : fresh id db → record id db = None.
Proof.
  unfold fresh, record. induction (tourAnalytics db) as [|d l IH]; simpl; [done|].
  intros Hnot. destruct (Store.has_id id d) eqn:Hd.
  - exfalso. apply Hnot. apply String.eqb_eq in Hd. rewrite Hd. by left.
  - apply IH. intros Hin. apply Hnot. by right.
Qed.

Lemma record_snoc (id : Id) (l : list TourAnalytics.t) (d : TourAnalytics.t) :
  List.find (Store.has_id id) (l ++ [d]) =
  match List.find (Store.has_id id) l with
  | Some r => Some r
  | None => if Store.has_id id d then Some d else None
  end.
Proof.
  induction l as [|x l IH]; simpl; [done|]. by destruct (Store.has_id id x).
Qed.

(** X1.  [startTour] stores, under the identifier the store picked, a
    record in progress: the given tour and user, the call time as start, no
    terminal timestamp and no entry.  It asks nothing about the tour.  The
    record is the newest of the store, and every record stored before is
    still found, unchanged. *)
Theorem startTour_opens_record (db : Db) (tourId userId : string) (now : Z)
    (newId : Id) (created : Z) :
  fresh newId db →
  ∃ db', startTour tourId userId now newId created db = (inr newId, db') ∧
    record newId db' =
      Some (TourAnalytics.mk newId created tourId userId now None None []) ∧
    head (reverse (tourAnalytics db')) =
      Some (TourAnalytics.mk newId created tourId userId now None None []) ∧
    (∀ id r, record id db = Some r → record id db' = Some r) ∧
    length (tourAnalytics db') = S (length (tourAnalytics db)) ∧
    tours db' = tours db ∧ steps db' = steps db.
Proof.
  intros Hfresh. eexists. split; [reflexivity|]. simpl.
  split.
  { unfold record; simpl. rewrite record_snoc.
    pose proof (record_fresh _ _ Hfresh) as Hnone. unfold record in Hnone.
    rewrite Hnone. unfold Store.has_id; simpl. by rewrite String.eqb_refl. }
  split; [by rewrite reverse_snoc|].
  split.
  { intros id r Hr. unfold record in *; simpl. by apply find_app_found. }
  split; [|done]. rewrite length_app. simpl. lia.
Qed.

Lemma startTour_opens_record_witness :
  fresh "a2" demo_db ∧
  ∃ db', startTour "no_such_tour" "" 3000 "a2" 3001 demo_db = (inr "a2", db') ∧
         record "a2" db' =
           Some (TourAnalytics.mk "a2" 3001 "no_such_tour" "" 3000 None None []) ∧
         record "a1" db' = Some demo_record.
Proof.
  assert (fresh "a2" demo_db) as Hfresh.
  { unfold fresh. simpl. intros Hin. apply list_elem_of_singleton in Hin. discriminate Hin. }
  split; [exact Hfresh|].
  destruct (startTour_opens_record demo_db "no_such_tour" "" 3000 "a2" 3001 Hfresh)
    as (db' & Hrun & Hnew & _ & Hold & _).
  exists db'. split; [exact Hrun|]. split; [exact Hnew|].
  apply Hold. reflexivity.
Defined.

(** X2.  The first [completeStep] for a step adds one entry at the end of
    the record's collection, with the call time as both start and
    completion timestamp; the entries the record had are kept as they
    were, in their order. *)
Theorem completeStep_first_time_appends (db : Db) (id : Id)
    (r : TourAnalytics.t) (s : string) (now : Z) :
  record id db = Some r →
  s ∉ stepIds r →
  ∃ db', completeStep id s now db = (inr id, db') ∧
    record id db' =
      Some (TourAnalytics.set_stepProgress
              (TourAnalytics.stepProgress r ++ [StepProgress.mk s now (Some now)]) r) ∧
    (∀ id', id' ≠ id → record id' db' = record id' db) ∧
    tours db' = tours db ∧ steps db' = steps db.
Proof.
  intros Hr Hs. eexists. split; [by apply completeStep_found|].
  split.
  { fold (patched id (TourAnalytics.set_stepProgress
                        (updateProgress (TourAnalytics.stepProgress r) s now))
                  (tourAnalytics db)).
    rewrite record_patched, decide_True by done. rewrite Hr. simpl.
    by rewrite updateProgress_new. }
  split; [|done]. intros id' Hne.
  fold (patched id (TourAnalytics.set_stepProgress
                      (updateProgress (TourAnalytics.stepProgress r) s now))
                (tourAnalytics db)).
  by rewrite record_patched, decide_False.
Qed.

Lemma completeStep_first_time_appends_witness :
  record "a1" demo_db = Some demo_record ∧ ("2" ∉ stepIds demo_record) ∧
  ∃ db', completeStep "a1" "2" 1020 demo_db = (inr "a1", db') ∧
    record "a1" db' =
      Some (TourAnalytics.mk "a1" 1000 "demo_tour" "u1" 1000 None None
              [StepProgress.mk "1" 1010 (Some 1010); StepProgress.mk "2" 1020 (Some 1020)]).
Proof.
  assert (record "a1" demo_db = Some demo_record) as Hr by reflexivity.
  assert ("2" ∉ stepIds demo_record) as Hs.
  { intros Hin. apply list_elem_of_singleton in Hin. discriminate Hin. }
  split; [exact Hr|]. split; [exact Hs|].
  destruct (completeStep_first_time_appends demo_db "a1" demo_record "2" 1020 Hr Hs)
    as (db' & Hrun & Hrec & _).
  exists db'. split; [exact Hrun|exact Hrec].
Defined.

(** ** What no call undoes *)

Lemma stepIds_prefix_updateProgress (sp : list StepProgress.t) (s : string) (now : Z) :
  map StepProgress.stepId sp `prefix_of`
  map StepProgress.stepId (updateProgress sp s now).
Proof.
  rewrite stepIds_updateProgress. destruct (decide _); [done|].
  by apply prefix_app_r.
Qed.

Lemma record_run_kept (c : Call) (db : Db) (id : Id) (r : TourAnalytics.t) :
  record id db = Some r →
  ∃ r', record id (commit (run c) db) = Some r' ∧
        same_attempt r r' ∧
        stepIds r `prefix_of` stepIds r' ∧
        (is_Some (TourAnalytics.completedAt r) → is_Some (TourAnalytics.completedAt r')) ∧
        (is_Some (TourAnalytics.abandonedAt r) → is_Some (TourAnalytics.abandonedAt r')).
Proof.
  intros Hr. destruct c as [t u now newId created|id' s now|id' now|id' now]; simpl.
  - exists r. rewrite commit_startTour. split; [|done].
    unfold record in *; simpl. by apply find_app_found.
  - rewrite commit_completeStep. destruct (record id' db) as [r0|] eqn:Hr0;
      [|by exists r].
    rewrite record_patched by done. destruct (decide (id = id')) as [->|Hne];
      [|by exists r].
    rewrite Hr. eexists. split; [done|]. rewrite Hr in Hr0. injection Hr0 as <-.
    split; [done|]. split; [|done]. apply stepIds_prefix_updateProgress.
  - unfold completeTour. rewrite commit_patch.
    destruct (record id' db) as [r0|] eqn:Hr0; [|by exists r].
    rewrite record_patched by done. destruct (decide (id = id')) as [->|Hne];
      [|by exists r].
    rewrite Hr. eexists. split; [done|]. split; [done|]. split; [done|].
    split; [by eexists|done].
  - unfold abandonTour. rewrite commit_patch.
    destruct (record id' db) as [r0|] eqn:Hr0; [|by exists r].
    rewrite record_patched by done. destruct (decide (id = id')) as [->|Hne];
      [|by exists r].
    rewrite Hr. eexists. split; [done|]. split; [done|]. split; [done|].
    split; [done|by eexists].
Qed.

(** X3.  Whatever calls follow, in whatever order and on whatever
    identifiers, a stored record stays stored under its identifier with the
    same tour, user, start and creation time; its entries are never removed
    or reordered (the old step identifiers are a prefix of the new ones);
    and a terminal timestamp, once set, is never cleared. *)
Theorem tracker_never_undoes (cs : list Call) (db : Db) (id : Id)
    (r : TourAnalytics.t) :
  record id db = Some r →
  ∃ r', record id (exec cs db) = Some r' ∧
        same_attempt r r' ∧
        stepIds r `prefix_of` stepIds r' ∧
        (is_Some (TourAnalytics.completedAt r) → is_Some (TourAnalytics.completedAt r')) ∧
        (is_Some (TourAnalytics.abandonedAt r) → is_Some (TourAnalytics.abandonedAt r')).
Proof.
  revert db r. induction cs as [|c cs IH]; intros db r Hr; [by exists r|].
  destruct (record_run_kept c db id r Hr) as (r1 & Hr1 & Hsame1 & Hpre1 & Hc1 & Ha1).
  destruct (IH _ r1 Hr1) as (r' & Hr' & Hsame & Hpre & Hc & Ha).
  exists r'. split; [done|]. split.
  { unfold same_attempt in *. destruct Hsame1 as (?&?&?&?&?), Hsame as (?&?&?&?&?).
    repeat split; congruence. }
  split; [by etrans|]. split; auto.
Qed.

Lemma tracker_never_undoes_witness :
  record "a1" demo_db = Some demo_record ∧
  ∃ r', record "a1" (exec [CompleteTour "a1" 2000; StartTour "other" "u2" 2001 "a1" 2001;
                           CompleteStep "a1" "0" 2002; AbandonTour "zz" 2003] demo_db)
          = Some r' ∧
        same_attempt demo_record r' ∧
        stepIds demo_record `prefix_of` stepIds r'.
Proof.
  assert (record "a1" demo_db = Some demo_record) as Hr by reflexivity.
  split; [exact Hr|].
  destruct (tracker_never_undoes
              [CompleteTour "a1" 2000; StartTour "other" "u2" 2001 "a1" 2001;
               CompleteStep "a1" "0" 2002; AbandonTour "zz" 2003]
              demo_db "a1" demo_record Hr) as (r' & Hr' & Hsame & Hpre & _).
  exists r'. split; [exact Hr'|]. split; [exact Hsame|exact Hpre].
Defined.

(** ** Identifiers *)

Lemma patched_ids (id : Id) (f : TourAnalytics.t → TourAnalytics.t)
    (l : list TourAnalytics.t) :
  (∀ d, TourAnalytics._id (f d) = TourAnalytics._id d) →
  map TourAnalytics._id (patched id f l) = map TourAnalytics._id l.
Proof.
  intros Hf. unfold patched. rewrite map_map. apply map_ext. intros d.
  by destruct (Store.has_id id d).
Qed.

Lemma run_ids (c : Call) (db : Db) :
  map TourAnalytics._id (tourAnalytics (commit (run c) db)) =
  map TourAnalytics._id (tourAnalytics db) ++
  match c with
  | StartTour _ _ _ newId _ => [newId]
  | _ => []
  end.
Proof.
  destruct c as [t u now newId created|id s now|id now|id now]; cbn [run].
  - rewrite commit_startTour. simpl. by rewrite map_app.
  - rewrite commit_completeStep, app_nil_r. destruct (record id db); [|done].
    by apply patched_ids.
  - unfold completeTour. rewrite commit_patch, app_nil_r.
    destruct (record id db); [|done]. by apply patched_ids.
  - unfold abandonTour. rewrite commit_patch, app_nil_r.
    destruct (record id db); [|done]. by apply patched_ids.
Qed.

Lemma admissible_unique (cs : list Call) (db : Db) :
  NoDup (map TourAnalytics._id (tourAnalytics db)) →
  admissible cs db →
  NoDup (map TourAnalytics._id (tourAnalytics (exec cs db))).
Proof.
  revert db. induction cs as [|c cs IH]; intros db Hnd Hadm; [done|].
  destruct Hadm as [Hc Hadm]. apply IH; [|done].
  rewrite run_ids. destruct c; rewrite ?app_nil_r; try done.
  apply NoDup_app. split; [done|]. split; [|apply NoDup_singleton].
  intros x Hx ->%list_elem_of_singleton. by apply Hc.
Qed.

(** X4.  In every store the tracker can reach, no two records share an
    identifier, and the records are those of the [startTour] calls, in
    call order: the other calls neither add nor drop a record. *)
Theorem reachable_records_unique (cs : list Call) :
  admissible cs emptyDb →
  NoDup (map TourAnalytics._id (tourAnalytics (exec cs emptyDb))) ∧
  map TourAnalytics._id (tourAnalytics (exec cs emptyDb)) =
    omap (λ c, match c with StartTour _ _ _ newId _ => Some newId | _ => None end) cs.
Proof.
  intros Hadm. split.
  { apply admissible_unique; [apply NoDup_nil_2|done]. }
  clear Hadm.
  assert (∀ db, map TourAnalytics._id (tourAnalytics (exec cs db)) =
                map TourAnalytics._id (tourAnalytics db) ++
                omap (λ c, match c with StartTour _ _ _ newId _ => Some newId
                                   | _ => None end) cs) as Hgen.
  { induction cs as [|c cs IH]; intros db; simpl; [by rewrite app_nil_r|].
    rewrite IH, run_ids, <- app_assoc. f_equal. by destruct c. }
  by rewrite Hgen.
Qed.

Lemma reachable_records_unique_witness :
  admissible (demo_calls ++ [StartTour "T" "u2" 5 "a2" 5; CompleteTour "a2" 6]) emptyDb ∧
  map TourAnalytics._id
      (tourAnalytics (exec (demo_calls ++ [StartTour "T" "u2" 5 "a2" 5; CompleteTour "a2" 6])
                           emptyDb)) = ["a1"; "a2"].
Proof.
  assert (admissible (demo_calls ++ [StartTour "T" "u2" 5 "a2" 5; CompleteTour "a2" 6])
                     emptyDb) as Hadm.
  { simpl. split; [apply not_elem_of_nil|]. split; [done|]. split; [|done].
    unfold fresh. simpl. intros Hin. apply list_elem_of_singleton in Hin. discriminate Hin. }
  split; [exact Hadm|].
  exact (proj2 (reachable_records_unique _ Hadm)).
Defined.

(** ** Order of arrival *)


Lemma applied_completeTour (db : Db) (id : Id) (now : Z) :
  commit (completeTour id now) db =
  applied id (λ _, TourAnalytics.set_completedAt now) db.
Proof. apply commit_patch. Qed.

Lemma applied_abandonTour (db : Db) (id : Id) (now : Z) :
  commit (abandonTour id now) db =
  applied id (λ _, TourAnalytics.set_abandonedAt now) db.
Proof. apply commit_patch. Qed.

Lemma has_id_fields (id : Id) (f : TourAnalytics.t → TourAnalytics.t)
    (d : TourAnalytics.t) :
  TourAnalytics._id (f d) = TourAnalytics._id d →
  Store.has_id id (f d) = Store.has_id id d.
Proof. unfold Store.has_id. by intros ->. Qed.



Lemma applied_twice (id : Id)
    (F G : TourAnalytics.t → TourAnalytics.t → TourAnalytics.t) (db : Db) :
  (∀ r d, TourAnalytics._id (F r d) = TourAnalytics._id d) →
  (∀ r r' d, G r' (F r d) = G r d) →
  (∀ r r', G (F r' r) = G r) →
  applied id G (applied id F db) = applied id G db.
Proof.
  intros HF HGF HG. unfold applied. destruct (record id db) as [r|] eqn:Hr.
  - rewrite record_patched, decide_True by done. rewrite Hr. simpl. f_equal.
    unfold patched. rewrite map_map. apply map_ext. intros d. rewrite HG.
    destruct (Store.has_id id d) eqn:Hd; rewrite ?has_id_fields, ?Hd by done; [|done].
    apply HGF.
  - by rewrite Hr.
Qed.

(** X6.  A terminal call repeated on a record overwrites: after two
    [completeTour] calls (or two [abandonTour] calls) the store is as if
    only the later one had been made, so the first completion time is not
    kept. *)
Theorem terminal_call_last_wins (db : Db) (id : Id) (t t' : Z) :
  exec [CompleteTour id t; CompleteTour id t'] db = exec [CompleteTour id t'] db ∧
  exec [AbandonTour id t; AbandonTour id t'] db = exec [AbandonTour id t'] db.
Proof.
  unfold exec. cbn [foldl run].
  rewrite !applied_completeTour, !applied_abandonTour.
  split; by apply applied_twice.
Qed.

(** ** Timestamps under a clock that does not run backwards *)

Lemma timely_later (t t' : Z) (r : TourAnalytics.t) :
  t ≤ t' → timely t r → timely t' r.
Proof.
  intros Htt (Hs & Hc & Ha & He). split; [lia|].
  split; [intros c Hcc; specialize (Hc c Hcc); lia|].
  split; [intros c Hcc; specialize (Ha c Hcc); lia|].
  eapply Forall_impl; [exact He|]. intros e (c & Hec & Hle). exists c. split; [done|lia].
Qed.

Lemma updateProgress_timely (t now : Z) (sp : list StepProgress.t) (s : string) :
  t ≤ now →
  Forall (λ e, ∃ c, StepProgress.completedAt e = Some c ∧ StepProgress.startedAt e ≤ c ≤ t) sp →
  Forall (λ e, ∃ c, StepProgress.completedAt e = Some c ∧ StepProgress.startedAt e ≤ c ≤ now)
         (updateProgress sp s now).
Proof.
  intros Hle Hsp.
  assert (Forall (λ e, ∃ c, StepProgress.completedAt e = Some c ∧
                            StepProgress.startedAt e ≤ c ≤ now) sp) as Hsp'.
  { eapply Forall_impl; [exact Hsp|]. intros e (c & Hc & ?). exists c. split; [done|lia]. }
  destruct (decide (s ∈ map StepProgress.stepId sp)) as [Hin|Hnot].
  - destruct (updateProgress_found sp s now Hin) as (i & e & Hl & _ & _ & ->).
    apply Forall_insert; [done|]. exists now. split; [done|]. simpl.
    destruct (proj1 (Forall_forall _ _) Hsp e (list_elem_of_lookup_2 _ _ _ Hl))
      as (c & _ & ?). lia.
  - rewrite updateProgress_new by done. apply Forall_app. split; [done|].
    apply Forall_singleton. exists now. split; [done|]. simpl. lia.
Qed.

Lemma timely_patched (t now : Z) (id : Id) (f : TourAnalytics.t → TourAnalytics.t)
    (l : list TourAnalytics.t) :
  t ≤ now →
  (∀ d, d ∈ l → timely t d → timely now (f d)) →
  Forall (timely t) l → Forall (timely now) (patched id f l).
Proof.
  intros Hle Hf Hl. apply Forall_forall. intros d' Hd'.
  apply list_elem_of_fmap in Hd' as (d & -> & Hd).
  pose proof (proj1 (Forall_forall _ _) Hl d Hd) as Ht.
  destruct (Store.has_id id d); [by apply Hf|by eapply timely_later].
Qed.

Lemma run_timely (c : Call) (t : Z) (db : Db) :
  t ≤ call_time c →
  Forall (timely t) (tourAnalytics db) →
  Forall (timely (call_time c)) (tourAnalytics (commit (run c) db)).
Proof.
  intros Hle Hinv. destruct c as [tid u now newId created|id s now|id now|id now];
    cbn [run call_time] in *.
  - rewrite commit_startTour. simpl. apply Forall_app. split.
    + eapply Forall_impl; [exact Hinv|]. intros r. by apply timely_later.
    + apply Forall_singleton. split; [simpl; lia|]. by split; [|split; [|constructor]].
  - rewrite commit_completeStep. destruct (record id db) as [r|] eqn:Hr.
    + simpl. apply (timely_patched t); [done| |done].
      intros d _ (Hs & Hc & Ha & _). unfold timely. simpl. split; [lia|].
      split; [intros c Hcc; specialize (Hc c Hcc); lia|].
      split; [intros c Hcc; specialize (Ha c Hcc); lia|].
      apply (updateProgress_timely t); [done|].
      destruct (record_elem _ _ _ Hr) as [Hin _].
      by destruct (proj1 (Forall_forall _ _) Hinv r Hin) as (_ & _ & _ & ?).
    + eapply Forall_impl; [exact Hinv|]. intros r. by apply timely_later.
  - unfold completeTour. rewrite commit_patch. destruct (record id db) as [r|] eqn:Hr.
    + simpl. apply (timely_patched t); [done| |done].
      intros d _ Hd. destruct (timely_later t now d Hle Hd) as (Hs & Hc & Ha & He).
      split; [done|]. split; [|done]. simpl. intros c [= <-]. lia.
    + eapply Forall_impl; [exact Hinv|]. intros r. by apply timely_later.
  - unfold abandonTour. rewrite commit_patch. destruct (record id db) as [r|] eqn:Hr.
    + simpl. apply (timely_patched t); [done| |done].
      intros d _ Hd. destruct (timely_later t now d Hle Hd) as (Hs & Hc & Ha & He).
      split; [done|]. split; [done|]. split; [|done]. simpl. intros c [= <-]. lia.
    + eapply Forall_impl; [exact Hinv|]. intros r. by apply timely_later.
Qed.

Lemma later_calls (t : Z) (cs : list Call) :
  Forall (Z.le t) (map call_time cs) → Forall (λ c, t ≤ call_time c) cs.
Proof.
  intros Hl. apply Forall_forall. intros c Hc.
  apply (proj1 (Forall_forall _ _) Hl). apply list_elem_of_fmap. by exists c.
Qed.

Lemma exec_timely (cs : list Call) (t : Z) (db : Db) :
  monotone_clock cs →
  Forall (λ c, t ≤ call_time c) cs →
  Forall (timely t) (tourAnalytics db) →
  ∃ t', Forall (timely t') (tourAnalytics (exec cs db)).
Proof.
  revert t db. induction cs as [|c cs IH]; intros t db Hmono Hge Hinv; [by exists t|].
  apply Forall_cons in Hge as [Hc _].
  unfold monotone_clock in Hmono. simpl in Hmono.
  apply StronglySorted_inv in Hmono as [Hmono Hlater].
  apply (IH (call_time c)); [done| |by apply (run_timely c t)].
  by apply later_calls.
Qed.

(** X7.  When the clock does not run backwards from one call to the next,
    no duration the store holds is negative: in every record the tracker
    has built, a terminal timestamp is not before the record's start, and
    every entry has a completion timestamp, not before the entry's start.
    (An entry is only ever written by [completeStep], so there is no entry
    without a completion timestamp.) *)
Theorem durations_never_negative (cs : list Call) (r : TourAnalytics.t) :
  monotone_clock cs →
  r ∈ tourAnalytics (exec cs emptyDb) →
  (∀ c, TourAnalytics.completedAt r = Some c → TourAnalytics.startedAt r ≤ c) ∧
  (∀ c, TourAnalytics.abandonedAt r = Some c → TourAnalytics.startedAt r ≤ c) ∧
  Forall (λ e, ∃ c, StepProgress.completedAt e = Some c ∧ StepProgress.startedAt e ≤ c)
         (TourAnalytics.stepProgress r).
Proof.
  intros Hmono Hr.
  assert (∃ t, Forall (λ c, t ≤ call_time c) cs) as [t Ht].
  { destruct cs as [|c cs]; [by exists 0|]. exists (call_time c).
    unfold monotone_clock in Hmono. simpl in Hmono.
    apply StronglySorted_inv in Hmono as [_ Hlater].
    constructor; [done|]. by apply later_calls. }
  destruct (exec_timely cs t emptyDb Hmono Ht) as [t' Hinv]; [constructor|].
  destruct (proj1 (Forall_forall _ _) Hinv r Hr) as (_ & Hc & Ha & He).
  split; [intros c Hcc; specialize (Hc c Hcc); lia|].
  split; [intros c Hcc; specialize (Ha c Hcc); lia|].
  eapply Forall_impl; [exact He|]. intros e (c & Hec & ?). exists c. split; [done|lia].
Qed.

Lemma durations_never_negative_witness :
  monotone_clock (demo_calls ++ [CompleteStep "a1" "1" 1010; CompleteTour "a1" 1500]) ∧
  ∃ r, r ∈ tourAnalytics
             (exec (demo_calls ++ [CompleteStep "a1" "1" 1010; CompleteTour "a1" 1500])
                   emptyDb) ∧
       TourAnalytics.completedAt r = Some 1500 ∧
       (∀ c, TourAnalytics.completedAt r = Some c → TourAnalytics.startedAt r ≤ c).
Proof.
  assert (monotone_clock
            (demo_calls ++ [CompleteStep "a1" "1" 1010; CompleteTour "a1" 1500])) as Hmono.
  { unfold monotone_clock. apply (bool_decide_unpack _). vm_compute. exact I. }
  split; [exact Hmono|].
  eexists. split; [apply list_elem_of_here|]. split; [reflexivity|].
  exact (proj1 (durations_never_negative _ _ Hmono (list_elem_of_here _ _))).
Defined.

(** * Further properties of the aggregator *)

(** ** Step identifiers that [Object.prototype] shadows *)

Lemma tally_inherited (o : JsObject.t StepCount.t) (e : StepProgress.t) :
  JsObject.inherited (StepProgress.stepId e) = true →
  JsObject.get_own o (StepProgress.stepId e) = None →
  tally o e = o.
Proof.
  intros Hk Hown. unfold tally, member. cbv zeta. rewrite Hk, Hown.
  cbv beta iota. rewrite Hown. cbv beta iota.
  destruct (Js.truthy _); [|done]. by rewrite Hown.
Qed.

Lemma reportable_names (es : list StepProgress.t) (e : StepProgress.t) :
  e ∈ reportable es → JsObject.inherited (StepProgress.stepId e) = false.
Proof.
  unfold reportable. intros He. apply list_elem_of_In, filter_In in He as [_ He].
  by apply negb_true_iff.
Qed.

Lemma tally_reportable (es : list StepProgress.t) :
  foldl tally [] es = foldl tally [] (reportable es).
Proof.
  induction es as [|e es IH] using rev_ind; [done|].
  assert (reportable (es ++ [e]) =
          reportable es ++
          if negb (JsObject.inherited (StepProgress.stepId e)) then [e] else []) as ->
    by exact (filter_snoc (λ e, negb (JsObject.inherited (StepProgress.stepId e))) es e).
  rewrite foldl_snoc, IH.
  destruct (JsObject.inherited (StepProgress.stepId e)) eqn:Hk; simpl.
  - rewrite app_nil_r. apply tally_inherited; [done|].
    rewrite (tally_spec _ (reportable_names es)), get_own_tabulate.
    rewrite decide_False; [done|]. rewrite firstSeen_elem. intros Hin.
    apply list_elem_of_fmap in Hin as (e' & Heq & He').
    apply reportable_names in He'. congruence.
  - by rewrite foldl_snoc.
Qed.

Lemma reported_steps (db : Db) (tourId : string) :
  ∃ rep, getTourAnalytics tourId db = (inr rep, db) ∧
    TourReport.totalStarted rep = length (tourRecords tourId db) ∧
    TourReport.totalCompleted rep =
      length (List.filter (λ a, Js.truthy (TourAnalytics.completedAt a))
                          (tourRecords tourId db)) ∧
    TourReport.completionRate rep =
      percentage (TourReport.totalCompleted rep) (TourReport.totalStarted rep) ∧
    TourReport.stepCompletionRates rep =
      map (λ e : string * StepCount.t,
             StepRate.mk e.1 (percentage (StepCount.completed e.2) (StepCount.started e.2)))
          (JsObject.entries
             (tabulate (λ k, StepCount.mk (startedCount k (reportable (tourEntries tourId db)))
                                           (truthyCount k (reportable (tourEntries tourId db))))
                       (firstSeen (map StepProgress.stepId
                                       (reportable (tourEntries tourId db)))))).
Proof.
  eexists. split; [reflexivity|]. simpl. fold (tourRecords tourId db).
  split; [done|]. split; [done|]. split; [done|]. unfold tallyAll.
  rewrite tallyAll_flat. fold (tourEntries tourId db).
  by rewrite tally_reportable, (tally_spec _ (reportable_names _)).
Qed.

(** X8.  A step whose identifier is a property name of [Object.prototype]
    (["constructor"], ["toString"], ["__proto__"], ...) is left out of
    [stepCompletionRates]: the pairs are exactly one per distinct
    identifier that is not such a name, and the store is not changed. *)
Theorem prototype_named_steps_unreported (db : Db) (tourId : string) :
  ∃ rep, getTourAnalytics tourId db = (inr rep, db) ∧
    let out := map StepRate.stepId (TourReport.stepCompletionRates rep) in
    NoDup out ∧
    ∀ k, k ∈ out ↔
         k ∈ map StepProgress.stepId (tourEntries tourId db) ∧
         JsObject.inherited k = false.
Proof.
  destruct (reported_steps db tourId) as (rep & Hrun & _ & _ & _ & Hrep).
  exists rep. split; [done|]. cbv zeta. rewrite Hrep. clear Hrep.
  rewrite map_map. cbn [StepRate.stepId].
  set (es := reportable (tourEntries tourId db)).
  set (o := tabulate _ _).
  assert (map (λ x : string * StepCount.t, x.1) (JsObject.entries o) ≡ₚ
          firstSeen (map StepProgress.stepId es)) as Hperm.
  { rewrite <- (tabulate_keys (λ k, StepCount.mk (startedCount k es) (truthyCount k es))
                              (firstSeen (map StepProgress.stepId es))).
    apply (Permutation_map fst), entries_perm. }
  split. { rewrite Hperm. apply firstSeen_NoDup. }
  intros k. rewrite Hperm, firstSeen_elem. unfold es, reportable. split.
  - intros Hk. apply list_elem_of_fmap in Hk as (e & -> & He).
    apply list_elem_of_In, filter_In in He as [He Hn]. split.
    + apply list_elem_of_fmap. exists e. split; [done|by apply list_elem_of_In].
    + by apply negb_true_iff.
  - intros [Hk Hn]. apply list_elem_of_fmap in Hk as (e & -> & He).
    apply list_elem_of_fmap. exists e. split; [done|].
    apply list_elem_of_In, filter_In. split; [by apply list_elem_of_In|].
    by rewrite Hn.
Qed.

(** ** Sizes *)

Lemma length_List_filter {A} (p : A → bool) (l : list A) :
  (length (List.filter p l) ≤ length l)%nat.
Proof. induction l as [|x l IH]; simpl; [done|]. destruct (p x); simpl; lia. Qed.

Lemma length_firstSeen (l : list string) : (length (firstSeen l) ≤ length l)%nat.
Proof.
  induction l as [|k l IH]; simpl; [done|].
  pose proof (length_List_filter (λ k', negb (String.eqb k' k)) (firstSeen l)). lia.
Qed.

(** X9.  [getTourAnalytics] never fails and never writes.  It reports no
    more completions than starts and no more step pairs than there are
    entries; for a tour without records (an unknown tour identifier
    included) the report is all zeros with no pair. *)
Theorem getTourAnalytics_bounds (db : Db) (tourId : string) :
  ∃ rep, getTourAnalytics tourId db = (inr rep, db) ∧
    (TourReport.totalCompleted rep ≤ TourReport.totalStarted rep)%nat ∧
    (length (TourReport.stepCompletionRates rep) ≤ length (tourEntries tourId db))%nat ∧
    (tourRecords tourId db = [] → rep = TourReport.mk 0 0 0%float []).
Proof.
  destruct (reported_steps db tourId) as (rep & Hrun & Hs & Hc & Hrate & Hsteps).
  exists rep. split; [done|]. split.
  { rewrite Hs, Hc. apply length_List_filter. }
  split.
  { rewrite Hsteps, length_map, (Permutation_length (entries_perm _)).
    unfold tabulate. rewrite length_map.
    etrans; [apply length_firstSeen|]. rewrite length_map. apply length_List_filter. }
  intros Hnone. destruct rep as [started completed rate rates]. simpl in *.
  unfold tourEntries in Hsteps. rewrite Hnone in Hs, Hc, Hsteps. simpl in *.
  subst. done.
Qed.

(** ** Stores built by the tracker *)

Lemma updateProgress_truthy (sp : list StepProgress.t) (s : string) (now : Z) :
  0 < now →
  Forall (λ e, Js.truthy (StepProgress.completedAt e) = true) sp →
  Forall (λ e, Js.truthy (StepProgress.completedAt e) = true) (updateProgress sp s now).
Proof.
  intros Hnow Hsp.
  assert (Js.truthy (Some now) = true) as Ht.
  { simpl. destruct (Z.eqb_spec now 0); [lia|done]. }
  destruct (decide (s ∈ map StepProgress.stepId sp)) as [Hin|Hnot].
  - destruct (updateProgress_found sp s now Hin) as (i & e & _ & _ & _ & ->).
    by apply Forall_insert.
  - rewrite updateProgress_new by done. apply Forall_app. split; [done|].
    by apply Forall_singleton.
Qed.

Lemma run_entries_truthy (c : Call) (db : Db) :
  0 < call_time c → entries_truthy db → entries_truthy (commit (run c) db).
Proof.
  intros Hnow Hinv. unfold entries_truthy in *.
  assert (∀ id f,
            (∀ d, d ∈ tourAnalytics db →
                  Forall (λ e, Js.truthy (StepProgress.completedAt e) = true)
                         (TourAnalytics.stepProgress (f d))) →
            Forall (λ r, Forall (λ e, Js.truthy (StepProgress.completedAt e) = true)
                                (TourAnalytics.stepProgress r))
                   (patched id f (tourAnalytics db))) as Hpatch.
  { intros id f Hf. apply Forall_forall. intros d' Hd'.
    apply list_elem_of_fmap in Hd' as (d & -> & Hd).
    destruct (Store.has_id id d); [by apply Hf|].
    exact (proj1 (Forall_forall _ _) Hinv d Hd). }
  destruct c as [tid u now newId created|id s now|id now|id now]; cbn [run call_time] in *.
  - rewrite commit_startTour. simpl. apply Forall_app. split; [done|].
    apply Forall_singleton. constructor.
  - rewrite commit_completeStep. destruct (record id db) as [r|] eqn:Hr; [|done].
    simpl. apply Hpatch. intros d _. simpl. apply updateProgress_truthy; [done|].
    destruct (record_elem _ _ _ Hr) as [Hin _].
    exact (proj1 (Forall_forall _ _) Hinv r Hin).
  - unfold completeTour. rewrite commit_patch. destruct (record id db); [|done].
    simpl. apply Hpatch. intros d Hd. simpl. exact (proj1 (Forall_forall _ _) Hinv d Hd).
  - unfold abandonTour. rewrite commit_patch. destruct (record id db); [|done].
    simpl. apply Hpatch. intros d Hd. simpl. exact (proj1 (Forall_forall _ _) Hinv d Hd).
Qed.

Lemma exec_entries_truthy (cs : list Call) (db : Db) :
  after_epoch cs → entries_truthy db → entries_truthy (exec cs db).
Proof.
  revert db. induction cs as [|c cs IH]; intros db Hcs Hinv; [done|].
  apply Forall_cons in Hcs as [Hc Hcs]. apply IH; [done|]. by apply run_entries_truthy.
Qed.

Lemma counts_all_truthy (k : string) (es : list StepProgress.t) :
  Forall (λ e, Js.truthy (StepProgress.completedAt e) = true) es →
  truthyCount k es = startedCount k es.
Proof.
  intros Hes. unfold truthyCount, startedCount. f_equal. apply filter_ext_in.
  intros e He. rewrite (proj1 (Forall_forall _ _) Hes e He). apply andb_true_r.
Qed.

Lemma startedCount_reportable (k : string) (es : list StepProgress.t) :
  JsObject.inherited k = false →
  startedCount k (reportable es) = startedCount k es.
Proof.
  intros Hk. unfold startedCount, reportable. rewrite filter_comm. f_equal.
  apply filter_all. intros e He. apply list_elem_of_In, filter_In in He as [_ He].
  apply String.eqb_eq in He. by rewrite He, Hk.
Qed.

(** X10.  In a store built by the tracker after the epoch, every step that
    [getTourAnalytics] reports is reported as completed as often as it was
    started: an entry exists only once [completeStep] has run for it, so
    each per-step rate is [n / n * 100] for the number [n >= 1] of entries
    of the step, whatever the users did. *)
Theorem tracked_steps_fully_completed (cs : list Call) (tourId : string) :
  after_epoch cs →
  ∃ rep, getTourAnalytics tourId (exec cs emptyDb) = (inr rep, exec cs emptyDb) ∧
    Forall (λ p, ∃ n, (1 ≤ n)%nat ∧
                      n = startedCount (StepRate.stepId p)
                                       (tourEntries tourId (exec cs emptyDb)) ∧
                      StepRate.completionRate p = percentage n n)
           (TourReport.stepCompletionRates rep).
Proof.
  intros Hcs. set (db := exec cs emptyDb).
  assert (entries_truthy db) as Hinv.
  { apply exec_entries_truthy; [done|]. unfold entries_truthy. simpl. constructor. }
  destruct (reported_steps db tourId) as (rep & Hrun & _ & _ & _ & Hsteps).
  exists rep. split; [done|]. rewrite Hsteps. apply Forall_forall. intros p Hp.
  apply list_elem_of_fmap in Hp as ([k c] & -> & Hkc). simpl.
  rewrite entries_perm in Hkc. apply tabulate_elem in Hkc as [Hk ->]. simpl.
  rewrite firstSeen_elem in Hk.
  assert (JsObject.inherited k = false) as Hname.
  { apply list_elem_of_fmap in Hk as (e & -> & He). by eapply reportable_names. }
  assert (Forall (λ e, Js.truthy (StepProgress.completedAt e) = true)
                 (reportable (tourEntries tourId db))) as Htruthy.
  { apply Forall_forall. intros e He. unfold reportable in He.
    apply list_elem_of_In, filter_In in He as [He _].
    unfold tourEntries in He. apply in_concat in He as (sp & Hsp & He).
    apply list_elem_of_In, list_elem_of_fmap in Hsp as (a & -> & Ha).
    unfold tourRecords in Ha. apply list_elem_of_filter in Ha as [_ Ha].
    pose proof (proj1 (Forall_forall _ _) Hinv a Ha) as Hsp.
    apply (proj1 (Forall_forall _ _) Hsp). by apply list_elem_of_In. }
  exists (startedCount k (tourEntries tourId db)). split.
  { rewrite <- (startedCount_reportable k _ Hname). by apply startedCount_pos. }
  split; [done|].
  by rewrite (counts_all_truthy k _ Htruthy), (startedCount_reportable k _ Hname).
Qed.

Lemma tracked_steps_fully_completed_witness :
  after_epoch (demo_calls ++ [CompleteStep "a1" "2" 1020]) ∧
  ∃ rep, getTourAnalytics "demo_tour" (exec (demo_calls ++ [CompleteStep "a1" "2" 1020]) emptyDb)
           = (inr rep, exec (demo_calls ++ [CompleteStep "a1" "2" 1020]) emptyDb) ∧
         TourReport.stepCompletionRates rep =
           [StepRate.mk "1" 100%float; StepRate.mk "2" 100%float].
Proof.
  assert (after_epoch (demo_calls ++ [CompleteStep "a1" "2" 1020])) as Hcs.
  { unfold after_epoch. simpl. repeat constructor. }
  split; [exact Hcs|].
  destruct (tracked_steps_fully_completed _ "demo_tour" Hcs) as (rep & Hrun & _).
  exists rep. split; [exact Hrun|]. injection Hrun as <-. reflexivity.
Defined.

(** ** Recent activity, field by field *)

Lemma getRecentActivity_shown (validId : string → bool)
    (elsewhere : Id → option (option string)) (db : Db) :
  ∃ activities,
    getRecentActivity validId elsewhere db = (inr activities, db) ∧
    Forall2 (shown validId elsewhere db) (take 10 (reverse (tourAnalytics db)))
            activities.
Proof.
  unfold getRecentActivity, Store.recent.
  edestruct (mapM_pure
    (λ record,
       let* tourName := resolveTourName validId elsewhere record in
       ret (Activity.mk
              (TourAnalytics._id record)
              (Js.or_else (TourAnalytics.userId record) "Anonymous")
              (if Js.truthy (TourAnalytics.completedAt record)
               then "completed" else "started")
              tourName
              (TourAnalytics._creationTime record)))
    (shown validId elsewhere db)) as (acts & Hacts & Hall);
    [|exists acts; split; [|exact Hall]].
  - intros r _. eexists. split.
    + unfold bind. rewrite resolveTourName_lookup. reflexivity.
    + unfold shown. simpl. split; [done|]. split; [done|]. split; [|done].
      unfold Js.or_else. destruct (String.eqb_spec (TourAnalytics.userId r) "");
        [by rewrite decide_True|by rewrite decide_False].
  - unfold bind at 1. unfold bind at 1. by rewrite Hacts.
Qed.

(** X11.  In the recent-activity view a record without user identifier is
    shown as ["Anonymous"], and the action is ["completed"] when the record
    has a completion timestamp and ["started"] otherwise: a record that was
    abandoned and not completed is shown as started, and no activity is
    ever shown as abandoned.  (A completion timestamp of 0 is falsy, and
    the record is shown as started.) *)
Theorem recent_activity_labels (validId : string → bool)
    (elsewhere : Id → option (option string)) (db : Db) :
  ∃ activities,
    getRecentActivity validId elsewhere db = (inr activities, db) ∧
    Forall2
      (λ r a,
         (TourAnalytics.userId r = "" → Activity.user a = "Anonymous") ∧
         (TourAnalytics.userId r ≠ "" → Activity.user a = TourAnalytics.userId r) ∧
         (Activity.action a = "completed" ∨ Activity.action a = "started") ∧
         (TourAnalytics.completedAt r = None → Activity.action a = "started") ∧
         (TourAnalytics.completedAt r = Some 0 → Activity.action a = "started") ∧
         (∀ t, TourAnalytics.completedAt r = Some t → t ≠ 0 →
               Activity.action a = "completed"))
      (take 10 (reverse (tourAnalytics db))) activities.
Proof.
  destruct (getRecentActivity_shown validId elsewhere db) as (acts & Hrun & Hall).
  exists acts. split; [done|]. eapply Forall2_impl; [exact Hall|].
  intros r a (_ & _ & Huser & Haction & _). rewrite Huser, Haction.
  split; [intros ?; by rewrite decide_True|].
  split; [intros ?; by rewrite decide_False|].
  split; [by destruct (Js.truthy _); [left|right]|].
  split; [by intros ->|]. split; [by intros ->|]. intros t -> Ht. simpl.
  by destruct (Z.eqb_spec t 0).
Qed.

(** X12.  A tour just started is the first recent activity: right after
    [startTour] the list opens with the new record, shown as started at its
    creation time, and holds at most nine older activities after it. *)
Theorem started_tour_shows_first (validId : string → bool)
    (elsewhere : Id → option (option string)) (db : Db)
    (tourId userId : string) (now : Z) (newId : Id) (created : Z) :
  ∃ a older,
    getRecentActivity validId elsewhere
      (commit (startTour tourId userId now newId created) db) =
      (inr (a :: older), commit (startTour tourId userId now newId created) db) ∧
    Activity.id a = newId ∧
    Activity.action a = "started" ∧
    Activity.timestamp a = created ∧
    (length older ≤ 9)%nat.
Proof.
  destruct (getRecentActivity_shown validId elsewhere
              (commit (startTour tourId userId now newId created) db))
    as (acts & Hrun & Hall).
  rewrite commit_startTour in Hall. cbn [tourAnalytics] in Hall.
  rewrite reverse_snoc in Hall. simpl in Hall.
  apply Forall2_cons_inv_l in Hall as (a & older & (Hid & Hts & _ & Haction & _) & Hrest & ->).
  exists a, older. split; [done|]. split; [done|]. split; [done|]. split; [done|].
  apply Forall2_length in Hrest. rewrite <- Hrest, length_take. lia.
Qed.

(** ** Owner summary *)

Section OwnerSummaryFacts.

Variables getFullYear getMonth getDate : Z → Z.

Lemma getOwnerAnalyticsSummary_value (db : Db) (ownerId : string) :
  ∃ perTour,
    mapM summarizeTour (filter (λ t, Tour.ownerId t = Some ownerId) (tours db)) db =
      (inr perTour, db) ∧
    getOwnerAnalyticsSummary getFullYear getMonth getDate ownerId db =
      (inr (OwnerSummary.mk perTour
              (map (λ e, DayCount.mk e.1 e.2)
                   (reverse (take 7 (countByDay getFullYear getMonth getDate (window db)))))),
       db) ∧
    Forall2
      (λ tour s,
         TourSummary.tourId s = Tour._id tour ∧
         TourSummary.name s = Tour.name tour ∧
         TourSummary.stepsCount s =
           match Tour.steps tour with Some l => length l | None => 0%nat end ∧
         ∃ rep, getTourAnalytics (Tour._id tour) db = (inr rep, db) ∧
                TourSummary.completionRate s = TourReport.completionRate rep)
      (filter (λ t, Tour.ownerId t = Some ownerId) (tours db)) perTour.
Proof.
  edestruct (mapM_pure summarizeTour
    (λ tour s,
       TourSummary.tourId s = Tour._id tour ∧
       TourSummary.name s = Tour.name tour ∧
       TourSummary.stepsCount s =
         match Tour.steps tour with Some l => length l | None => 0%nat end ∧
       ∃ rep, getTourAnalytics (Tour._id tour) db = (inr rep, db) ∧
              TourSummary.completionRate s = TourReport.completionRate rep))
    as (perTour & HperTour & Hall).
  { intros tour _. eexists. split; [reflexivity|]. simpl.
    split; [done|]. split; [done|]. split; [done|].
    eexists. split; [reflexivity|]. done. }
  exists perTour. split; [exact HperTour|]. split; [|exact Hall].
  unfold getOwnerAnalyticsSummary, Table.by_owner, Store.recent.
  unfold bind at 1. unfold bind at 1. rewrite HperTour.
  unfold bind at 1. reflexivity.
Qed.

(** X13.  The owner summary lists the owner's tours, one entry each and
    in creation order, with the tour's name and the number of its
    configured steps (0 when the tour has no step list); the completion
    rate of an entry is the one [getTourAnalytics] reports for that tour.
    An owner without tours gets an empty list. *)
Theorem owner_summary_per_tour (db : Db) (ownerId : string) :
  ∃ summary,
    getOwnerAnalyticsSummary getFullYear getMonth getDate ownerId db = (inr summary, db) ∧
    Forall2
      (λ tour s,
         TourSummary.tourId s = Tour._id tour ∧
         TourSummary.name s = Tour.name tour ∧
         TourSummary.stepsCount s =
           match Tour.steps tour with Some l => length l | None => 0%nat end ∧
         ∃ rep, getTourAnalytics (Tour._id tour) db = (inr rep, db) ∧
                TourSummary.completionRate s = TourReport.completionRate rep)
      (filter (λ t, Tour.ownerId t = Some ownerId) (tours db))
      (OwnerSummary.perTour summary) ∧
    ((∀ t, t ∈ tours db → Tour.ownerId t ≠ Some ownerId) →
     OwnerSummary.perTour summary = []).
Proof.
  destruct (getOwnerAnalyticsSummary_value db ownerId) as (perTour & _ & Hrun & Hall).
  eexists. split; [exact Hrun|]. split; [exact Hall|]. simpl.
  intros Hnone.
  assert (filter (λ t, Tour.ownerId t = Some ownerId) (tours db) = []) as Hnil.
  { clear Hall. revert Hnone. generalize (tours db). intros l.
    induction l as [|t l IH]; intros Hnone; [done|]. rewrite filter_cons.
    rewrite decide_False by (apply Hnone; by left).
    apply IH. intros t' Ht'. apply Hnone. by right. }
  rewrite Hnil in Hall. by apply Forall2_nil_inv_l in Hall.
Qed.

Lemma sum_set (m : JsMap.t nat) (k : string) :
  sum_list (map snd (JsMap.set m k (default 0%nat (JsMap.get m k) + 1)%nat)) =
  S (sum_list (map snd m)).
Proof.
  unfold JsMap.set, JsMap.get, JsObject.get_own.
  induction m as [|[k' v] m IH]; simpl; [done|].
  destruct (String.eqb_spec k' k) as [->|Hne]; simpl; [lia|].
  rewrite IH. lia.
Qed.

Lemma sum_countByDay (recs : list TourAnalytics.t) :
  sum_list (map snd (countByDay getFullYear getMonth getDate recs)) = length recs.
Proof.
  induction recs as [|r recs IH] using rev_ind; [done|].
  rewrite countByDay_snoc, sum_set, IH, length_app. simpl. lia.
Qed.

Lemma sum_take (n : nat) (l : list nat) : (sum_list (take n l) ≤ sum_list l)%nat.
Proof.
  revert n. induction l as [|x l IH]; intros [|n]; simpl; try lia.
  specialize (IH n). lia.
Qed.

Lemma length_recent (n : nat) (db : Db) :
  (length (take n (reverse (tourAnalytics db))) ≤ n)%nat.
Proof. rewrite length_take. lia. Qed.

(** X14.  The day buckets never count a record twice: their counts add up
    to at most the size of the window, hence to at most 50, and to
    exactly the size of the window when it spans no more than 7 day keys.
    With no record in the store there is no bucket. *)
Theorem completionsByDay_total (db : Db) (ownerId : string) :
  ∃ summary,
    getOwnerAnalyticsSummary getFullYear getMonth getDate ownerId db = (inr summary, db) ∧
    let total := sum_list (map DayCount.completions (OwnerSummary.completionsByDay summary)) in
    (total ≤ length (window db))%nat ∧
    (total ≤ 50)%nat ∧
    ((length (countByDay getFullYear getMonth getDate (window db)) ≤ 7)%nat →
     total = length (window db)) ∧
    (tourAnalytics db = [] → OwnerSummary.completionsByDay summary = []).
Proof.
  destruct (getOwnerAnalyticsSummary_value db ownerId) as (perTour & _ & Hrun & _).
  eexists. split; [exact Hrun|]. cbv zeta. cbn [OwnerSummary.completionsByDay].
  set (m := countByDay getFullYear getMonth getDate (window db)).
  assert (sum_list (map DayCount.completions
                        (map (λ e : string * nat, DayCount.mk e.1 e.2) (reverse (take 7 m)))) =
          sum_list (take 7 (map snd m))) as ->.
  { rewrite map_map. simpl. rewrite map_reverse, map_take.
    exact (sum_list_with_reverse id _). }
  pose proof (sum_countByDay (window db)) as Hsum. fold m in Hsum.
  pose proof (sum_take 7 (map snd m)) as Htake.
  split; [lia|]. split.
  { unfold window in *. pose proof (length_recent 50 db). lia. }
  split.
  { intros Hlen. rewrite take_ge; [done|]. by rewrite length_map. }
  intros Hempty. unfold m, window. by rewrite Hempty.
Qed.

End OwnerSummaryFacts.

(** * Further properties of [deleteStep] *)

(** The store an authorised [deleteStep] leaves behind. *)
Lemma deleteStep_store (db : Db) (identity : Identity.t) (id : Id)
    (step : Step.t) (tour : Tour.t) :
  NoDup (map Step._id (steps db)) →
  List.find (λ s, String.eqb (Step._id s) id) (steps db) = Some step →
  List.find (λ t, String.eqb (Tour._id t) (Step.tourId step)) (tours db) = Some tour →
  Tour.userId tour = Some (Identity.subject identity) →
  ∃ rem,
    deleteStep (Some identity) id db =
    (inr (),
     mkDb (tourAnalytics db) (tours db)
          (map (renumbered 0 rem)
               (List.filter (λ s, negb (String.eqb (Step._id s) id)) (steps db)))).
Proof.
  intros Hnd Hstep Htour Howner.
  rewrite (deleteStep_authorized db identity id step tour Hstep Htour Howner).
  set (t := Step.tourId step).
  set (S1 := List.filter (λ s, negb (String.eqb (Step._id s) id)) (steps db)).
  set (rem := Table.sort_by_order
                (List.filter (λ s, String.eqb (Step.tourId s) t) S1)).
  assert (rem ≡ₚ List.filter (λ s, String.eqb (Step.tourId s) t) S1) as Hrem
    by apply sort_by_order_perm.
  exists rem. apply renumber_spec.
  - rewrite Hrem. by do 2 apply NoDup_filter_ids.
  - simpl. intros r Hr. apply list_elem_of_fmap. exists r. split; [done|].
    rewrite Hrem in Hr. apply list_elem_of_In, filter_In in Hr as [Hr _].
    by apply list_elem_of_In.
Qed.

Lemma find_renumbered_none (id : Id) (i : nat) (rem l : list Step.t) :
  List.find (λ s, String.eqb (Step._id s) id) l = None →
  List.find (λ s, String.eqb (Step._id s) id) (map (renumbered i rem) l) = None.
Proof.
  induction l as [|s l IH]; simpl; [done|].
  destruct (renumbered_fields i rem s) as (-> & _ & _).
  destruct (String.eqb (Step._id s) id); [done|]. exact IH.
Qed.

Lemma find_filtered_none (id : Id) (l : list Step.t) :
  List.find (λ s, String.eqb (Step._id s) id)
            (List.filter (λ s, negb (String.eqb (Step._id s) id)) l) = None.
Proof.
  induction l as [|s l IH]; simpl; [done|].
  destruct (String.eqb (Step._id s) id) eqn:Heq; simpl; [done|].
  by rewrite Heq.
Qed.

Lemma map_filter_ids (id : Id) (l : list Step.t) :
  map Step._id (List.filter (λ s, negb (String.eqb (Step._id s) id)) l) =
  List.filter (λ i, negb (String.eqb i id)) (map Step._id l).
Proof.
  induction l as [|s l IH]; simpl; [done|].
  destruct (String.eqb (Step._id s) id); simpl; by rewrite IH.
Qed.

(** X15.  [deleteStep] removes the one step asked for and nothing else:
    the tours and the analytics records are left as they were (deleting a
    step never cascades), the other steps stay in the store in creation
    order with their identifier, tour and step name, and only their
    [order] may change.  The step is really gone: asking again for the
    same deletion is answered with "Not found". *)
Theorem deleteStep_removes_one_step (db : Db) (identity : Identity.t) (id : Id)
    (step : Step.t) (tour : Tour.t) :
  NoDup (map Step._id (steps db)) →
  List.find (λ s, String.eqb (Step._id s) id) (steps db) = Some step →
  List.find (λ t, String.eqb (Tour._id t) (Step.tourId step)) (tours db) = Some tour →
  Tour.userId tour = Some (Identity.subject identity) →
  ∃ db', deleteStep (Some identity) id db = (inr (), db') ∧
    tourAnalytics db' = tourAnalytics db ∧
    tours db' = tours db ∧
    map Step._id (steps db') =
      List.filter (λ i, negb (String.eqb i id)) (map Step._id (steps db)) ∧
    Forall2 (λ s s', Step._id s' = Step._id s ∧ Step.tourId s' = Step.tourId s ∧
                     Step.stepId s' = Step.stepId s)
            (List.filter (λ s, negb (String.eqb (Step._id s) id)) (steps db))
            (steps db') ∧
    (id ∉ map Step._id (steps db')) ∧
    deleteStep (Some identity) id db' = (inl (Error "Not found"), db').
Proof.
  intros Hnd Hstep Htour Howner.
  destruct (deleteStep_store db identity id step tour Hnd Hstep Htour Howner)
    as (rem & Hrun).
  eexists. split; [exact Hrun|]. cbn [tourAnalytics tours steps].
  split; [done|]. split; [done|]. split.
  { by rewrite renumbered_ids, map_filter_ids. }
  split.
  { apply Forall2_fmap_r, Forall_Forall2_diag, Forall_forall. intros s _.
    apply renumbered_fields. }
  split.
  { rewrite renumbered_ids, map_filter_ids. intros Hin.
    apply list_elem_of_In, filter_In in Hin as [_ Hin].
    by rewrite String.eqb_refl in Hin. }
  unfold deleteStep, bind, Table.get_step. cbn [steps].
  by rewrite (find_renumbered_none id 0 rem _ (find_filtered_none id (steps db))).
Qed.

Lemma deleteStep_removes_one_step_witness :
  ∃ db', deleteStep (Some (Identity.mk "alice")) "s3" five_steps = (inr (), db') ∧
         tourAnalytics db' = tourAnalytics five_steps ∧
         map Step._id (steps db') = ["s1"; "s2"; "s4"; "s5"] ∧
         deleteStep (Some (Identity.mk "alice")) "s3" db' =
           (inl (Error "Not found"), db').
Proof.
  assert (NoDup (map Step._id (steps five_steps))) as Hnd.
  { apply (bool_decide_unpack _). vm_compute. exact I. }
  destruct (deleteStep_removes_one_step five_steps (Identity.mk "alice") "s3"
              (Step.mk "s3" "t1" "step-3" 3)
              (Tour.mk "t1" (Some "Onboarding") None (Some "alice") None)
              Hnd eq_refl eq_refl eq_refl)
    as (db' & Hrun & Hta & _ & Hids & _ & _ & Hagain).
  exists db'. split; [exact Hrun|]. split; [exact Hta|].
  split; [exact Hids|exact Hagain].
Defined.

Lemma may_delete_dec (identity : option Identity.t) (id : Id) (db : Db) :
  may_delete identity id db ∨ ¬ may_delete identity id db.
Proof.
  unfold may_delete. destruct identity as [i|].
  2:{ right. by intros (? & ? & ? & ? & _). }
  destruct (List.find (λ s, String.eqb (Step._id s) id) (steps db)) as [step|] eqn:Hstep.
  2:{ right. by intros (? & ? & ? & _ & ? & _). }
  destruct (List.find (λ t, String.eqb (Tour._id t) (Step.tourId step)) (tours db))
    as [tour|] eqn:Htour.
  2:{ right. intros (? & ? & ? & _ & [= <-] & ? & _). congruence. }
  destruct (decide (Tour.userId tour = Some (Identity.subject i))) as [Howner|Hno].
  - left. by exists i, step, tour.
  - right. intros (? & ? & ? & [= <-] & [= <-] & ? & ?). congruence.
Qed.

(** X16.  [deleteStep] succeeds exactly for a signed-in caller who asks
    for an existing step of an existing tour whose [userId] is the
    caller's subject.  In every other case it throws one of the two
    errors "Unauthorized" and "Not found" and the store is left as it
    was; "Not found" is only ever told to a signed-in caller, so an
    anonymous caller cannot learn which steps exist. *)
Theorem deleteStep_outcomes (db : Db) (identity : option Identity.t) (id : Id) :
  NoDup (map Step._id (steps db)) →
  ((∃ db', deleteStep identity id db = (inr (), db')) ↔ may_delete identity id db) ∧
  (¬ may_delete identity id db →
   ∃ msg, deleteStep identity id db = (inl (Error msg), db) ∧
          (msg = "Unauthorized" ∨ msg = "Not found" ∧ identity ≠ None)).
Proof.
  intros Hnd.
  assert (¬ may_delete identity id db →
          ∃ msg, deleteStep identity id db = (inl (Error msg), db) ∧
                 (msg = "Unauthorized" ∨ msg = "Not found" ∧ identity ≠ None))
    as Hrefused.
  { intros Hno. unfold deleteStep. destruct identity as [i|].
    2:{ exists "Unauthorized". split; [done|by left]. }
    unfold bind at 1. unfold Table.get_step at 1.
    destruct (List.find _ (steps db)) as [step|] eqn:Hstep.
    2:{ exists "Not found". split; [done|]. right. by split. }
    unfold bind at 1. unfold Table.get_tour at 1.
    destruct (List.find _ (tours db)) as [tour|] eqn:Htour.
    2:{ exists "Unauthorized". split; [done|by left]. }
    case_bool_decide as Howner.
    { exfalso. apply Hno. by exists i, step, tour. }
    exists "Unauthorized". split; [done|by left]. }
  split; [|exact Hrefused]. split.
  - intros (db' & Hrun).
    destruct (may_delete_dec identity id db) as [Hmay|Hno]; [done|].
    destruct (Hrefused Hno) as (msg & Hthrow & _). congruence.
  - intros (i & step & tour & -> & Hstep & Htour & Howner).
    destruct (deleteStep_store db i id step tour Hnd Hstep Htour Howner)
      as (rem & Hrun).
    eexists. exact Hrun.
Qed.

Lemma deleteStep_outcomes_witness :
  NoDup (map Step._id (steps five_steps)) ∧
  ((∃ db', deleteStep (Some (Identity.mk "bob")) "s3" five_steps = (inr (), db')) ↔
   may_delete (Some (Identity.mk "bob")) "s3" five_steps) ∧
  (¬ may_delete (Some (Identity.mk "bob")) "s3" five_steps →
   ∃ msg, deleteStep (Some (Identity.mk "bob")) "s3" five_steps =
            (inl (Error msg), five_steps) ∧
          (msg = "Unauthorized" ∨
           msg = "Not found" ∧ Some (Identity.mk "bob") ≠ None)).
Proof.
  assert (NoDup (map Step._id (steps five_steps))) as Hnd.
  { apply (bool_decide_unpack _). vm_compute. exact I. }
  split; [exact Hnd|].
  exact (deleteStep_outcomes five_steps (Some (Identity.mk "bob")) "s3" Hnd).
Defined.

(** * Tour configurations *)

Lemma find_snoc_fresh (id : Id) (ts : Tours.Table) (d : TourDoc.t) :
  TourDoc._id d ∉ map TourDoc._id ts →
  Tours.find id (ts ++ [d]) =
  if String.eqb (TourDoc._id d) id then Some d else Tours.find id ts.
Proof.
  unfold Tours.find. induction ts as [|x ts IH]; simpl; intros Hfresh.
  - by destruct (String.eqb (TourDoc._id d) id).
  - rewrite not_elem_of_cons in Hfresh. destruct Hfresh as [Hne Hfresh].
    destruct (String.eqb_spec (TourDoc._id x) id) as [Hx|Hx].
    + destruct (String.eqb_spec (TourDoc._id d) id); [congruence|done].
    + by apply IH.
Qed.

(** X17.  A tour that was created can be read back: under its new
    identifier [getTour] returns the document with exactly the fields
    given, stamped with the same time as created and as updated; the
    owner's list is the former list followed by the new tour, and neither
    the other tours nor the lists of the other owners change. *)
Theorem createTour_round_trip (ts : Tours.Table) (name : string) (type : TourType)
    (status : TourStatus) (steps : list TourStep.t) (ownerId : string)
    (now : Z) (newId : Id) (created : Z) :
  newId ∉ map TourDoc._id ts →
  ∃ ts',
    Tours.createTour name type status steps ownerId now newId created ts =
      (inr newId, ts') ∧
    let doc := TourDoc.mk newId created name type status steps ownerId now now in
    Tours.getTour newId ts' = (inr (Some doc), ts') ∧
    (∀ id, id ≠ newId → (Tours.getTour id ts').1 = (Tours.getTour id ts).1) ∧
    (∀ l, Tours.listTours ownerId ts = (inr l, ts) →
          Tours.listTours ownerId ts' = (inr (l ++ [doc]), ts')) ∧
    (∀ o, o ≠ ownerId → (Tours.listTours o ts').1 = (Tours.listTours o ts).1).
Proof.
  intros Hfresh. eexists. split; [reflexivity|]. cbv zeta.
  unfold Tours.getTour, Tours.listTours. cbn [fst].
  split.
  { rewrite find_snoc_fresh by done. cbn [TourDoc._id]. by rewrite String.eqb_refl. }
  split.
  { intros id Hid. rewrite find_snoc_fresh by done. cbn [TourDoc._id].
    by destruct (String.eqb_spec newId id). }
  split.
  { intros l [= <-]. rewrite List.filter_app. simpl. by rewrite String.eqb_refl. }
  intros o Ho. rewrite List.filter_app. simpl.
  destruct (String.eqb_spec ownerId o); [congruence|]. by rewrite app_nil_r.
Qed.

Lemma createTour_round_trip_witness :
  ∃ ts',
    Tours.createTour "Tour B" saas draft [] "bob" 20 "t2" 21
      [TourDoc.mk "t1" 11 "Tour A" ecommerce active [] "alice" 10 10] = (inr "t2", ts') ∧
    Tours.getTour "t2" ts' =
      (inr (Some (TourDoc.mk "t2" 21 "Tour B" saas draft [] "bob" 20 20)), ts').
Proof.
  destruct (createTour_round_trip
              [TourDoc.mk "t1" 11 "Tour A" ecommerce active [] "alice" 10 10]
              "Tour B" saas draft [] "bob" 20 "t2" 21)
    as (ts' & Hrun & Hget & _).
  { apply (bool_decide_unpack _). vm_compute. exact I. }
  exists ts'. split; [exact Hrun|exact Hget].
Defined.

Lemma find_patched (id id' : Id) (f : TourDoc.t → TourDoc.t) (ts : Tours.Table) :
  (∀ d, TourDoc._id (f d) = TourDoc._id d) →
  Tours.find id' (map (λ d, if String.eqb (TourDoc._id d) id then f d else d) ts) =
  if String.eqb id id' then f <$> Tours.find id ts else Tours.find id' ts.
Proof.
  intros Hf. unfold Tours.find. induction ts as [|x ts IH]; simpl.
  - by destruct (String.eqb id id').
  - destruct (String.eqb_spec (TourDoc._id x) id) as [Hx|Hx].
    + rewrite Hf. destruct (String.eqb_spec (TourDoc._id x) id') as [Hx'|Hx'].
      * destruct (String.eqb_spec id id'); [done|congruence].
      * rewrite IH. destruct (String.eqb_spec id id'); [congruence|done].
    + destruct (String.eqb_spec (TourDoc._id x) id') as [Hx'|Hx'].
      * destruct (String.eqb_spec id id'); [congruence|done].
      * exact IH.
Qed.

(** X18.  [updateTour] rewrites the name, type, status and steps of the
    tour and stamps [updatedAt]; the identifier, the creation time, the
    owner and [createdAt] cannot be changed through it, so every owner's
    list holds the same tours in the same order afterwards, and no other
    tour is touched.  For an identifier without document it throws and
    the table is left as it was. *)
Theorem updateTour_keeps_ownership (ts : Tours.Table) (id : Id) (name : string)
    (type : TourType) (status : TourStatus) (steps : list TourStep.t) (now : Z) :
  match Tours.find id ts with
  | Some d =>
      ∃ ts',
        Tours.updateTour id name type status steps now ts = (inr id, ts') ∧
        Tours.getTour id ts' =
          (inr (Some (TourDoc.mk (TourDoc._id d) (TourDoc._creationTime d)
                        name type status steps
                        (TourDoc.ownerId d) (TourDoc.createdAt d) now)), ts') ∧
        (∀ id', id' ≠ id → Tours.find id' ts' = Tours.find id' ts) ∧
        map TourDoc._id ts' = map TourDoc._id ts ∧
        map TourDoc.ownerId ts' = map TourDoc.ownerId ts ∧
        ∀ o, map TourDoc._id (List.filter (λ d, String.eqb (TourDoc.ownerId d) o) ts') =
             map TourDoc._id (List.filter (λ d, String.eqb (TourDoc.ownerId d) o) ts)
  | None =>
      Tours.updateTour id name type status steps now ts =
        (inl (NonexistentDocument id), ts)
  end.
Proof.
  destruct (Tours.find id ts) as [d|] eqn:Hfind.
  2:{ unfold Tours.updateTour. by rewrite Hfind. }
  eexists. split; [unfold Tours.updateTour; by rewrite Hfind|].
  unfold Tours.getTour. split.
  { rewrite find_patched by done. by rewrite String.eqb_refl, Hfind. }
  split.
  { intros id' Hid'. rewrite find_patched by done.
    by destruct (String.eqb_spec id id'). }
  split.
  { rewrite map_map. apply map_ext. intros x.
    by destruct (String.eqb (TourDoc._id x) id). }
  split.
  { rewrite map_map. apply map_ext. intros x.
    by destruct (String.eqb (TourDoc._id x) id). }
  intros o. clear Hfind. induction ts as [|x ts IH]; simpl; [done|].
  destruct (String.eqb (TourDoc._id x) id); simpl;
    destruct (String.eqb (TourDoc.ownerId x) o); simpl; by rewrite IH.
Qed.

Lemma find_deleted (id id' : Id) (ts : Tours.Table) :
  Tours.find id' (List.filter (λ d, negb (String.eqb (TourDoc._id d) id)) ts) =
  if String.eqb id id' then None else Tours.find id' ts.
Proof.
  unfold Tours.find. induction ts as [|x ts IH]; simpl.
  - by destruct (String.eqb id id').
  - destruct (String.eqb_spec (TourDoc._id x) id) as [Hx|Hx]; simpl.
    + rewrite IH. destruct (String.eqb_spec id id') as [|Hne]; [done|].
      destruct (String.eqb_spec (TourDoc._id x) id'); [congruence|done].
    + destruct (String.eqb_spec (TourDoc._id x) id') as [Hx'|Hx'].
      * destruct (String.eqb_spec id id'); [congruence|done].
      * exact IH.
Qed.

(** X19.  [deleteTour] removes the tour and nothing else from the table:
    afterwards [getTour] answers [null] for it and as before for every
    other identifier, each owner's list is the former one without that
    tour, and deleting it once more throws.  For an identifier without
    document it throws and the table is left as it was. *)
Theorem deleteTour_removes_tour (ts : Tours.Table) (id : Id) :
  match Tours.find id ts with
  | Some d =>
      ∃ ts',
        Tours.deleteTour id ts = (inr id, ts') ∧
        Tours.getTour id ts' = (inr None, ts') ∧
        (∀ id', id' ≠ id → Tours.find id' ts' = Tours.find id' ts) ∧
        (∀ o l, Tours.listTours o ts = (inr l, ts) →
                Tours.listTours o ts' =
                  (inr (List.filter (λ d, negb (String.eqb (TourDoc._id d) id)) l),
                   ts')) ∧
        Tours.deleteTour id ts' = (inl (NonexistentDocument id), ts')
  | None => Tours.deleteTour id ts = (inl (NonexistentDocument id), ts)
  end.
Proof.
  destruct (Tours.find id ts) as [d|] eqn:Hfind.
  2:{ unfold Tours.deleteTour. by rewrite Hfind. }
  eexists. split; [unfold Tours.deleteTour; by rewrite Hfind|].
  unfold Tours.getTour, Tours.listTours. cbn [fst].
  split; [by rewrite find_deleted, String.eqb_refl|].
  split.
  { intros id' Hid'. rewrite find_deleted. by destruct (String.eqb_spec id id'). }
  split; [intros o l [= <-]; by rewrite filter_comm|].
  unfold Tours.deleteTour. by rewrite find_deleted, String.eqb_refl.
Qed.

(** ** Tour configurations and the analytics *)

Lemma find_view (id : Id) (ts : Tours.Table) :
  List.find (λ t, String.eqb (Tour._id t) id) (map TourDoc.view ts) =
  TourDoc.view <$> Tours.find id ts.
Proof.
  unfold Tours.find. induction ts as [|d ts IH]; simpl; [done|].
  by destruct (String.eqb (TourDoc._id d) id).
Qed.

Lemma no_records (tourId : string) (l : list TourAnalytics.t) :
  (∀ r, r ∈ l → TourAnalytics.tourId r ≠ tourId) →
  filter (λ d, TourAnalytics.tourId d = tourId) l = [].
Proof.
  induction l as [|r l IH]; intros Hnone; [done|].
  rewrite filter_cons, decide_False by (apply Hnone; by left).
  apply IH. intros r' Hr'. apply Hnone. by right.
Qed.

Section ToursAndAnalytics.

Variables getFullYear getMonth getDate : Z → Z.

(** X20.  A tour that was just created is the last entry of its owner's
    summary, under its name and with the number of steps it was created
    with; as long as nobody has started it, its completion rate is 0. *)
Theorem created_tour_in_owner_summary (db : Db) (ts : Tours.Table) (name : string)
    (type : TourType) (status : TourStatus) (steps : list TourStep.t)
    (ownerId : string) (now : Z) (newId : Id) (created : Z) :
  ∃ ts' summary older s,
    Tours.createTour name type status steps ownerId now newId created ts =
      (inr newId, ts') ∧
    getOwnerAnalyticsSummary getFullYear getMonth getDate ownerId (Tours.install ts' db) =
      (inr summary, Tours.install ts' db) ∧
    OwnerSummary.perTour summary = older ++ [s] ∧
    TourSummary.tourId s = newId ∧
    TourSummary.name s = Some name ∧
    TourSummary.stepsCount s = length steps ∧
    ((∀ r, r ∈ tourAnalytics db → TourAnalytics.tourId r ≠ newId) →
     TourSummary.completionRate s = 0%float).
Proof.
  eexists. 
  destruct (getOwnerAnalyticsSummary_value getFullYear getMonth getDate
              (Tours.install
                 (ts ++ [TourDoc.mk newId created name type status steps ownerId now now])
                 db) ownerId)
    as (perTour & _ & Hrun & Hall).
  set (doc := TourDoc.mk newId created name type status steps ownerId now now) in *.
  assert (filter (λ t, Tour.ownerId t = Some ownerId)
                 (tours (Tours.install (ts ++ [doc]) db)) =
          filter (λ t, Tour.ownerId t = Some ownerId) (map TourDoc.view ts) ++
          [TourDoc.view doc]) as Hlisted.
  { unfold Tours.install. cbn [tours]. rewrite map_app, filter_app. cbn [map].
    by rewrite filter_cons, decide_True, filter_nil. }
  rewrite Hlisted in Hall.
  apply Forall2_app_inv_l in Hall as (older & k & _ & Hlast & ->).
  apply Forall2_cons_inv_l in Hlast as (s & k' & Hs & Hnil & ->).
  apply Forall2_nil_inv_l in Hnil as ->.
  destruct Hs as (Hid & Hname & Hcount & rep & Hrep & Hrate).
  eexists _, older, s. split; [reflexivity|]. split; [exact Hrun|].
  split; [done|]. split; [done|]. split; [done|].
  split; [by rewrite Hcount; simpl; rewrite length_map|].
  intros Hnone. rewrite Hrate.
  unfold getTourAnalytics, bind, Store.by_tour in Hrep. cbn in Hrep.
  rewrite (no_records newId (tourAnalytics db) Hnone) in Hrep.
  by injection Hrep as <-.
Qed.

End ToursAndAnalytics.

(** X21.  Deleting a tour does not cascade: the analytics records of the
    tour stay in the store and [getTourAnalytics] reports them as before,
    while the recent activity, which showed them under the tour's name,
    now shows them under "Unknown Tour".  (The identifier of the tour is
    that of no document of another table.) *)
Theorem deleted_tour_leaves_records (validId : string → bool)
    (elsewhere : Id → option (option string)) (db : Db)
    (ts : Tours.Table) (id : Id) (d : TourDoc.t) :
  Tours.find id ts = Some d →
  validId id = true →
  elsewhere id = None →
  ∃ ts' report activities activities',
    Tours.deleteTour id ts = (inr id, ts') ∧
    tourAnalytics (Tours.install ts' db) = tourAnalytics db ∧
    getTourAnalytics id (Tours.install ts db) = (inr report, Tours.install ts db) ∧
    getTourAnalytics id (Tours.install ts' db) = (inr report, Tours.install ts' db) ∧
    getRecentActivity validId elsewhere (Tours.install ts db) =
      (inr activities, Tours.install ts db) ∧
    getRecentActivity validId elsewhere (Tours.install ts' db) =
      (inr activities', Tours.install ts' db) ∧
    Forall2 (λ r a, TourAnalytics.tourId r = id → Activity.target a = TourDoc.name d)
            (take 10 (reverse (tourAnalytics db))) activities ∧
    Forall2 (λ r a, TourAnalytics.tourId r = id → Activity.target a = "Unknown Tour")
            (take 10 (reverse (tourAnalytics db))) activities'.
Proof.
  intros Hfind Hvalid Helse.
  set (ts' := List.filter (λ x, negb (String.eqb (TourDoc._id x) id)) ts).
  destruct (getRecentActivity_shown validId elsewhere (Tours.install ts db))
    as (acts & Hrun & Hall).
  destruct (getRecentActivity_shown validId elsewhere (Tours.install ts' db))
    as (acts' & Hrun' & Hall').
  exists ts'. eexists. exists acts, acts'.
  split; [unfold Tours.deleteTour; by rewrite Hfind|].
  split; [done|]. split; [reflexivity|]. split; [reflexivity|].
  split; [exact Hrun|]. split; [exact Hrun'|]. split.
  - eapply Forall2_impl; [exact Hall|].
    intros r a (_ & _ & _ & _ & Htarget) Hr. rewrite Htarget, Hr, Hvalid.
    rewrite <- Hr.
    rewrite (lookup_tour elsewhere (Tours.install ts db) r (TourDoc.view d)); [done|].
    unfold tourOf, Tours.install. cbn [tours]. by rewrite Hr, find_view, Hfind.
  - eapply Forall2_impl; [exact Hall'|].
    intros r a (_ & _ & _ & _ & Htarget) Hr. rewrite Htarget, Hr, Hvalid.
    rewrite <- Hr. apply lookup_no_tour.
    + unfold tourOf, Tours.install. cbn [tours]. rewrite Hr, find_view. unfold ts'.
      by rewrite find_deleted, String.eqb_refl.
    + intros n. by rewrite Hr, Helse.
Qed.

Lemma deleted_tour_leaves_records_witness :
  ∃ ts' activities',
    Tours.deleteTour "T"
      [TourDoc.mk "T" 11 "Tour A" ecommerce active [] "alice" 10 10] = (inr "T", ts') ∧
    getRecentActivity (λ _, true) (λ _, None) (Tours.install ts' resumed_tour) =
      (inr activities', Tours.install ts' resumed_tour) ∧
    Forall2 (λ r a, TourAnalytics.tourId r = "T" → Activity.target a = "Unknown Tour")
            (take 10 (reverse (tourAnalytics resumed_tour))) activities'.
Proof.
  destruct (deleted_tour_leaves_records (λ _, true) (λ _, None) resumed_tour
              [TourDoc.mk "T" 11 "Tour A" ecommerce active [] "alice" 10 10] "T"
              (TourDoc.mk "T" 11 "Tour A" ecommerce active [] "alice" 10 10)
              eq_refl eq_refl eq_refl)
    as (ts' & report & acts & acts' & Hdel & _ & _ & _ & _ & Hrun' & _ & Hall').
  exists ts', acts'. split; [exact Hdel|]. split; [exact Hrun'|exact Hall'].
Defined.

(** * The tour widget *)

Lemma play_invisible (props : Widget.Props) (bs : list Widget.Button) (st : Widget.State) :
  Widget.isVisible st = false → Widget.play props bs st = (st, []).
Proof.
  intros Hinv. induction bs as [|b bs IH]; simpl; [done|].
  unfold Widget.click. by rewrite Hinv.
Qed.

Lemma play_cons (props : Widget.Props) (b : Widget.Button) (bs : list Widget.Button)
    (st : Widget.State) :
  Widget.play props (b :: bs) st =
  match Widget.click props b st with
  | Some (st', calls) =>
      ((Widget.play props bs st').1, calls ++ (Widget.play props bs st').2)
  | None => Widget.play props bs st
  end.
Proof.
  simpl. destruct (Widget.click props b st) as [[st' calls]|]; [|done].
  by destruct (Widget.play props bs st').
Qed.

(** What one click can do. *)
Lemma click_cases (props : Widget.Props) (b : Widget.Button) (st st' : Widget.State)
    (calls : list Widget.Callback) :
  Widget.click props b st = Some (st', calls) →
  Widget.isVisible st = true ∧
  ((calls = [] ∧ Widget.isVisible st' = true ∧
    (Widget.currentStepIndex st' = Widget.currentStepIndex st ∨
     (Widget.currentStepIndex st' = Widget.currentStepIndex st - 1 ∧
      0 < Widget.currentStepIndex st))) ∨
   (Widget.isVisible st' = false ∧
    Widget.currentStepIndex st' = Widget.currentStepIndex st ∧
    calls = Widget.optional_call (Widget.has_onAbandon props) Widget.onAbandon) ∨
   (Widget.isVisible st' = false ∧
    Widget.currentStepIndex st' = Widget.currentStepIndex st ∧
    Z.of_nat (length (Widget.steps props)) - 1 ≤ Widget.currentStepIndex st ∧
    calls = Widget.optional_call (Widget.has_onComplete props) Widget.onComplete) ∨
   (Widget.isVisible st' = true ∧
    Widget.currentStepIndex st' = Widget.currentStepIndex st + 1 ∧
    Widget.currentStepIndex st < Z.of_nat (length (Widget.steps props)) - 1 ∧
    ∃ step, Widget.currentStep props st = Some step ∧
            calls = Widget.optional_call (Widget.has_onStepComplete props)
                      (Widget.onStepComplete (WidgetStep.id step)))).
Proof.
  unfold Widget.click. destruct (Widget.isVisible st) eqn:Hvis; [|done]. simpl.
  intros Hclick. split; [done|].
  unfold Widget.handleSkip, Widget.handleBack, Widget.handleNext,
    Widget.handleComplete in Hclick.
  destruct (Widget.currentStep props st) as [step|] eqn:Hstep,
           (Widget.isOpen st) eqn:Hopen, b;
    try discriminate.
  - injection Hclick as <- <-. left. simpl. by auto.
  - injection Hclick as <- <-. left. simpl. by auto.
  - injection Hclick as <- <-. right. left. by repeat split.
  - destruct (Z.ltb_spec 0 (Widget.currentStepIndex st));
      injection Hclick as <- <-; simpl; left; repeat split; auto.
  - destruct (Z.ltb_spec (Widget.currentStepIndex st)
                (Z.of_nat (length (Widget.steps props)) - 1));
      injection Hclick as <- <-; simpl.
    + right. right. right. repeat split; [done..|]. by exists step.
    + right. right. left. by repeat split.
  - injection Hclick as <- <-. left. simpl. by auto.
  - injection Hclick as <- <-. left. simpl. by auto.
Qed.

(** X22.  The widget never walks off its steps: from a state whose index
    points at a step, no sequence of clicks on the avatar, Close, Skip,
    Back and Next leads to an index without step; and once the widget is
    hidden (by Skip, or by Next on the last step) no click changes the
    state or invokes a callback any more. *)
Theorem widget_index_in_range (props : Widget.Props) (bs : list Widget.Button)
    (st : Widget.State) :
  Widget.in_range props st →
  Widget.in_range props (Widget.play props bs st).1 ∧
  (Widget.isVisible (Widget.play props bs st).1 = false →
   ∀ bs', Widget.play props bs' (Widget.play props bs st).1 =
          ((Widget.play props bs st).1, [])).
Proof.
  intros Hin. split; [|intros Hinv bs'; by apply play_invisible].
  revert st Hin. induction bs as [|b bs IH]; intros st Hin; [done|].
  rewrite play_cons.
  destruct (Widget.click props b st) as [[st' calls]|] eqn:Hclick; [|by apply IH].
  cbn [fst]. apply IH. unfold Widget.in_range in *.
  apply click_cases in Hclick as (_ & [(_ & _ & [->| [-> ?]])|
    [(_ & -> & _)|[(_ & -> & _)|(_ & -> & ? & _)]]]); lia.
Qed.

Lemma widget_index_in_range_witness :
  Widget.in_range (Widget.mkProps None true true true)
    (Widget.play (Widget.mkProps None true true true)
       [Widget.Next; Widget.Back; Widget.Back; Widget.Next; Widget.Next] Widget.initial).1.
Proof.
  apply (widget_index_in_range (Widget.mkProps None true true true)
           [Widget.Next; Widget.Back; Widget.Back; Widget.Next; Widget.Next]
           Widget.initial).
  unfold Widget.in_range. simpl. lia.
Defined.

Lemma optional_call_terminal (given : bool) (c : Widget.Callback) :
  Widget.terminal c = true →
  Widget.optional_call given c = [] ∨ Widget.optional_call given c = [c].
Proof. intros _. destruct given; [by right|by left]. Qed.

(** X23.  The widget ends a tour at most once: in the invocations of any
    sequence of clicks, [onComplete] and [onAbandon] together occur at
    most once, and such an invocation is the last one, made by the click
    that hides the widget.  So the widget never reports a tour as both
    completed and abandoned, and never reports a step after the end. *)
Theorem widget_ends_once (props : Widget.Props) (bs : list Widget.Button)
    (st : Widget.State) :
  ∃ before ending,
    (Widget.play props bs st).2 = before ++ ending ∧
    Forall (λ c, Widget.terminal c = false) before ∧
    (ending = [] ∨
     (ending = [Widget.onComplete] ∨ ending = [Widget.onAbandon]) ∧
     Widget.isVisible st = true ∧
     Widget.isVisible (Widget.play props bs st).1 = false).
Proof.
  revert st. induction bs as [|b bs IH]; intros st.
  { exists [], []. split; [done|]. split; [constructor|by left]. }
  rewrite play_cons.
  destruct (Widget.click props b st) as [[st' calls]|] eqn:Hclick; [|by apply IH].
  cbn [fst snd].
  apply click_cases in Hclick as (Hvis & Hcases).
  destruct Hcases as [(-> & Hvis' & _)|[(Hinv & _ & ->)|[(Hinv & _ & _ & ->)|
    (Hvis' & _ & _ & step & _ & ->)]]].
  - destruct (IH st') as (before & ending & Hplay & Hbefore & Hending).
    exists before, ending. split; [done|]. split; [done|].
    destruct Hending as [?|(? & _ & ?)]; [by left|by right].
  - rewrite (play_invisible props bs st' Hinv). cbn [fst snd]. rewrite app_nil_r.
    destruct (Widget.has_onAbandon props); simpl.
    + exists [], [Widget.onAbandon]. split; [done|]. split; [constructor|].
      right. split; [by right|done].
    + exists [], []. split; [done|]. split; [constructor|by left].
  - rewrite (play_invisible props bs st' Hinv). cbn [fst snd]. rewrite app_nil_r.
    destruct (Widget.has_onComplete props); simpl.
    + exists [], [Widget.onComplete]. split; [done|]. split; [constructor|].
      right. split; [by left|done].
    + exists [], []. split; [done|]. split; [constructor|by left].
  - destruct (IH st') as (before & ending & Hplay & Hbefore & Hending).
    exists (Widget.optional_call (Widget.has_onStepComplete props)
              (Widget.onStepComplete (WidgetStep.id step)) ++ before), ending.
    split; [by rewrite Hplay, app_assoc|]. split.
    + apply Forall_app. split; [|done].
      destruct (Widget.has_onStepComplete props); simpl; by repeat constructor.
    + destruct Hending as [?|(? & _ & ?)]; [by left|by right].
Qed.

Lemma reported_app (l l' : list Widget.Callback) :
  Widget.reported (l ++ l') = Widget.reported l ++ Widget.reported l'.
Proof. apply omap_app. Qed.

Lemma play_reported (props : Widget.Props) (bs : list Widget.Button) (st : Widget.State) :
  ∀ s, s ∈ Widget.reported (Widget.play props bs st).2 →
  ∃ (i : nat) step,
    Widget.steps props !! i = Some step ∧ WidgetStep.id step = s ∧
    (i + 1 < length (Widget.steps props))%nat.
Proof.
  revert st. induction bs as [|b bs IH]; intros st s; simpl.
  { by intros ?%elem_of_nil. }
  destruct (Widget.click props b st) as [[st' calls]|] eqn:Hclick; [|by apply IH].
  specialize (IH st' s). destruct (Widget.play props bs st') as [st'' calls'].
  cbn [snd] in *. rewrite reported_app, elem_of_app.
  intros [Hs|Hs]; [|by apply IH].
  apply click_cases in Hclick as (_ & [(-> & _)|[(_ & _ & ->)|[(_ & _ & _ & ->)|
    (_ & _ & Hlt & step & Hstep & ->)]]]).
  - by apply elem_of_nil in Hs.
  - destruct (Widget.has_onAbandon props); simpl in Hs;
      [by apply elem_of_nil in Hs|by apply elem_of_nil in Hs].
  - destruct (Widget.has_onComplete props); simpl in Hs;
      [by apply elem_of_nil in Hs|by apply elem_of_nil in Hs].
  - unfold Widget.currentStep in Hstep.
    destruct (Z.ltb_spec (Widget.currentStepIndex st) 0) as [|Hpos]; [done|].
    exists (Z.to_nat (Widget.currentStepIndex st)), step.
    split; [done|]. split; [|lia].
    destruct (Widget.has_onStepComplete props); simpl in Hs.
    + apply list_elem_of_singleton in Hs. by subst.
    + by apply elem_of_nil in Hs.
Qed.

(** X24.  The widget never reports the last step as completed: every step
    identifier passed to [onStepComplete] is that of a step with a step
    after it, and Next on the last step invokes [onComplete] instead.
    When the steps have distinct identifiers, the identifier of the last
    step is in no [onStepComplete] invocation, whatever is clicked. *)
Theorem widget_never_reports_last_step (props : Widget.Props)
    (bs : list Widget.Button) (st : Widget.State) (final : string) :
  NoDup (map WidgetStep.id (Widget.steps props)) →
  last (map WidgetStep.id (Widget.steps props)) = Some final →
  (final ∉ Widget.reported (Widget.play props bs st).2) ∧
  ∀ s, s ∈ Widget.reported (Widget.play props bs st).2 →
       ∃ (i : nat) step, Widget.steps props !! i = Some step ∧
                         WidgetStep.id step = s ∧
                         (i + 1 < length (Widget.steps props))%nat.
Proof.
  intros Hnd Hlast. split; [|apply play_reported].
  intros Hin. apply play_reported in Hin as (i & step & Hi & Hid & Hlt).
  rewrite last_lookup, length_map in Hlast.
  assert (map WidgetStep.id (Widget.steps props) !! i = Some final) as Hi'.
  { rewrite list_lookup_fmap_Some. by exists step. }
  pose proof (NoDup_lookup _ _ _ _ Hnd Hi' Hlast). lia.
Qed.

Lemma widget_never_reports_last_step_witness :
  "5" ∉ Widget.reported
          (Widget.play (Widget.mkProps None true true true)
             [Widget.Next; Widget.Next; Widget.Back; Widget.Next; Widget.Next;
              Widget.Next; Widget.Next]
             Widget.initial).2.
Proof.
  apply (widget_never_reports_last_step (Widget.mkProps None true true true)
           [Widget.Next; Widget.Next; Widget.Back; Widget.Next; Widget.Next;
            Widget.Next; Widget.Next]
           Widget.initial "5").
  - apply (bool_decide_unpack _). vm_compute. exact I.
  - reflexivity.
Defined.

Lemma click_Next_at (props : Widget.Props) (i : nat) (step : WidgetStep.t) :
  Widget.steps props !! i = Some step →
  Widget.click props Widget.Next (Widget.mkState true (Z.of_nat i) true) =
  Some (Widget.handleNext props (Widget.mkState true (Z.of_nat i) true) step).
Proof.
  intros Hstep. unfold Widget.click, Widget.currentStep. simpl.
  destruct (Z.ltb_spec (Z.of_nat i) 0); [lia|].
  by rewrite Nat2Z.id, Hstep.
Qed.

Lemma walk_to_the_end (props : Widget.Props) (k i : nat) :
  (i + k + 1 = length (Widget.steps props))%nat →
  Widget.play props (replicate (S k) Widget.Next)
              (Widget.mkState true (Z.of_nat i) true) =
  (Widget.mkState true (Z.of_nat (i + k)) false,
   (if Widget.has_onStepComplete props
    then map (λ step, Widget.onStepComplete (WidgetStep.id step))
             (take k (drop i (Widget.steps props)))
    else []) ++
   Widget.optional_call (Widget.has_onComplete props) Widget.onComplete).
Proof.
  revert i. induction k as [|k IH]; intros i Hlen.
  - destruct (lookup_lt_is_Some_2 (Widget.steps props) i) as [step Hstep]; [lia|].
    cbn [replicate Widget.play]. rewrite (click_Next_at props i step Hstep).
    unfold Widget.handleNext. cbn [Widget.currentStepIndex].
    destruct (Z.ltb_spec (Z.of_nat i) (Z.of_nat (length (Widget.steps props)) - 1));
      [lia|].
    unfold Widget.handleComplete. cbn. rewrite Nat.add_0_r, app_nil_r.
    by destruct (Widget.has_onStepComplete props).
  - destruct (lookup_lt_is_Some_2 (Widget.steps props) i) as [step Hstep]; [lia|].
    change (replicate (S (S k)) Widget.Next)
      with (Widget.Next :: replicate (S k) Widget.Next).
    rewrite play_cons, (click_Next_at props i step Hstep).
    unfold Widget.handleNext. cbn [Widget.currentStepIndex].
    destruct (Z.ltb_spec (Z.of_nat i) (Z.of_nat (length (Widget.steps props)) - 1));
      [|lia].
    cbn [Widget.isOpen Widget.isVisible].
    replace (Z.of_nat i + 1) with (Z.of_nat (S i)) by lia.
    rewrite (IH (S i)) by lia. cbn [fst snd].
    replace (S i + k)%nat with (i + S k)%nat by lia. f_equal.
    rewrite (drop_S _ _ _ Hstep). cbn [take map].
    rewrite app_assoc. f_equal.
    by destruct (Widget.has_onStepComplete props).
Qed.

(** X25.  A visitor who clicks Next on every step is reported step by
    step: from the first step of a non-empty tour, as many clicks on Next
    as there are steps invoke [onStepComplete] for every step but the
    last, in order, and then [onComplete] once, and leave the widget
    hidden on the last step.  A callback that is not given is skipped. *)
Theorem widget_walk_through (props : Widget.Props) :
  Widget.steps props ≠ [] →
  Widget.play props (replicate (length (Widget.steps props)) Widget.Next)
              Widget.initial =
  (Widget.mkState true (Z.of_nat (length (Widget.steps props)) - 1) false,
   (if Widget.has_onStepComplete props
    then map (λ step, Widget.onStepComplete (WidgetStep.id step))
             (take (length (Widget.steps props) - 1) (Widget.steps props))
    else []) ++
   Widget.optional_call (Widget.has_onComplete props) Widget.onComplete).
Proof.
  intros Hsteps.
  destruct (length (Widget.steps props)) as [|k] eqn:Hlen.
  { by apply length_zero_iff_nil in Hlen. }
  change Widget.initial with (Widget.mkState true (Z.of_nat 0) true).
  rewrite (walk_to_the_end props k 0) by lia.
  rewrite drop_0. cbn [Nat.add].
  replace (Z.of_nat (S k) - 1) with (Z.of_nat k) by lia.
  by replace (S k - 1)%nat with k by lia.
Qed.

Lemma widget_walk_through_witness :
  Widget.play (Widget.mkProps None true true true)
    [Widget.Next; Widget.Next; Widget.Next; Widget.Next; Widget.Next] Widget.initial =
  (Widget.mkState true 4 false,
   [Widget.onStepComplete "1"; Widget.onStepComplete "2"; Widget.onStepComplete "3";
    Widget.onStepComplete "4"; Widget.onComplete]).
Proof.
  apply (widget_walk_through (Widget.mkProps None true true true)). discriminate.
Defined.

(** * Users *)

Lemma find_map_users (p : UserDoc.t → bool) (g : UserDoc.t → UserDoc.t)
    (l : list UserDoc.t) :
  (∀ u, p (g u) = p u) → List.find p (map g l) = g <$> List.find p l.
Proof.
  intros Hg. induction l as [|u l IH]; simpl; [done|].
  rewrite Hg. by destruct (p u).
Qed.

Lemma find_user_elem (p : UserDoc.t → bool) (l : list UserDoc.t) (u : UserDoc.t) :
  List.find p l = Some u → u ∈ l ∧ p u = true.
Proof.
  intros Hfind. apply find_some in Hfind as [Hin Hp].
  split; [by apply list_elem_of_In|done].
Qed.

Lemma find_user_id (p : UserDoc.t → bool) (db : UsersDb) (u : UserDoc.t) :
  List.find p (users db) = Some u → is_Some (Users.find (UserDoc._id u) db).
Proof.
  intros Hfind. apply find_user_elem in Hfind as [Hin _].
  unfold Users.find.
  destruct (List.find _ (users db)) as [v|] eqn:Hnone; [by eexists|].
  apply list_elem_of_In in Hin.
  pose proof (find_none _ _ Hnone u Hin) as Hu. simpl in Hu.
  by rewrite String.eqb_refl in Hu.
Qed.

Lemma patch_user_found (id : Id) (f : UserDoc.t → UserDoc.t) (db : UsersDb) :
  is_Some (Users.find id db) →
  Users.patch id f db =
  (inr (),
   mkUsersDb (map (λ u, if String.eqb (UserDoc._id u) id then f u else u) (users db))
             (activityLog db)).
Proof. intros [u Hu]. unfold Users.patch. by rewrite Hu. Qed.

(** [upsertUser] for an [authId] that has a user. *)
Lemma upsertUser_existing (db : UsersDb) (authId email name : string)
    (avatarUrl : option string) (now : nat → Z) (nano : string) (fresh : Users.Fresh)
    (ex : UserDoc.t) :
  Users.first_by_authId authId db = Some ex →
  let g := λ u, if String.eqb (UserDoc._id u) (UserDoc._id ex)
                then UserDoc.mk (UserDoc._id u) (UserDoc._creationTime u) email name
                       (UserDoc.authId u) avatarUrl (UserDoc.plan u) (UserDoc.apiKey u)
                       (UserDoc.createdAt u) (now 0%nat)
                else u in
  Users.upsertUser authId email name avatarUrl now nano fresh db =
    (inr (UserDoc._id ex), mkUsersDb (map g (users db)) (activityLog db)) ∧
  Users.first_by_authId authId (mkUsersDb (map g (users db)) (activityLog db)) =
    Some (UserDoc.mk (UserDoc._id ex) (UserDoc._creationTime ex) email name
            (UserDoc.authId ex) avatarUrl (UserDoc.plan ex) (UserDoc.apiKey ex)
            (UserDoc.createdAt ex) (now 0%nat)).
Proof.
  intros Hex g. split.
  - unfold Users.upsertUser. rewrite Hex.
    by rewrite (patch_user_found _ _ db (find_user_id _ db ex Hex)).
  - unfold Users.first_by_authId in *. cbn [users].
    rewrite find_map_users, Hex.
    + simpl. unfold g. by rewrite String.eqb_refl.
    + intros u. unfold g. by destruct (String.eqb (UserDoc._id u) (UserDoc._id ex)).
Qed.

Lemma find_app_none {A} (p : A → bool) (l l' : list A) :
  List.find p l = None → List.find p (l ++ l') = List.find p l'.
Proof.
  induction l as [|x l IH]; simpl; [done|]. by destruct (p x).
Qed.

(** [upsertUser] for an [authId] without user. *)
Lemma upsertUser_new (db : UsersDb) (authId email name : string)
    (avatarUrl : option string) (now : nat → Z) (nano : string) (fresh : Users.Fresh) :
  Users.first_by_authId authId db = None →
  let u := UserDoc.mk (Users.userId fresh) (Users.userCreated fresh) email name authId
             avatarUrl free ("pk_live_" ++ nano)%string (now 0%nat) (now 1%nat) in
  let e := LogEntry.mk (Users.logId fresh) (Users.logCreated fresh) (Users.userId fresh)
             "user_created" "user" (Some (Users.userId fresh)) (now 2%nat) in
  Users.upsertUser authId email name avatarUrl now nano fresh db =
    (inr (Users.userId fresh), mkUsersDb (users db ++ [u]) (activityLog db ++ [e])) ∧
  Users.first_by_authId authId (mkUsersDb (users db ++ [u]) (activityLog db ++ [e])) =
    Some u.
Proof.
  intros Hnone u e. split.
  - unfold Users.upsertUser. by rewrite Hnone.
  - unfold Users.first_by_authId in *. cbn [users].
    rewrite find_app_none by done. simpl. by rewrite String.eqb_refl.
Qed.

(** X26.  [upsertUser] always succeeds, and afterwards the user of the
    [authId] is found with the email, name and avatar just given (without
    avatar when none was given).  Upserting the same [authId] again,
    with whatever data, updates that user instead of creating one: the
    same identifier is returned, no user and no log entry is added, and
    the user keeps its API key, plan and [createdAt]. *)
Theorem upsertUser_idempotent (db : UsersDb) (authId email name : string)
    (avatarUrl : option string) (now : nat → Z) (nano : string) (fresh : Users.Fresh) :
  ∃ id db1 u1,
    Users.upsertUser authId email name avatarUrl now nano fresh db = (inr id, db1) ∧
    Users.getUserByAuthId authId db1 = (inr (Some u1), db1) ∧
    UserDoc._id u1 = id ∧ UserDoc.email u1 = email ∧ UserDoc.name u1 = name ∧
    UserDoc.avatarUrl u1 = avatarUrl ∧
    ∀ email' name' avatarUrl' now' nano' fresh',
      ∃ db2 u2,
        Users.upsertUser authId email' name' avatarUrl' now' nano' fresh' db1 =
          (inr id, db2) ∧
        Users.getUserByAuthId authId db2 = (inr (Some u2), db2) ∧
        map UserDoc._id (users db2) = map UserDoc._id (users db1) ∧
        activityLog db2 = activityLog db1 ∧
        UserDoc._id u2 = id ∧ UserDoc.apiKey u2 = UserDoc.apiKey u1 ∧
        UserDoc.plan u2 = UserDoc.plan u1 ∧
        UserDoc.createdAt u2 = UserDoc.createdAt u1 ∧
        UserDoc.email u2 = email' ∧ UserDoc.name u2 = name' ∧
        UserDoc.avatarUrl u2 = avatarUrl'.
Proof.
  assert (∃ id db1 u1,
    Users.upsertUser authId email name avatarUrl now nano fresh db = (inr id, db1) ∧
    Users.first_by_authId authId db1 = Some u1 ∧
    UserDoc._id u1 = id ∧ UserDoc.email u1 = email ∧ UserDoc.name u1 = name ∧
    UserDoc.avatarUrl u1 = avatarUrl) as (id & db1 & u1 & Hrun & Hu1 & Hid & Hfields).
  { destruct (Users.first_by_authId authId db) as [ex|] eqn:Hex.
    - destruct (upsertUser_existing db authId email name avatarUrl now nano fresh ex Hex)
        as [Hrun Hfirst].
      eexists _, _, _. split; [exact Hrun|]. split; [exact Hfirst|]. done.
    - destruct (upsertUser_new db authId email name avatarUrl now nano fresh Hex)
        as [Hrun Hfirst].
      eexists _, _, _. split; [exact Hrun|]. split; [exact Hfirst|]. done. }
  subst id. exists (UserDoc._id u1), db1, u1. split; [exact Hrun|].
  unfold Users.getUserByAuthId. rewrite Hu1. split; [done|].
  split; [done|]. split; [apply Hfields|]. split; [apply Hfields|].
  split; [apply Hfields|].
  intros email' name' avatarUrl' now' nano' fresh'.
  destruct (upsertUser_existing db1 authId email' name' avatarUrl' now' nano' fresh'
              u1 Hu1) as [Hrun' Hfirst'].
  eexists _, _. split; [exact Hrun'|]. rewrite Hfirst'.
  split; [done|]. cbn [users activityLog]. split; [|done].
  rewrite map_map. apply map_ext. intros u.
  by destruct (String.eqb (UserDoc._id u) (UserDoc._id u1)).
Qed.

Lemma first_by_authId_none (authId : string) (db : UsersDb) :
  Users.first_by_authId authId db = None → authId ∉ map UserDoc.authId (users db).
Proof.
  unfold Users.first_by_authId. intros Hnone Hin.
  apply list_elem_of_fmap in Hin as (u & -> & Hu).
  apply list_elem_of_In in Hu. pose proof (find_none _ _ Hnone u Hu) as Hp.
  simpl in Hp. by rewrite String.eqb_refl in Hp.
Qed.

(** X27.  [upsertUser] keeps one user per [authId]: when no two users of
    the store share an [authId], none do afterwards.  A user is created
    only for an [authId] that has none, on the free plan, with the API
    key ["pk_live_"] followed by the generated string, and together with
    exactly one log entry ["user_created"] that names the new user; for an
    [authId] that has a user nothing is logged. *)
Theorem upsertUser_one_user_per_authId (db : UsersDb) (authId email name : string)
    (avatarUrl : option string) (now : nat → Z) (nano : string) (fresh : Users.Fresh) :
  NoDup (map UserDoc.authId (users db)) →
  ∃ id db1,
    Users.upsertUser authId email name avatarUrl now nano fresh db = (inr id, db1) ∧
    NoDup (map UserDoc.authId (users db1)) ∧
    match Users.first_by_authId authId db with
    | Some ex =>
        id = UserDoc._id ex ∧
        map UserDoc.authId (users db1) = map UserDoc.authId (users db) ∧
        activityLog db1 = activityLog db
    | None =>
        id = Users.userId fresh ∧
        ∃ u e,
          users db1 = users db ++ [u] ∧ activityLog db1 = activityLog db ++ [e] ∧
          UserDoc._id u = id ∧ UserDoc.authId u = authId ∧
          UserDoc.plan u = free ∧ UserDoc.apiKey u = ("pk_live_" ++ nano)%string ∧
          LogEntry.action e = "user_created" ∧ LogEntry.userId e = id ∧
          LogEntry.entityId e = Some id
    end.
Proof.
  intros Hnd. destruct (Users.first_by_authId authId db) as [ex|] eqn:Hex.
  - destruct (upsertUser_existing db authId email name avatarUrl now nano fresh ex Hex)
      as [Hrun _].
    eexists _, _. split; [exact Hrun|]. cbn [users activityLog].
    assert (map UserDoc.authId
              (map (λ u, if String.eqb (UserDoc._id u) (UserDoc._id ex)
                         then UserDoc.mk (UserDoc._id u) (UserDoc._creationTime u)
                                email name (UserDoc.authId u) avatarUrl
                                (UserDoc.plan u) (UserDoc.apiKey u)
                                (UserDoc.createdAt u) (now 0%nat)
                         else u) (users db)) =
            map UserDoc.authId (users db)) as Hsame.
    { rewrite map_map. apply map_ext. intros u.
      by destruct (String.eqb (UserDoc._id u) (UserDoc._id ex)). }
    rewrite Hsame. done.
  - destruct (upsertUser_new db authId email name avatarUrl now nano fresh Hex)
      as [Hrun _].
    eexists _, _. split; [exact Hrun|]. cbn [users activityLog]. split.
    + rewrite map_app. apply NoDup_app. split; [done|]. split.
      * intros a Ha [->|Hnil%elem_of_nil]%elem_of_cons; [|done].
        by apply (first_by_authId_none _ db Hex).
      * apply NoDup_singleton.
    + split; [done|]. eexists _, _. split; [done|]. split; [done|]. done.
Qed.

Lemma upsertUser_one_user_per_authId_witness :
  ∃ id db1,
    Users.upsertUser "auth|2" "bob@example.org" "Bob" None (λ _, 50) "k2"
      (Users.mkFresh "u2" 51 "l2" 52)
      (mkUsersDb [UserDoc.mk "u1" 11 "alice@example.org" "Alice" "auth|1" None free
                    "pk_live_k1" 10 10] []) = (inr id, db1) ∧
    NoDup (map UserDoc.authId (users db1)).
Proof.
  destruct (upsertUser_one_user_per_authId
              (mkUsersDb [UserDoc.mk "u1" 11 "alice@example.org" "Alice" "auth|1" None
                            free "pk_live_k1" 10 10] [])
              "auth|2" "bob@example.org" "Bob" None (λ _, 50) "k2"
              (Users.mkFresh "u2" 51 "l2" 52))
    as (id & db1 & Hrun & Hnd & _).
  { apply (bool_decide_unpack _). vm_compute. exact I. }
  exists id, db1. split; [exact Hrun|exact Hnd].
Defined.

Lemma find_patched_user (id id' : Id) (f : UserDoc.t → UserDoc.t) (db : UsersDb) :
  (∀ u, UserDoc._id (f u) = UserDoc._id u) →
  Users.find id'
    (mkUsersDb (map (λ u, if String.eqb (UserDoc._id u) id then f u else u) (users db))
               (activityLog db)) =
  if String.eqb id id' then f <$> Users.find id db else Users.find id' db.
Proof.
  intros Hf. unfold Users.find. cbn [users].
  induction (users db) as [|x l IH]; simpl.
  - by destruct (String.eqb id id').
  - destruct (String.eqb_spec (UserDoc._id x) id) as [Hx|Hx].
    + rewrite Hf. destruct (String.eqb_spec (UserDoc._id x) id') as [Hx'|Hx'].
      * destruct (String.eqb_spec id id'); [done|congruence].
      * rewrite IH. destruct (String.eqb_spec id id'); [congruence|done].
    + destruct (String.eqb_spec (UserDoc._id x) id') as [Hx'|Hx'].
      * destruct (String.eqb_spec id id'); [congruence|done].
      * exact IH.
Qed.

(** X28.  [updateUserProfile] changes the name and the avatar only where
    one is given and stamps [updatedAt]; it cannot remove an avatar, and
    it leaves the email, [authId], plan, API key and [createdAt] of the
    user, and every other user, as they were.  It logs one
    ["profile_updated"] entry, also when nothing was given.  For a user
    that does not exist it throws and nothing is logged. *)
Theorem updateUserProfile_fields (db : UsersDb) (userId : Id)
    (name avatarUrl : option string) (now : nat → Z) (logId : Id) (logCreated : Z) :
  match Users.find userId db with
  | Some u =>
      ∃ db1,
        Users.updateUserProfile userId name avatarUrl now logId logCreated db =
          (inr userId, db1) ∧
        Users.find userId db1 =
          Some (UserDoc.mk (UserDoc._id u) (UserDoc._creationTime u) (UserDoc.email u)
                  (default (UserDoc.name u) name) (UserDoc.authId u)
                  (match avatarUrl with
                   | Some a => Some a
                   | None => UserDoc.avatarUrl u
                   end)
                  (UserDoc.plan u) (UserDoc.apiKey u) (UserDoc.createdAt u)
                  (now 0%nat)) ∧
        (∀ u1, Users.find userId db1 = Some u1 →
               is_Some (UserDoc.avatarUrl u) → is_Some (UserDoc.avatarUrl u1)) ∧
        (∀ id', id' ≠ userId → Users.find id' db1 = Users.find id' db) ∧
        activityLog db1 =
          activityLog db ++
          [LogEntry.mk logId logCreated userId "profile_updated" "user" (Some userId)
             (now 1%nat)]
  | None =>
      Users.updateUserProfile userId name avatarUrl now logId logCreated db =
        (inl (NonexistentDocument userId), db)
  end.
Proof.
  destruct (Users.find userId db) as [u|] eqn:Hfind.
  2:{ unfold Users.updateUserProfile, Users.patch. by rewrite Hfind. }
  eexists. split.
  { unfold Users.updateUserProfile. rewrite patch_user_found by by eexists.
    reflexivity. }
  assert (∀ id' db' e, Users.find id' (Users.insert_log e db') = Users.find id' db')
    as Hlog by done.
  rewrite !Hlog. rewrite find_patched_user by done.
  rewrite String.eqb_refl, Hfind. split; [done|]. split.
  { intros u1 [= <-] Hav. simpl. by destruct avatarUrl. }
  split; [|done].
  intros id' Hid'. rewrite Hlog, find_patched_user by done.
  by destruct (String.eqb_spec userId id').
Qed.

Lemma find_all_false {A} (p : A → bool) (l : list A) :
  (∀ x, x ∈ l → p x = false) → List.find p l = None.
Proof.
  induction l as [|x l IH]; intros Hall; simpl; [done|].
  rewrite (Hall x) by by left. apply IH. intros y Hy. apply Hall. by right.
Qed.

Lemma find_elem {A} (p : A → bool) (l : list A) (x : A) :
  List.find p l = Some x → x ∈ l ∧ p x = true.
Proof.
  intros Hfind. apply find_some in Hfind as [Hin Hp].
  split; [by apply list_elem_of_In|done].
Qed.

Lemma find_first_with {A} (p : A → bool) (P : A → Prop) (l : list A) :
  (∀ x, x ∈ l → p x = true → P x) →
  (∃ x, x ∈ l ∧ p x = true) →
  ∃ x, List.find p l = Some x ∧ P x.
Proof.
  intros HP (x & Hx & Hpx).
  destruct (List.find p l) as [y|] eqn:Hfind.
  - exists y. split; [done|]. apply find_elem in Hfind as [Hy Hpy]. by apply HP.
  - apply list_elem_of_In in Hx. pose proof (find_none _ _ Hfind x Hx). congruence.
Qed.

(** X29.  [regenerateApiKey] replaces the key: it returns ["pk_live_"]
    followed by the generated string, stores it as the user's API key and
    logs ["api_key_regenerated"]; the former key, which was the user's
    alone, then resolves to no user, and the new key resolves to this user
    as long as no other user holds it.  Nothing else of the user
    changes but [updatedAt]. *)
Theorem regenerateApiKey_replaces_key (db : UsersDb) (userId : Id) (now : nat → Z)
    (nano : string) (logId : Id) (logCreated : Z) (u : UserDoc.t) :
  Users.find userId db = Some u →
  (∀ v, v ∈ users db → UserDoc.apiKey v = UserDoc.apiKey u → UserDoc._id v = userId) →
  UserDoc.apiKey u ≠ ("pk_live_" ++ nano)%string →
  ∃ db1,
    Users.regenerateApiKey userId now nano logId logCreated db =
      (inr ("pk_live_" ++ nano)%string, db1) ∧
    Users.getUserByApiKey (UserDoc.apiKey u) db1 = (inr None, db1) ∧
    Users.find userId db1 =
      Some (UserDoc.mk (UserDoc._id u) (UserDoc._creationTime u) (UserDoc.email u)
              (UserDoc.name u) (UserDoc.authId u) (UserDoc.avatarUrl u)
              (UserDoc.plan u) ("pk_live_" ++ nano)%string (UserDoc.createdAt u)
              (now 0%nat)) ∧
    ((∀ v, v ∈ users db → UserDoc._id v ≠ userId →
           UserDoc.apiKey v ≠ ("pk_live_" ++ nano)%string) →
     ∃ u1, Users.getUserByApiKey ("pk_live_" ++ nano)%string db1 = (inr (Some u1), db1) ∧
           UserDoc._id u1 = userId) ∧
    activityLog db1 =
      activityLog db ++
      [LogEntry.mk logId logCreated userId "api_key_regenerated" "user" (Some userId)
         (now 1%nat)].
Proof.
  intros Hfind Hown Hnew.
  eexists. split.
  { unfold Users.regenerateApiKey. rewrite patch_user_found by by eexists.
    reflexivity. }
  assert (∀ id' db' e, Users.find id' (Users.insert_log e db') = Users.find id' db')
    as Hlog by done.
  unfold Users.getUserByApiKey, Users.first_by_apiKey. cbn [Users.insert_log users].
  split.
  { rewrite find_all_false; [done|]. intros x Hx.
    apply list_elem_of_fmap in Hx as (v & -> & Hv).
    destruct (String.eqb_spec (UserDoc._id v) userId) as [Hid|Hid];
      cbn [UserDoc.apiKey].
    - apply String.eqb_neq. congruence.
    - apply String.eqb_neq. intros Hkey. by apply Hid, Hown. }
  split.
  { rewrite Hlog, find_patched_user by done. by rewrite String.eqb_refl, Hfind. }
  split; [|done]. intros Hothers.
  edestruct (find_first_with
               (λ x, String.eqb (UserDoc.apiKey x) ("pk_live_" ++ nano)%string)
               (λ x, UserDoc._id x = userId)) as (u1 & Hu1 & Hid1).
  3:{ exists u1. rewrite Hu1. by split. }
  - intros x Hx Hkey. apply list_elem_of_fmap in Hx as (v & -> & Hv).
    destruct (String.eqb_spec (UserDoc._id v) userId) as [Hid|Hid];
      cbn [UserDoc._id]; [done|].
    apply String.eqb_eq in Hkey. by destruct (Hothers v Hv Hid).
  - apply find_elem in Hfind as [Hu Hid]. cbv beta in Hid.
    eexists. split.
    + apply list_elem_of_fmap. exists u. split; [reflexivity|done].
    + cbv beta. rewrite Hid. cbn [UserDoc.apiKey]. apply String.eqb_refl.
Qed.

Lemma regenerateApiKey_replaces_key_witness :
  ∃ db1,
    Users.regenerateApiKey "u1" (λ _, 50) "k2" "l1" 51
      (mkUsersDb [UserDoc.mk "u1" 11 "alice@example.org" "Alice" "auth|1" None free
                    "pk_live_k1" 10 10] []) = (inr "pk_live_k2", db1) ∧
    Users.getUserByApiKey "pk_live_k1" db1 = (inr None, db1).
Proof.
  destruct (regenerateApiKey_replaces_key
              (mkUsersDb [UserDoc.mk "u1" 11 "alice@example.org" "Alice" "auth|1" None
                            free "pk_live_k1" 10 10] [])
              "u1" (λ _, 50) "k2" "l1" 51
              (UserDoc.mk "u1" 11 "alice@example.org" "Alice" "auth|1" None free
                 "pk_live_k1" 10 10))
    as (db1 & Hrun & Hold & _).
  - reflexivity.
  - intros v Hv _. apply list_elem_of_singleton in Hv. by subst.
  - discriminate.
  - exists db1. split; [exact Hrun|exact Hold].
Defined.

Lemma signIn_first (email : string) (db : UsersDb) (id : Id) :
  (∀ v, v ∈ users db → UserDoc.email v = email → UserDoc._id v = id) →
  (∃ v, v ∈ users db ∧ UserDoc.email v = email) →
  Users.signIn email db = (inr id, db).
Proof.
  intros Hall (v & Hv & Hemail). unfold Users.signIn, Users.by_email.
  destruct (List.filter _ (users db)) as [|x l] eqn:Hfilter.
  - assert (v ∈ List.filter (λ u, String.eqb (UserDoc.email u) email) (users db)) as Hin.
    { apply list_elem_of_In, filter_In. split; [by apply list_elem_of_In|].
      by apply String.eqb_eq. }
    rewrite Hfilter in Hin. by apply elem_of_nil in Hin.
  - assert (x ∈ List.filter (λ u, String.eqb (UserDoc.email u) email) (users db)) as Hin.
    { rewrite Hfilter. by left. }
    apply list_elem_of_In, filter_In in Hin as [Hx Hxe].
    apply list_elem_of_In in Hx. apply String.eqb_eq in Hxe.
    by rewrite (Hall x Hx Hxe).
Qed.

(** X30.  A user that was upserted can sign in: when no two users share
    an [authId] and the email is not that of another account, [signIn]
    with the email given to [upsertUser] returns the identifier
    [upsertUser] returned, and writes nothing.  Before the upsert, an
    email that no user has is refused with "Invalid email or password". *)
Theorem signIn_after_upsertUser (db : UsersDb) (authId email name : string)
    (avatarUrl : option string) (now : nat → Z) (nano : string) (fresh : Users.Fresh) :
  NoDup (map UserDoc.authId (users db)) →
  (∀ v, v ∈ users db → UserDoc.email v = email → UserDoc.authId v = authId) →
  ∃ id db1,
    Users.upsertUser authId email name avatarUrl now nano fresh db = (inr id, db1) ∧
    Users.signIn email db1 = (inr id, db1) ∧
    ((∀ v, v ∈ users db → UserDoc.email v ≠ email) →
     Users.signIn email db = (inl (Error "Invalid email or password"), db)).
Proof.
  intros Hnd Hmine.
  assert ((∀ v, v ∈ users db → UserDoc.email v ≠ email) →
          Users.signIn email db = (inl (Error "Invalid email or password"), db))
    as Hrefused.
  { intros Hnone. unfold Users.signIn, Users.by_email.
    destruct (List.filter _ (users db)) as [|x l] eqn:Hfilter; [done|].
    assert (x ∈ List.filter (λ u, String.eqb (UserDoc.email u) email) (users db)) as Hin.
    { rewrite Hfilter. by left. }
    apply list_elem_of_In, filter_In in Hin as [Hx Hxe].
    apply list_elem_of_In in Hx. apply String.eqb_eq in Hxe.
    by destruct (Hnone x Hx). }
  destruct (Users.first_by_authId authId db) as [ex|] eqn:Hex.
  - destruct (upsertUser_existing db authId email name avatarUrl now nano fresh ex Hex)
      as [Hrun _].
    eexists _, _. split; [exact Hrun|]. split; [|exact Hrefused].
    apply find_elem in Hex as [Hex_in Hex_auth]. apply String.eqb_eq in Hex_auth.
    apply signIn_first; cbn [users].
    + intros x Hx Hemail. apply list_elem_of_fmap in Hx as (v & -> & Hv).
      destruct (String.eqb_spec (UserDoc._id v) (UserDoc._id ex)) as [Hid|Hid];
        [done|].
      f_equal. apply (NoDup_fmap_eq UserDoc.authId (users db)); [done..|].
      rewrite Hex_auth. by apply Hmine.
    + eexists. split.
      * apply list_elem_of_fmap. exists ex. split; [reflexivity|done].
      * simpl. by rewrite String.eqb_refl.
  - destruct (upsertUser_new db authId email name avatarUrl now nano fresh Hex)
      as [Hrun _].
    eexists _, _. split; [exact Hrun|]. split; [|exact Hrefused].
    apply signIn_first; cbn [users].
    + intros x [Hx|Hx]%elem_of_app Hemail.
      * exfalso. apply (first_by_authId_none _ _ Hex).
        apply list_elem_of_fmap. exists x. split; [|done]. symmetry. by apply Hmine.
      * apply list_elem_of_singleton in Hx. by subst.
    + eexists. split; [apply elem_of_app; right; by left|done].
Qed.

Lemma signIn_after_upsertUser_witness :
  ∃ id db1,
    Users.upsertUser "auth|2" "bob@example.org" "Bob" None (λ _, 50) "k2"
      (Users.mkFresh "u2" 51 "l2" 52)
      (mkUsersDb [UserDoc.mk "u1" 11 "alice@example.org" "Alice" "auth|1" None free
                    "pk_live_k1" 10 10] []) = (inr id, db1) ∧
    Users.signIn "bob@example.org" db1 = (inr id, db1).
Proof.
  destruct (signIn_after_upsertUser
              (mkUsersDb [UserDoc.mk "u1" 11 "alice@example.org" "Alice" "auth|1" None
                            free "pk_live_k1" 10 10] [])
              "auth|2" "bob@example.org" "Bob" None (λ _, 50) "k2"
              (Users.mkFresh "u2" 51 "l2" 52))
    as (id & db1 & Hrun & Hsign & _).
  - apply (bool_decide_unpack _). vm_compute. exact I.
  - intros v Hv Hemail. apply list_elem_of_singleton in Hv. by subst.
  - exists id, db1. split; [exact Hrun|exact Hsign].
Defined.
